(** * The HMM notebook: path scorer and Viterbi decoder

    A shallow embedding of the code cells of
    [04_Writing_Viterbi_Algorithm_for_the_Primer.ipynb]:

    - the global tables [hmm_states], [dna_bases], [start_probs],
      [trans_probs], [emit_probs];
    - [safe_log] and [calc_path_probability] (the path scorer);
    - [find_best_path] (the Viterbi decoder).

    The functions read the tables as globals; here the tables are a record
    [Model] passed to each function, [notebook] being the tables of the
    source.  Python values used as dictionary keys are strings or [None];
    dictionaries are insertion-ordered association lists (the decoder's
    tie-breaking and [max] depend on that order); exceptions are an error
    monad.

    Numbers.  [find_best_path] only multiplies and compares, so it is written
    once over an interface [Arith] and run at two instances: IEEE binary64
    (Rocq's primitive floats, what CPython computes with) and exact rationals.
    [calc_path_probability] calls [math.log], which binary64 in Rocq does not
    offer: it is embedded over exact rationals with the real logarithm, the
    value [-inf] being a constructor of its own. *)

From Stdlib Require Import List String Ascii Bool Arith ZArith NArith QArith Qround.
From Stdlib Require Import Lia Lra Floats Uint63 Reals Qreals.
Import ListNotations.

Set Implicit Arguments.

(** ** Python values, exceptions, dictionaries, lists *)

(** The hashable values that occur as keys and path elements: [str] and
    [None]. *)
Inductive pyval : Type :=
| PNone
| PStr (s : string).

Coercion PStr : string >-> pyval.

Definition pyval_eqb (a b : pyval) : bool :=
  match a, b with
  | PNone, PNone => true
  | PStr s, PStr t => String.eqb s t
  | _, _ => false
  end.

(** The exceptions the two functions can raise. *)
Inductive exn : Type :=
| ValueError (msg : string)
| KeyError (key : pyval)
| IndexError.

Inductive result (A : Type) : Type :=
| Ok (a : A)
| Raise (e : exn).

Arguments Ok {A} a.
Arguments Raise {A} e.

Definition bind {A B : Type} (c : result A) (k : A -> result B) : result B :=
  match c with
  | Ok a => k a
  | Raise e => Raise e
  end.

Declare Scope py_scope.
Delimit Scope py_scope with py.
Notation "x <- c ;; k" := (bind c (fun x => k))
  (at level 61, c at next level, right associativity) : py_scope.
Notation "' pat <- c ;; k" := (bind c (fun x => match x with pat => k end))
  (at level 61, pat pattern, c at next level, right associativity) : py_scope.
Open Scope py_scope.
Open Scope string_scope.
Open Scope list_scope.

(** [dict]: keys in insertion order, each key once. *)
Definition dict (V : Type) : Type := list (pyval * V).

(** [d[k]]: [KeyError] when [k] is absent. *)
Fixpoint dict_get {V : Type} (d : dict V) (k : pyval) : result V :=
  match d with
  | [] => Raise (KeyError k)
  | (k', v) :: d' => if pyval_eqb k k' then Ok v else dict_get d' k
  end.

(** [d[k] = v]: an existing key keeps its place, a new key goes last. *)
Fixpoint dict_set {V : Type} (d : dict V) (k : pyval) (v : V) : dict V :=
  match d with
  | [] => [(k, v)]
  | (k', v') :: d' =>
      if pyval_eqb k k' then (k', v) :: d' else (k', v') :: dict_set d' k v
  end.

(** [l[i]] for [0 <= i]: [IndexError] out of range. *)
Definition list_get {A : Type} (l : list A) (i : nat) : result A :=
  match nth_error l i with
  | Some a => Ok a
  | None => Raise IndexError
  end.

(** The list after [l[i] = v], for an index already read with [list_get]. *)
Fixpoint list_set {A : Type} (l : list A) (i : nat) (v : A) : list A :=
  match l, i with
  | [], _ => []
  | _ :: l', O => v :: l'
  | a :: l', S i' => a :: list_set l' i' v
  end.

(** [for x in xs: body], the loop state passed along; an exception leaves
    the loop. *)
Fixpoint for_each {A S : Type} (xs : list A) (s : S)
    (body : S -> A -> result S) : result S :=
  match xs with
  | [] => Ok s
  | x :: xs' => s' <- body s x ;; for_each xs' s' body
  end.

(** Iterating over a [str] yields its one-character strings. *)
Fixpoint chars (s : string) : list pyval :=
  match s with
  | EmptyString => []
  | String c s' => PStr (String c EmptyString) :: chars s'
  end.

(** ** Numbers *)

(** What [find_best_path] asks of its numbers: decimal literals, [*], [>]. *)
Class Arith (num : Type) : Type := {
  lit : Q -> num;
  mul : num -> num -> num;
  gtb : num -> num -> bool
}.

(** Python's [float]: a decimal literal is the nearest binary64 (the correctly
    rounded quotient of two small integers), [*] and [>] are IEEE 754's. *)
Definition float_of_Z (z : Z) : float :=
  match z with
  | Z0 => PrimFloat.zero
  | Zpos _ => PrimFloat.of_uint63 (Uint63.of_Z z)
  | Zneg p => PrimFloat.opp (PrimFloat.of_uint63 (Uint63.of_Z (Zpos p)))
  end.

#[export] Instance float_arith : Arith float := {
  lit q := PrimFloat.div (float_of_Z (Qnum q)) (float_of_Z (Zpos (Qden q)));
  mul := PrimFloat.mul;
  gtb x y := PrimFloat.ltb y x
}.

(** Exact rationals: no rounding, no underflow.  Not the arithmetic of the
    code: the idealisation its binary64 results are compared with. *)
#[export] Instance exact_arith : Arith Q := {
  lit q := q;
  mul := Qmult;
  gtb x y := if Qlt_le_dec y x then true else false
}.

(** ** The model *)

Record Model (num : Type) : Type := {
  hmm_states : list pyval;
  dna_bases : list pyval;
  start_probs : dict num;
  trans_probs : dict (dict num);
  emit_probs : dict (dict num)
}.

(** The notebook's tables. *)
Definition notebook {num : Type} `{Arith num} : Model num := {|
  hmm_states := [PStr "E"; PStr "5"; PStr "I"];
  dna_bases := [PStr "A"; PStr "C"; PStr "G"; PStr "T"];
  start_probs :=
    [(PStr "E", lit 1.0); (PStr "5", lit 0.0); (PStr "I", lit 0.0)];
  trans_probs :=
    [(PStr "Start", [(PStr "E", lit 1.0); (PStr "5", lit 0.0);
                     (PStr "I", lit 0.0); (PStr "End", lit 0.0)]);
     (PStr "E", [(PStr "E", lit 0.9); (PStr "5", lit 0.1);
                 (PStr "I", lit 0.0); (PStr "End", lit 0.0)]);
     (PStr "5", [(PStr "E", lit 0.0); (PStr "5", lit 0.0);
                 (PStr "I", lit 1.0); (PStr "End", lit 0.0)]);
     (PStr "I", [(PStr "E", lit 0.0); (PStr "5", lit 0.0);
                 (PStr "I", lit 0.9); (PStr "End", lit 0.1)])];
  emit_probs :=
    [(PStr "E", [(PStr "A", lit 0.25); (PStr "C", lit 0.25);
                 (PStr "G", lit 0.25); (PStr "T", lit 0.25)]);
     (PStr "5", [(PStr "A", lit 0.05); (PStr "C", lit 0.0);
                 (PStr "G", lit 0.95); (PStr "T", lit 0.0)]);
     (PStr "I", [(PStr "A", lit 0.4); (PStr "C", lit 0.1);
                 (PStr "G", lit 0.1); (PStr "T", lit 0.4)])]
|}.

(** The tables on binary64 and on exact rationals. *)
Abbreviation notebook64 := (@notebook float float_arith).
Abbreviation notebookQ := (@notebook Q exact_arith).

(** ** The Viterbi decoder *)

Section Decoder.

Context {num : Type} `{Arith num}.
Variable m : Model num.

(** [max(d, key=d.get)]: the first key whose value no later value exceeds. *)
Definition max_key (d : dict num) : result pyval :=
  match d with
  | [] => Raise (ValueError "max() iterable argument is empty")
  | (k0, v0) :: d' =>
      Ok (fst (fold_left
                 (fun (best : pyval * num) (kv : pyval * num) =>
                    if gtb (snd kv) (snd best) then kv else best)
                 d' (k0, v0)))
  end.

(** The innermost loop, for one [pos] and one [current]. *)
Definition best_previous (dna_seq : list pyval) (dp_table : list (dict num))
    (pos : nat) (current : pyval) : result (num * pyval) :=
  for_each (hmm_states m) (lit 0.0, PNone)
    (fun '(best_prob, best_prev) previous =>
       row <- list_get dp_table (pos - 1) ;;
       p <- dict_get row previous ;;
       tr <- dict_get (trans_probs m) previous ;;
       t <- dict_get tr current ;;
       er <- dict_get (emit_probs m) current ;;
       base <- list_get dna_seq pos ;;
       e <- dict_get er base ;;
       let new_prob := mul (mul p t) e in
       if gtb new_prob best_prob
       then Ok (new_prob, previous)
       else Ok (best_prob, best_prev)).

(** The first loop: position 0. *)
Definition init_tables (dna_seq : list pyval) (dp_table : list (dict num))
    : result (list (dict num)) :=
  for_each (hmm_states m) dp_table
    (fun dp_table state =>
       s <- dict_get (start_probs m) state ;;
       er <- dict_get (emit_probs m) state ;;
       base <- list_get dna_seq 0 ;;
       e <- dict_get er base ;;
       row <- list_get dp_table 0 ;;
       Ok (list_set dp_table 0 (dict_set row state (mul s e)))).

(** The body of the main loop, for one [pos]. *)
Definition fill_position (dna_seq : list pyval)
    (tables : list (dict num) * list (dict pyval)) (pos : nat)
    : result (list (dict num) * list (dict pyval)) :=
  for_each (hmm_states m) tables
    (fun '(dp_table, backtrack) current =>
       '(best_prob, best_prev) <-
          best_previous dna_seq dp_table pos current ;;
       row <- list_get dp_table pos ;;
       brow <- list_get backtrack pos ;;
       Ok (list_set dp_table pos (dict_set row current best_prob),
           list_set backtrack pos (dict_set brow current best_prev))).

(** The main loop: positions [1 .. seq_len - 1]. *)
Definition fill_tables (dna_seq : list pyval)
    (tables : list (dict num) * list (dict pyval))
    : result (list (dict num) * list (dict pyval)) :=
  for_each (seq 1 (List.length dna_seq - 1)) tables (fill_position dna_seq).

(** One step of the traceback. *)
Definition trace_step (backtrack : list (dict pyval))
    (state : pyval * list pyval) (pos : nat) : result (pyval * list pyval) :=
  let '(final_state, best_path) := state in
  brow <- list_get backtrack pos ;;
  final_state <- dict_get brow final_state ;;
  Ok (final_state, final_state :: best_path).

(** The traceback: [pos] from [seq_len - 1] down to 1. *)
Definition traceback (seq_len : nat) (backtrack : list (dict pyval))
    (final_state : pyval) : result (list pyval) :=
  '(_, best_path) <-
     for_each (rev (seq 1 (seq_len - 1))) (final_state, [final_state])
       (trace_step backtrack) ;;
  Ok best_path.

Definition find_best_path (dna_seq : list pyval) : result (list pyval) :=
  let seq_len := List.length dna_seq in
  let dp_table := repeat ([] : dict num) seq_len in
  let backtrack := repeat ([] : dict pyval) seq_len in
  dp_table <- init_tables dna_seq dp_table ;;
  '(dp_table, backtrack) <- fill_tables dna_seq (dp_table, backtrack) ;;
  last_row <- list_get dp_table (seq_len - 1) ;;
  final_state <- max_key last_row ;;
  traceback seq_len backtrack final_state.

End Decoder.

(** ** The path scorer *)

(** A log-probability: [-math.inf] or a finite number. *)
Inductive logprob : Type :=
| NegInf
| Finite (r : R).

(** [+] on log-probabilities: [-inf] absorbs. *)
Definition ladd (a b : logprob) : logprob :=
  match a, b with
  | Finite x, Finite y => Finite (x + y)
  | _, _ => NegInf
  end.

(** [math.log] of a negative number raises. *)
Definition math_domain_error : string := "math domain error".

Definition safe_log (num : Q) : result logprob :=
  if Qeq_bool num 0 then Ok NegInf
  else if Qle_bool 0 num then Ok (Finite (ln (Q2R num)))
  else Raise (ValueError math_domain_error).

Definition length_mismatch : string :=
  "States and sequence must be the same length.".

Section Scorer.

Variable m : Model Q.

(** The loop over [zip(states, sequence)], from any accumulator and any
    previous state. *)
Definition score_loop (start : logprob * pyval)
    (states sequence : list pyval) : result (logprob * pyval) :=
  for_each (combine states sequence) start
    (fun '(total_log_prob, last_state) '(curr_state, base) =>
       tr <- dict_get (trans_probs m) last_state ;;
       t <- dict_get tr curr_state ;;
       trans_prob <- safe_log t ;;
       er <- dict_get (emit_probs m) curr_state ;;
       e <- dict_get er base ;;
       emit_prob <- safe_log e ;;
       Ok (ladd total_log_prob (ladd trans_prob emit_prob), curr_state)).

(** The transition to "End", added after the loop when it ended on "I". *)
Definition end_term (last_state : pyval) : result logprob :=
  tr <- dict_get (trans_probs m) last_state ;;
  t <- dict_get tr (PStr "End") ;;
  safe_log t.

Definition calc_path_probability (states sequence : list pyval)
    : result logprob :=
  if negb (List.length states =? List.length sequence)%nat
  then Raise (ValueError length_mismatch)
  else
    '(total_log_prob, last_state) <-
       score_loop (Finite 0, PStr "Start") states sequence ;;
    if pyval_eqb last_state (PStr "I")
    then l <- end_term last_state ;; Ok (ladd total_log_prob l)
    else Ok total_log_prob.

End Scorer.

(** ** Reading complete tables: the decoder as a recurrence *)

(** No element of [l] occurs twice. *)
Fixpoint nodupb (l : list pyval) : bool :=
  match l with
  | [] => true
  | x :: l' => negb (existsb (pyval_eqb x) l') && nodupb l'
  end.

(** Every element of [xs] is one of [l]. *)
Definition all_in (l xs : list pyval) : bool :=
  forallb (fun x => existsb (pyval_eqb x) l) xs.

(** [k in d]. *)
Definition has_key {V : Type} (d : dict V) (k : pyval) : bool :=
  match dict_get d k with
  | Ok _ => true
  | Raise _ => false
  end.

(** The row [d[k]] of a table, empty when [k] is absent. *)
Definition row_of {V : Type} (d : dict (dict V)) (k : pyval) : dict V :=
  match dict_get d k with
  | Ok r => r
  | Raise _ => []
  end.

Section Recurrence.

Context {num : Type} `{Arith num}.
Variable m : Model num.

(** The entry [d[k]], 0.0 when [k] is absent. *)
Definition get0 (d : dict num) (k : pyval) : num :=
  match dict_get d k with
  | Ok v => v
  | Raise _ => lit 0.0
  end.

(** The tables as total functions. *)
Definition start_of (s : pyval) : num := get0 (start_probs m) s.
Definition trans_of (a b : pyval) : num := get0 (row_of (trans_probs m) a) b.
Definition emit_of (s b : pyval) : num := get0 (row_of (emit_probs m) s) b.

(** Every lookup [find_best_path] makes in the model's tables succeeds:
    the states are distinct, each has a start probability, a transition to
    every state and an emission row. *)
Definition decodable : bool :=
  nodupb (hmm_states m)
  && forallb
       (fun s =>
          has_key (start_probs m) s
          && has_key (trans_probs m) s
          && has_key (emit_probs m) s
          && forallb (has_key (row_of (trans_probs m) s)) (hmm_states m))
       (hmm_states m).

(** Every state can emit the symbol [b]. *)
Definition emits (b : pyval) : bool :=
  forallb (fun s => has_key (row_of (emit_probs m) s) b) (hmm_states m).

(** A row of the DP table as a dictionary over the states. *)
Definition as_dict {V : Type} (f : pyval -> V) : dict V :=
  map (fun s => (s, f s)) (hmm_states m).

(** [new_prob] for the state [c] and the symbol [b], coming from [p], the
    previous row being [V]. *)
Definition candidate (V : pyval -> num) (c b p : pyval) : num :=
  mul (mul (V p) (trans_of p c)) (emit_of c b).

(** One round of the innermost loop on [(best_prob, best_prev)]. *)
Definition pick (V : pyval -> num) (c b : pyval) (best : num * pyval)
    (p : pyval) : num * pyval :=
  if gtb (candidate V c b p) (fst best) then (candidate V c b p, p) else best.

(** [(best_prob, best_prev)] after the innermost loop. *)
Definition best_of (V : pyval -> num) (c b : pyval) : num * pyval :=
  fold_left (pick V c b) (hmm_states m) (lit 0.0, PNone).

(** Row 0 of the DP table, and a row and its backpointers from the row
    before. *)
Definition first_row (b : pyval) : pyval -> num :=
  fun s => mul (start_of s) (emit_of s b).

Definition next_row (V : pyval -> num) (b : pyval) : pyval -> num :=
  fun c => fst (best_of V c b).

Definition back_row (V : pyval -> num) (b : pyval) : pyval -> pyval :=
  fun c => snd (best_of V c b).

(** The rows, and the backpointers, after the row [V], one per symbol. *)
Fixpoint rows_from (V : pyval -> num) (bs : list pyval)
    : list (pyval -> num) :=
  match bs with
  | [] => []
  | b :: bs' => next_row V b :: rows_from (next_row V b) bs'
  end.

Fixpoint backs_from (V : pyval -> num) (bs : list pyval)
    : list (pyval -> pyval) :=
  match bs with
  | [] => []
  | b :: bs' => back_row V b :: backs_from (next_row V b) bs'
  end.

(** Following the backpointers from the last row to the first. *)
Fixpoint walk_back (backs : list (pyval -> pyval)) (final_state : pyval)
    : result (pyval * list pyval) :=
  match backs with
  | [] => Ok (final_state, [final_state])
  | back :: backs' =>
      '(c, path) <- walk_back backs' final_state ;;
      c' <- dict_get (as_dict back) c ;;
      Ok (c', c' :: path)
  end.

(** [find_best_path] on [b0 :: bs] when every lookup succeeds. *)
Definition viterbi (b0 : pyval) (bs : list pyval) : result (list pyval) :=
  let V0 := first_row b0 in
  final_state <- max_key (as_dict (last (rows_from V0 bs) V0)) ;;
  '(_, path) <- walk_back (backs_from V0 bs) final_state ;;
  Ok path.

(** [x > 0.0] and [not (x < 0.0)]. *)
Definition is_positive (x : num) : bool := gtb x (lit 0.0).
Definition not_negative (x : num) : bool := negb (gtb (lit 0.0) x).

Definition nonneg_dict (d : dict num) : bool :=
  forallb (fun kv => not_negative (snd kv)) d.

(** No entry of the tables is negative. *)
Definition nonneg_model : bool :=
  nonneg_dict (start_probs m)
  && forallb (fun kr => nonneg_dict (snd kr)) (trans_probs m)
  && forallb (fun kr => nonneg_dict (snd kr)) (emit_probs m).

(** The states are strings: [None] is not one of them. *)
Definition states_are_strings : bool :=
  forallb (fun s => match s with PStr _ => true | PNone => false end)
    (hmm_states m).

(** What the innermost loop leaves: its initial pair, or a state with a
    positive candidate. *)
Definition picked (V : pyval -> num) (c b : pyval) (best : num * pyval)
    : Prop :=
  best = (lit 0.0, PNone)
  \/ (In (snd best) (hmm_states m)
      /\ fst best = candidate V c b (snd best)
      /\ is_positive (fst best) = true).

(** The probability of following [path] from [prev] while emitting
    [bases], times [acc]; the factors are multiplied in the decoder's
    order. *)
Fixpoint joint_from (acc : num) (prev : pyval) (path bases : list pyval)
    : num :=
  match path, bases with
  | p :: path', b :: bases' =>
      joint_from (mul (mul acc (trans_of prev p)) (emit_of p b)) p path' bases'
  | _, _ => acc
  end.

(** The probability the decoder maximises: start, emissions, transitions. *)
Definition joint (path bases : list pyval) : num :=
  match path, bases with
  | p :: path', b :: bases' =>
      joint_from (mul (start_of p) (emit_of p b)) p path' bases'
  | _, _ => lit 1.0
  end.

(** The transition and emission probabilities along [path] from [prev]. *)
Fixpoint factors (prev : pyval) (path bases : list pyval) : list num :=
  match path, bases with
  | p :: path', b :: bases' =>
      trans_of prev p :: emit_of p b :: factors p path' bases'
  | _, _ => []
  end.

(** The probabilities the decoder multiplies along [path]. *)
Definition decoder_factors (path bases : list pyval) : list num :=
  match path, bases with
  | p :: path', b :: bases' =>
      start_of p :: emit_of p b :: factors p path' bases'
  | _, _ => []
  end.

End Recurrence.

(** What the proofs ask of the arithmetic: facts about the sign of a
    product and about [>] next to 0.0.  Exact rationals and binary64 both
    satisfy them. *)
Class Lawful (num : Type) `{Arith num} : Prop := {
  zero_not_positive : is_positive (lit 0.0) = false;
  positive_not_negative :
    forall x, is_positive x = true -> not_negative x = true;
  greater_than_positive :
    forall a b, is_positive a = true -> gtb b a = true -> is_positive b = true;
  mul_positive :
    forall x y,
      is_positive (mul x y) = true ->
      not_negative x = true -> not_negative y = true ->
      is_positive x = true /\ is_positive y = true;
  mul_not_negative :
    forall x y,
      not_negative x = true -> not_negative y = true ->
      not_negative (mul x y) = true
}.

Arguments Lawful num {_}.

(** ** Signs of binary64 numbers *)

(** What [>] and [*] see of a binary64 number. *)
Inductive sign : Type :=
| SNan
| SZero
| SPos
| SNeg.

Definition sign_of (f : spec_float) : sign :=
  match f with
  | S754_nan => SNan
  | S754_zero _ => SZero
  | S754_infinity s | S754_finite s _ _ => if s then SNeg else SPos
  end.

(** ** Probabilities along a path, in exact arithmetic *)

(** The logarithm of a probability, [-inf] at 0: what [safe_log] returns
    on a number that is not negative. *)
Definition elog (q : Q) : logprob :=
  if Qeq_bool q 0 then NegInf else Finite (ln (Q2R q)).

(** [a <= b] on log-probabilities. *)
Definition lle (a b : logprob) : Prop :=
  match a, b with
  | NegInf, _ => True
  | Finite _, NegInf => False
  | Finite x, Finite y => (x <= y)%R
  end.

Section Paths.

Variable m : Model Q.

(** Every lookup [calc_path_probability] makes beyond the decoder's
    succeeds: "Start" has a transition to every state, equal to the state's
    start probability, and the state "I", if there is one, has a transition
    to "End". *)
Definition scorable : bool :=
  has_key (trans_probs m) (PStr "Start")
  && forallb
       (fun s =>
          has_key (row_of (trans_probs m) (PStr "Start")) s
          && Qeq_bool (trans_of m (PStr "Start") s) (start_of m s)
          && (negb (pyval_eqb s (PStr "I"))
              || has_key (row_of (trans_probs m) s) (PStr "End")))
       (hmm_states m).

(** The states a transition is looked up from: "Start" and the states. *)
Definition source (prev : pyval) : Prop :=
  prev = PStr "Start" \/ In prev (hmm_states m).

(** The sum over the positions of log transition plus log emission. *)
Fixpoint sum_terms (prev : pyval) (path bases : list pyval) : logprob :=
  match path, bases with
  | p :: path', b :: bases' =>
      ladd (ladd (elog (trans_of m prev p)) (elog (emit_of m p b)))
           (sum_terms p path' bases')
  | _, _ => Finite 0
  end.

(** The probability looked up after the loop, if any. *)
Definition end_factors (path : list pyval) : list Q :=
  if pyval_eqb (last path (PStr "Start")) (PStr "I")
  then [trans_of m (PStr "I") (PStr "End")]
  else [].

End Paths.

(** ** Rational bounds on the exponential *)

(** [q * q] rounded down to a multiple of [2 ^ -bits]. *)
Definition sq_down (bits : positive) (q : Q) : Q :=
  Qfloor (q * q * inject_Z (Zpos (2 ^ bits))) # (2 ^ bits).

(** A lower bound of [q ^ (2 ^ k)], by [k] roundings. *)
Definition pow2k_down (bits : positive) (k : nat) (q : Q) : Q :=
  Nat.iter k (sq_down bits) q.

(** A lower bound of [exp x]: [(1 + x / 2 ^ k) ^ (2 ^ k)], rounded down. *)
Definition exp_down (bits : positive) (k : nat) (x : Q) : Q :=
  pow2k_down bits k (1 + x / inject_Z (2 ^ Z.of_nat k)).

(** [v] rounds to [h / 100] at two decimals ([v] is not a tie). *)
Definition rounds_to (v : R) (h : Z) : Prop :=
  (IZR h - 1 / 2 < 100 * v < IZR h + 1 / 2)%R.

Definition sample : list pyval := chars "CTTCATGTGAAAGCAGACGTAAGTCA".

Definition primer_path : list pyval := chars "EEEEEEEEEEEEEEEEEE5IIIIIII".

(** ** The FASTA converter

    The code cell of [03_Multi_line_sequence_fasta_to_single_line_fasta.ipynb]:
    it reads the lines of a file and writes each header and, on one line,
    each sequence.  The files are texts: the input as [readlines] sees it,
    the output as the concatenation of what is written. *)

(** A Python [str] is a sequence of code points. *)
Definition text : Type := list N.

(** The code points of an ASCII literal. *)
Fixpoint codes (s : string) : text :=
  match s with
  | EmptyString => []
  | String c s' => N_of_ascii c :: codes s'
  end.

(** The code points [str.strip()] removes: U+0009..000D, U+001C..0020,
    U+0085, U+00A0, U+1680, U+2000..200A, U+2028, U+2029, U+202F, U+205F,
    U+3000. *)
Definition is_space (c : N) : bool :=
  ((9 <=? c) && (c <=? 13) || (28 <=? c) && (c <=? 32)
   || (c =? 133) || (c =? 160) || (c =? 5760)
   || (8192 <=? c) && (c <=? 8202)
   || (c =? 8232) || (c =? 8233) || (c =? 8239) || (c =? 8287)
   || (c =? 12288))%N.

Fixpoint lstrip (s : text) : text :=
  match s with
  | [] => []
  | c :: s' => if is_space c then lstrip s' else s
  end.

Definition rstrip (s : text) : text := rev (lstrip (rev s)).

(** [s.strip()]. *)
Definition strip (s : text) : text := rstrip (lstrip s).

(** [s.startswith(">")]. *)
Definition is_header (s : text) : bool :=
  match s with
  | c :: _ => (c =? 62)%N
  | [] => false
  end.

(** The truth value of a [str]: not empty. *)
Definition truthy (s : text) : bool :=
  match s with
  | [] => false
  | _ :: _ => true
  end.

Definition newline : text := [10%N].

(** One round of the loop over [fasta_content]; the state is [current_seq]
    and the strings written to [fasta_out] so far, in order. *)
Definition fasta_step (state : text * list text) (current_line : text)
    : text * list text :=
  let '(current_seq, written) := state in
  let current_line := strip current_line in
  if is_header current_line then
    if truthy current_seq
    then ([], written ++ [current_seq ++ newline; current_line ++ newline])
    else (current_seq, written ++ [current_line ++ newline])
  else (current_seq ++ current_line, written).

(** The second [with] block: the strings it writes, in order. *)
Definition single_line_fasta (fasta_content : list text) : list text :=
  let '(current_seq, written) :=
    fold_left fasta_step fasta_content ([], []) in
  if truthy current_seq then written ++ [current_seq ++ newline] else written.

(** Reading in text mode, as [open(name, "r")] does (universal newlines):
    "\r\n" and a lone "\r" both reach the program as "\n". *)
Fixpoint universal_newlines (s : text) : text :=
  match s with
  | [] => []
  | c :: s' =>
      if (c =? 13)%N then
        10%N :: match s' with
                | d :: s'' =>
                    if (d =? 10)%N then universal_newlines s''
                    else universal_newlines s'
                | [] => []
                end
      else c :: universal_newlines s'
  end.

(** The lines of a text whose line ends are "\n": each with its "\n", the
    last one without when the text does not end with one. *)
Fixpoint lines_from (line : text) (s : text) : list text :=
  match s with
  | [] => if truthy line then [line] else []
  | c :: s' =>
      if (c =? 10)%N then (line ++ [c]) :: lines_from [] s'
      else lines_from (line ++ [c]) s'
  end.

(** [fasta_in.readlines()] on the decoded content [s] of the input file. *)
Definition readlines (s : text) : list text :=
  lines_from [] (universal_newlines s).

(** The cell: from the decoded content of the input file to the text
    written to the output file ([fasta_out.write] of "\n" stores the
    platform's line separator, here "\n"). *)
Definition convert_file (input : text) : text :=
  List.concat (single_line_fasta (readlines input)).

(** What is written for [current_seq] when it is flushed. *)
Definition flush (current_seq : text) : list text :=
  if truthy current_seq then [current_seq ++ newline] else [].

(** What is written from [current_seq] on, by recursion on the lines. *)
Fixpoint written_from (current_seq : text) (fasta_content : list text)
    : list text :=
  match fasta_content with
  | [] => flush current_seq
  | current_line :: rest =>
      if is_header (strip current_line) then
        flush current_seq
        ++ (strip current_line ++ newline) :: written_from [] rest
      else written_from (current_seq ++ strip current_line) rest
  end.

(** No white space at either end. *)
Definition trimmed (s : text) : Prop := lstrip s = s /\ rstrip s = s.

(** The sequence lines of a record, joined. *)
Definition joined (seq_lines : list text) : text :=
  List.concat (map strip seq_lines).

(** A record of a FASTA file: its header line and its sequence lines. *)
Definition record_lines (r : text * list text) : list text := fst r :: snd r.

(** What the converter writes for a record. *)
Definition record_output (r : text * list text) : list text :=
  (strip (fst r) ++ newline)
  :: (if truthy (joined (snd r)) then [joined (snd r) ++ newline] else []).

(** Of two neighbours in [out], one is a header. *)
Fixpoint alternates (out : list text) : bool :=
  match out with
  | a :: rest =>
      match rest with
      | b :: _ => (is_header a || is_header b) && alternates rest
      | [] => true
      end
  | [] => true
  end.

(** A written line: a trimmed, non-empty text and "\n". *)
Definition written_line (chunk : text) : Prop :=
  exists x, chunk = x ++ newline /\ x <> [] /\ trimmed x.

(** A text without "\n". *)
Definition one_line (x : text) : Prop := ~ In 10%N x.

(** A text without "\r". *)
Definition no_cr (x : text) : Prop := ~ In 13%N x.

(** Where a written list starts: with nothing, or with a header. *)
Definition headed (out : list text) : Prop :=
  match out with
  | [] => True
  | a :: _ => is_header a = true
  end.

(** The example of the notebook: two records on five sequence lines. *)
Definition example_records : list (text * list text) :=
  [(codes ">Sequence1" ++ newline,
    [codes "ATGCATGCAT" ++ newline; codes "GCATGCATGC" ++ newline;
     codes "ATGCATGCAT" ++ newline]);
   (codes ">Sequence2" ++ newline,
    [codes "CGTACGTACG" ++ newline; codes "TACGTACGTA" ++ newline])].

(** ** Products of probabilities *)

(** The product of a list of probabilities. *)
Definition product (l : list Q) : Q := fold_right Qmult 1 l.

(** No entry of the tables is above 1. *)
Definition at_most_one_dict (d : dict Q) : bool :=
  forallb (fun kv => Qle_bool (snd kv) 1) d.

Definition at_most_one_model (m : Model Q) : bool :=
  at_most_one_dict (start_probs m)
  && forallb (fun kr => at_most_one_dict (snd kr)) (trans_probs m)
  && forallb (fun kr => at_most_one_dict (snd kr)) (emit_probs m).

(** ** Ties *)


(** ** Binary64 numbers as scaled integers

    What the proofs about rounding use: a binary64 number that is not
    negative is [A * 2 ^ - scale] for an integer [A], and a product is
    rounded to the nearest such number, ties to even. *)

Definition scale : Z := 2200%Z.

(** The unit in the last place of the binary64 numbers next to [A]. *)
Definition ulp_of (A : Z) : Z :=
  (2 ^ Z.max (Z.log2 A - 52) (scale - 1074))%Z.

(** [A / U] rounded to the nearest integer, ties to even. *)
Definition rne (A U : Z) : Z :=
  (let q := A / U in
   let r := A mod U in
   if (U <? 2 * r) || ((2 * r =? U) && Z.odd q) then q + 1 else q)%Z.

(** [A] rounded to binary64. *)
Definition rounded (A : Z) : Z := (ulp_of A * rne A (ulp_of A))%Z.

(** The scaled value of a number that is not negative. *)
Definition sf_value (f : spec_float) : Z :=
  match f with
  | S754_finite false m e => (Zpos m * 2 ^ (e + scale))%Z
  | _ => 0%Z
  end.

(** Zero or a positive finite number. *)
Definition nonneg_sf (f : spec_float) : Prop :=
  match f with
  | S754_zero _ | S754_finite false _ _ => True
  | _ => False
  end.

(** Zero, or a positive number at most 1. *)
Definition unit_sf (f : spec_float) : Prop :=
  match f with
  | S754_zero _ => True
  | S754_finite false m e => (sf_value f <= 2 ^ scale)%Z
  | _ => False
  end.

(** ** Probabilities and their order *)

(** A probability: a number from 0 to 1 (the first test fails on NaN). *)
Definition is_prob {num : Type} `{Arith num} (x : num) : bool :=
  gtb x (lit (-1.0)) && negb (gtb (lit 0.0) x) && negb (gtb x (lit 1.0)).

Definition prob_dict {num : Type} `{Arith num} (d : dict num) : bool :=
  forallb (fun kv => is_prob (snd kv)) d.

(** Every entry of the tables is a probability. *)
Definition prob_model {num : Type} `{Arith num} (m : Model num) : bool :=
  prob_dict (start_probs m)
  && forallb (fun kr => prob_dict (snd kr)) (trans_probs m)
  && forallb (fun kr => prob_dict (snd kr)) (emit_probs m).

(** What optimality asks of the arithmetic on probabilities: [>] is an
    order and [*] is monotone. *)
Class Ordered (num : Type) `{Arith num} : Prop := {
  prob_zero : is_prob (lit 0.0) = true;
  prob_gt_asym :
    forall a b, is_prob a = true -> is_prob b = true ->
      gtb a b = true -> gtb b a = false;
  prob_le_trans :
    forall a b c, is_prob a = true -> is_prob b = true -> is_prob c = true ->
      gtb a b = false -> gtb b c = false -> gtb a c = false;
  prob_mul :
    forall a b, is_prob a = true -> is_prob b = true ->
      is_prob (mul a b) = true;
  prob_mul_le :
    forall a b c, is_prob a = true -> is_prob b = true -> is_prob c = true ->
      gtb a b = false -> gtb (mul a c) (mul b c) = false
}.

Arguments Ordered num {_}.

(** * Properties *)

Unset Implicit Arguments.

(** ** The error monad and the containers *)

Lemma pyval_eqb_spec (a b : pyval) : reflect (a = b) (pyval_eqb a b).
Proof.
  destruct a as [|s], b as [|t]; simpl; try (constructor; congruence).
  destruct (String.eqb_spec s t); constructor; congruence.
Qed.

Lemma pyval_eqb_refl (a : pyval) : pyval_eqb a a = true.
Proof. destruct (pyval_eqb_spec a a); congruence. Qed.

Lemma for_each_app {A S : Type} (xs ys : list A) (s : S) body :
  for_each (xs ++ ys) s body = (s' <- for_each xs s body ;; for_each ys s' body).
Proof.
  revert s; induction xs as [|x xs IH]; intros s; simpl; [reflexivity|].
  destruct (body s x) as [s'|e]; simpl; [apply IH | reflexivity].
Qed.

(** Replace the first computation of a [bind] by its value. *)
Ltac bind_step H :=
  match goal with
  | |- bind ?c _ = _ =>
      match type of H with
      | _ = ?r => replace c with r by (symmetry; exact H)
      end
  end;
  cbn [bind].

(** A loop whose body cannot fail is a left fold. *)
Lemma for_each_fold {A S : Type} (xs : list A) (s : S) body (f : S -> A -> S) :
  (forall s x, In x xs -> body s x = Ok (f s x)) ->
  for_each xs s body = Ok (fold_left f xs s).
Proof.
  revert s; induction xs as [|x xs IH]; intros s Hb; simpl; [reflexivity|].
  rewrite Hb by (left; reflexivity). simpl.
  apply IH. intros s' y Hy. apply Hb. right; exact Hy.
Qed.

Lemma list_get_middle {A : Type} (pre : list A) (x : A) (post : list A) :
  list_get (pre ++ x :: post) (List.length pre) = Ok x.
Proof.
  unfold list_get. rewrite nth_error_app2 by lia.
  rewrite Nat.sub_diag. reflexivity.
Qed.

Lemma snoc_app {A : Type} (l : list A) (x : A) (l' : list A) :
  l ++ x :: l' = (l ++ [x]) ++ l'.
Proof. now rewrite <- app_assoc. Qed.

Lemma last_cons_default {A : Type} (l : list A) (x d : A) :
  last (x :: l) d = last l x.
Proof.
  revert x d. induction l as [|y l IH]; intros x d; [reflexivity|].
  change (last (x :: y :: l) d) with (last (y :: l) d).
  now rewrite !IH.
Qed.

Lemma list_set_middle {A : Type} (pre : list A) (x y : A) (post : list A) :
  list_set (pre ++ x :: post) (List.length pre) y = pre ++ y :: post.
Proof. induction pre as [|a pre IH]; simpl; [reflexivity | now rewrite IH]. Qed.

Lemma dict_get_map {V : Type} (f : pyval -> V) (l : list pyval) (k : pyval) :
  In k l -> dict_get (map (fun s => (s, f s)) l) k = Ok (f k).
Proof.
  induction l as [|x l IH]; simpl; [tauto|]. intros Hin.
  destruct (pyval_eqb_spec k x) as [->|Hne]; [reflexivity|].
  destruct Hin as [->|Hin]; [congruence | exact (IH Hin)].
Qed.

Lemma dict_get_map_out {V : Type} (f : pyval -> V) (l : list pyval) (k : pyval) :
  ~ In k l -> dict_get (map (fun s => (s, f s)) l) k = Raise (KeyError k).
Proof.
  induction l as [|x l IH]; simpl; [reflexivity|]. intros Hn.
  destruct (pyval_eqb_spec k x) as [->|Hne]; [tauto|].
  apply IH. tauto.
Qed.

Lemma dict_set_map {V : Type} (f : pyval -> V) (l : list pyval) (k : pyval) :
  ~ In k l ->
  dict_set (map (fun s => (s, f s)) l) k (f k) = map (fun s => (s, f s)) (l ++ [k]).
Proof.
  induction l as [|x l IH]; simpl; [reflexivity|]. intros Hn.
  destruct (pyval_eqb_spec k x) as [->|Hne]; [tauto|].
  rewrite IH by tauto. reflexivity.
Qed.

Lemma nodupb_NoDup (l : list pyval) : nodupb l = true -> NoDup l.
Proof.
  induction l as [|x l IH]; simpl; intros Hd; constructor;
    apply andb_prop in Hd; destruct Hd as [Hx Hl]; [|exact (IH Hl)].
  intros Hin. apply negb_true_iff in Hx.
  assert (existsb (pyval_eqb x) l = true); [|congruence].
  apply existsb_exists. exists x. split; [exact Hin | apply pyval_eqb_refl].
Qed.

Lemma all_in_Forall (l xs : list pyval) :
  all_in l xs = true -> Forall (fun x => In x l) xs.
Proof.
  unfold all_in. rewrite forallb_forall. intros Hall.
  apply Forall_forall. intros x Hx. specialize (Hall x Hx).
  apply existsb_exists in Hall. destruct Hall as (y & Hy & Heq).
  destruct (pyval_eqb_spec x y); [now subst | discriminate].
Qed.

Lemma has_key_get {V : Type} (d : dict V) (k : pyval) :
  has_key d k = true -> exists v, dict_get d k = Ok v.
Proof. unfold has_key. destruct (dict_get d k); [eauto | discriminate]. Qed.

#[local] Set Warnings "-inexact-float".

(** The decimal literals of the tables, as binary64. *)
Example notebook_literals :
  lit 0.0 = 0%float /\ lit 1.0 = 1%float /\ lit 0.9 = 0.9%float
  /\ lit 0.1 = 0.1%float /\ lit 0.25 = 0.25%float /\ lit 0.05 = 0.05%float
  /\ lit 0.95 = 0.95%float /\ lit 0.4 = 0.4%float.
Proof. repeat split; reflexivity. Qed.

Example decode_sample_exact :
  find_best_path (notebook (num := Q)) sample = Ok (repeat (PStr "E") 26).
Proof. vm_compute. reflexivity. Qed.

(** C4. Under the notebook's model, on binary64 as CPython computes,
    decoding "CTTCATGTGAAAGCAGACGTAAGTCA" yields 26 times the state "E". *)
Theorem decode_sample_all_E :
  find_best_path (notebook (num := float)) sample = Ok (repeat (PStr "E") 26).
Proof. vm_compute. reflexivity. Qed.

(** ** The decoder's loops compute the recurrence *)

Lemma has_key_get0 {num : Type} `{Arith num} (d : dict num) (k : pyval) :
  has_key d k = true -> dict_get d k = Ok (get0 d k).
Proof. unfold has_key, get0. destruct (dict_get d k); [reflexivity | discriminate]. Qed.

Lemma has_key_row_of {V : Type} (d : dict (dict V)) (k : pyval) :
  has_key d k = true -> dict_get d k = Ok (row_of d k).
Proof. unfold has_key, row_of. destruct (dict_get d k); [reflexivity | discriminate]. Qed.

Section DecoderUnfold.

Context {num : Type} `{Arith num}.
Variable m : Model num.
Hypothesis Hdec : decodable m = true.

Let states := hmm_states m.

Lemma states_NoDup : NoDup states.
Proof.
  unfold decodable in Hdec. apply andb_prop in Hdec.
  apply nodupb_NoDup. tauto.
Qed.

Lemma state_lookups (s : pyval) :
  In s states ->
  dict_get (start_probs m) s = Ok (start_of m s)
  /\ dict_get (trans_probs m) s = Ok (row_of (trans_probs m) s)
  /\ dict_get (emit_probs m) s = Ok (row_of (emit_probs m) s)
  /\ forall c, In c states ->
       dict_get (row_of (trans_probs m) s) c = Ok (trans_of m s c).
Proof.
  intros Hs. unfold decodable in Hdec. apply andb_prop in Hdec.
  destruct Hdec as [_ Hall]. rewrite forallb_forall in Hall.
  specialize (Hall s Hs).
  repeat (apply andb_prop in Hall; destruct Hall as [Hall ?]).
  repeat split.
  - now apply has_key_get0.
  - now apply has_key_row_of.
  - now apply has_key_row_of.
  - intros c Hc. apply has_key_get0.
    match goal with Hf : forallb _ _ = true |- _ =>
      rewrite forallb_forall in Hf; exact (Hf c Hc) end.
Qed.

Lemma emit_lookup (s b : pyval) :
  In s states -> emits m b = true ->
  dict_get (row_of (emit_probs m) s) b = Ok (emit_of m s b).
Proof.
  intros Hs Hb. unfold emits in Hb. rewrite forallb_forall in Hb.
  apply has_key_get0. exact (Hb s Hs).
Qed.

Lemma best_previous_ok dna_seq dp_table pos V c b :
  list_get dp_table (pos - 1) = Ok (as_dict m V) ->
  list_get dna_seq pos = Ok b ->
  In c states -> emits m b = true ->
  best_previous m dna_seq dp_table pos c = Ok (best_of m V c b).
Proof.
  intros Hrow Hb Hc He. unfold best_previous, best_of.
  apply for_each_fold. intros [best_prob best_prev] p Hp.
  destruct (state_lookups p Hp) as (_ & Htr & _ & Ht).
  destruct (state_lookups c Hc) as (_ & _ & Her & _).
  rewrite Hrow. simpl. unfold as_dict. rewrite (dict_get_map V _ _ Hp). simpl.
  rewrite Htr. simpl. rewrite (Ht c Hc). simpl. rewrite Her. simpl.
  rewrite Hb. simpl. rewrite (emit_lookup c b Hc He). simpl.
  unfold pick, candidate. simpl. destruct (gtb _ best_prob); reflexivity.
Qed.

(** The first loop fills row 0. *)
Lemma init_tables_row b0 bs rest todo done :
  states = done ++ todo -> emits m b0 = true ->
  for_each todo (map (fun s => (s, first_row m b0 s)) done :: rest)
    (fun dp_table state =>
       s <- dict_get (start_probs m) state ;;
       er <- dict_get (emit_probs m) state ;;
       base <- list_get (b0 :: bs) 0 ;;
       e <- dict_get er base ;;
       row <- list_get dp_table 0 ;;
       Ok (list_set dp_table 0 (dict_set row state (mul s e))))
  = Ok (as_dict m (first_row m b0) :: rest).
Proof.
  intros HS He. revert done HS.
  induction todo as [|x todo IH]; intros done HS; simpl.
  - rewrite app_nil_r in HS. unfold as_dict. fold states. now rewrite HS.
  - assert (Hx : In x states) by (rewrite HS; apply in_or_app; right; left; reflexivity).
    assert (Hnx : ~ In x done).
    { pose proof states_NoDup as Hnd. rewrite HS in Hnd.
      apply NoDup_remove_2 in Hnd. intros Hin. apply Hnd.
      apply in_or_app. left; exact Hin. }
    destruct (state_lookups x Hx) as (Hst & _ & Her & _).
    rewrite Hst. simpl. rewrite Her. simpl. unfold list_get at 1. simpl.
    rewrite (emit_lookup x b0 Hx He). simpl. unfold list_get. simpl.
    change (mul (start_of m x) (emit_of m x b0)) with (first_row m b0 x).
    rewrite (dict_set_map (first_row m b0) done x Hnx).
    apply IH. rewrite HS, <- app_assoc. reflexivity.
Qed.

Lemma init_tables_ok b0 bs rest :
  emits m b0 = true ->
  init_tables m (b0 :: bs) ([] :: rest) = Ok (as_dict m (first_row m b0) :: rest).
Proof.
  intros He. unfold init_tables.
  exact (init_tables_row b0 bs rest (hmm_states m) [] eq_refl He).
Qed.

(** One round of the main loop fills one row of each table. *)
Lemma fill_position_row dna_seq pre V rest preb restb b todo done :
  states = done ++ todo -> emits m b = true ->
  List.length preb = S (List.length pre) ->
  list_get dna_seq (S (List.length pre)) = Ok b ->
  for_each todo
    ((pre ++ [as_dict m V]) ++ map (fun c => (c, next_row m V b c)) done :: rest,
     preb ++ map (fun c => (c, back_row m V b c)) done :: restb)
    (fun '(dp_table, backtrack) current =>
       '(best_prob, best_prev) <-
          best_previous m dna_seq dp_table (S (List.length pre)) current ;;
       row <- list_get dp_table (S (List.length pre)) ;;
       brow <- list_get backtrack (S (List.length pre)) ;;
       Ok (list_set dp_table (S (List.length pre))
             (dict_set row current best_prob),
           list_set backtrack (S (List.length pre))
             (dict_set brow current best_prev)))
  = Ok ((pre ++ [as_dict m V]) ++ as_dict m (next_row m V b) :: rest,
        preb ++ as_dict m (back_row m V b) :: restb).
Proof.
  intros HS He Hlen Hb. revert done HS.
  assert (Hpos : List.length (pre ++ [as_dict m V]) = S (List.length pre))
    by (rewrite length_app; simpl; lia).
  induction todo as [|x todo IH]; intros done HS; simpl.
  - rewrite app_nil_r in HS. unfold as_dict. fold states. now rewrite HS.
  - assert (Hx : In x states) by (rewrite HS; apply in_or_app; right; left; reflexivity).
    assert (Hnx : ~ In x done).
    { pose proof states_NoDup as Hnd. rewrite HS in Hnd.
      apply NoDup_remove_2 in Hnd. intros Hin. apply Hnd.
      apply in_or_app. left; exact Hin. }
    rewrite (best_previous_ok dna_seq _ _ V x b); try assumption.
    + simpl. destruct (best_of m V x b) as [bp bprev] eqn:Hbest.
      rewrite <- Hpos at 1. rewrite list_get_middle. simpl.
      rewrite <- Hlen at 1. rewrite list_get_middle. simpl.
      rewrite <- Hpos at 1. rewrite list_set_middle.
      rewrite <- Hlen at 1. rewrite list_set_middle.
      replace bp with (next_row m V b x) by (unfold next_row; now rewrite Hbest).
      replace bprev with (back_row m V b x) by (unfold back_row; now rewrite Hbest).
      rewrite (dict_set_map (next_row m V b) done x Hnx).
      rewrite (dict_set_map (back_row m V b) done x Hnx).
      apply IH. rewrite HS, <- app_assoc. reflexivity.
    + simpl. rewrite Nat.sub_0_r. rewrite <- app_assoc. simpl.
      apply list_get_middle.
Qed.

Lemma fill_position_ok dna_seq pre V rest preb restb b :
  emits m b = true ->
  List.length preb = S (List.length pre) ->
  list_get dna_seq (S (List.length pre)) = Ok b ->
  fill_position m dna_seq
    ((pre ++ [as_dict m V]) ++ [] :: rest, preb ++ [] :: restb)
    (S (List.length pre))
  = Ok ((pre ++ [as_dict m V]) ++ as_dict m (next_row m V b) :: rest,
        preb ++ as_dict m (back_row m V b) :: restb).
Proof.
  intros He Hlen Hb. unfold fill_position.
  exact (fill_position_row dna_seq pre V rest preb restb b (hmm_states m) []
           eq_refl He Hlen Hb).
Qed.

Lemma fill_rounds dna_seq bs :
  forallb (emits m) bs = true ->
  forall pre V preb,
  List.length preb = S (List.length pre) ->
  (forall i b, nth_error bs i = Some b ->
     list_get dna_seq (S (List.length pre) + i) = Ok b) ->
  for_each (seq (S (List.length pre)) (List.length bs))
    ((pre ++ [as_dict m V]) ++ repeat [] (List.length bs),
     preb ++ repeat [] (List.length bs))
    (fill_position m dna_seq)
  = Ok ((pre ++ [as_dict m V]) ++ map (as_dict m) (rows_from m V bs),
        preb ++ map (as_dict m) (backs_from m V bs)).
Proof.
  induction bs as [|b bs IH]; intros He pre V preb Hlen Hseq; simpl.
  - reflexivity.
  - simpl in He. apply andb_prop in He. destruct He as [Heb He].
    rewrite fill_position_ok with (b := b); try assumption.
    + simpl.
      specialize (IH He (pre ++ [as_dict m V]) (next_row m V b)
                    (preb ++ [as_dict m (back_row m V b)])).
      rewrite !length_app in IH. simpl in IH.
      rewrite !Nat.add_1_r in IH.
      rewrite (snoc_app (pre ++ [as_dict m V]) _ (repeat [] _)).
      rewrite (snoc_app (pre ++ [as_dict m V]) _ (map _ _)).
      rewrite (snoc_app preb _ (repeat [] _)).
      rewrite (snoc_app preb _ (map _ _)).
      apply IH; [lia|].
      intros i b' Hi. specialize (Hseq (S i) b' Hi).
      rewrite <- Hseq. f_equal. lia.
    + specialize (Hseq 0%nat b eq_refl). rewrite Nat.add_0_r in Hseq. exact Hseq.
Qed.

Lemma rows_from_length V bs : List.length (rows_from m V bs) = List.length bs.
Proof. revert V; induction bs as [|b bs IH]; intros V; simpl; [|rewrite IH]; reflexivity. Qed.

Lemma backs_from_length V bs : List.length (backs_from m V bs) = List.length bs.
Proof. revert V; induction bs as [|b bs IH]; intros V; simpl; [|rewrite IH]; reflexivity. Qed.

Lemma fill_tables_ok b0 bs :
  forallb (emits m) bs = true ->
  fill_tables m (b0 :: bs)
    (as_dict m (first_row m b0) :: repeat [] (List.length bs),
     [] :: repeat [] (List.length bs))
  = Ok (as_dict m (first_row m b0)
          :: map (as_dict m) (rows_from m (first_row m b0) bs),
        [] :: map (as_dict m) (backs_from m (first_row m b0) bs)).
Proof.
  intros He. unfold fill_tables. simpl List.length.
  replace (S (List.length bs) - 1)%nat with (List.length bs) by lia.
  apply (fill_rounds (b0 :: bs) bs He [] (first_row m b0) [[]] eq_refl).
  intros i b Hi. unfold list_get. simpl. now rewrite Hi.
Qed.

(** The traceback loop follows the backpointers from the last row. *)
Lemma trace_rounds final_state backs :
  forall pre,
  for_each (rev (seq (List.length pre) (List.length backs)))
    (final_state, [final_state])
    (trace_step (pre ++ map (as_dict m) backs))
  = walk_back m backs final_state.
Proof.
  induction backs as [|back backs IH]; intros pre; simpl; [reflexivity|].
  rewrite for_each_app.
  specialize (IH (pre ++ [as_dict m back])).
  rewrite length_app, Nat.add_1_r, <- app_assoc in IH. simpl in IH.
  rewrite IH. destruct (walk_back m backs final_state) as [[c path]|e]; simpl;
    [|reflexivity].
  rewrite list_get_middle. simpl.
  destruct (dict_get (as_dict m back) c); reflexivity.
Qed.

Lemma traceback_ok final_state backs :
  traceback (S (List.length backs)) ([] :: map (as_dict m) backs) final_state
  = ('(_, path) <- walk_back m backs final_state ;; Ok path).
Proof.
  unfold traceback.
  replace (S (List.length backs) - 1)%nat with (List.length backs) by lia.
  pose proof (trace_rounds final_state backs [[]]) as Hw. simpl in Hw.
  unfold dict in *. now rewrite Hw.
Qed.

Lemma last_row_get (V0 : pyval -> num) (rows : list (pyval -> num)) :
  list_get (as_dict m V0 :: map (as_dict m) rows) (List.length rows)
  = Ok (as_dict m (last rows V0)).
Proof.
  unfold list_get. revert V0. induction rows as [|V rows IH]; intros V0.
  - reflexivity.
  - rewrite last_cons_default. simpl List.length. simpl nth_error.
    simpl map in IH. apply IH.
Qed.

(** With complete tables and a non-empty sequence the three loops compute
    the recurrence, whatever the arithmetic. *)
Lemma find_best_path_viterbi b0 bs :
  forallb (emits m) (b0 :: bs) = true ->
  find_best_path m (b0 :: bs) = viterbi m b0 bs.
Proof.
  intros He. simpl in He. apply andb_prop in He. destruct He as [He0 He].
  unfold find_best_path, viterbi. simpl List.length. simpl repeat.
  bind_step (init_tables_ok b0 bs (repeat [] (List.length bs)) He0).
  bind_step (fill_tables_ok b0 bs He).
  replace (S (List.length bs) - 1)%nat with (List.length bs) by lia.
  rewrite <- (rows_from_length (first_row m b0) bs) at 1.
  bind_step (last_row_get (first_row m b0) (rows_from m (first_row m b0) bs)).
  destruct (max_key _) as [final_state|e]; simpl; [|reflexivity].
  rewrite <- (backs_from_length (first_row m b0) bs).
  apply traceback_ok.
Qed.

End DecoderUnfold.

(** ** Logarithms of probabilities *)

Lemma ladd_assoc (a b c : logprob) : ladd (ladd a b) c = ladd a (ladd b c).
Proof.
  destruct a, b, c; simpl; try reflexivity. f_equal. ring.
Qed.

Lemma ladd_0_r (a : logprob) : ladd a (Finite 0) = a.
Proof. destruct a; simpl; [reflexivity | f_equal; ring]. Qed.

Lemma ladd_0_l (a : logprob) : ladd (Finite 0) a = a.
Proof. destruct a; simpl; [reflexivity | f_equal; ring]. Qed.

Lemma ladd_NegInf_r (a : logprob) : ladd a NegInf = NegInf.
Proof. destruct a; reflexivity. Qed.

Lemma lle_refl (a : logprob) : lle a a.
Proof. destruct a; simpl; [exact I | apply Rle_refl]. Qed.

Lemma lle_trans (a b c : logprob) : lle a b -> lle b c -> lle a c.
Proof.
  destruct a, b, c; simpl; try tauto. apply Rle_trans.
Qed.

Lemma safe_log_nonneg (q : Q) : 0 <= q -> safe_log q = Ok (elog q).
Proof.
  intros Hq. unfold safe_log, elog.
  destruct (Qeq_bool q 0); [reflexivity|].
  apply Qle_bool_iff in Hq. now rewrite Hq.
Qed.

Lemma Q2R_0 : Q2R 0 = 0%R.
Proof. unfold Q2R. simpl. field. Qed.

Lemma Q2R_1 : Q2R 1 = 1%R.
Proof. unfold Q2R. simpl. field. Qed.

Lemma Q2R_inject_Z (z : Z) : Q2R (inject_Z z) = IZR z.
Proof. unfold Q2R. simpl. field. Qed.

Lemma elog_1 : elog 1 = Finite 0.
Proof.
  unfold elog. simpl. f_equal.
  rewrite Q2R_1. apply ln_1.
Qed.

Lemma elog_zero (q : Q) : q == 0 -> elog q = NegInf.
Proof. intros Hq. unfold elog. apply Qeq_bool_iff in Hq. now rewrite Hq. Qed.

Lemma elog_pos (q : Q) : 0 < q -> elog q = Finite (ln (Q2R q)).
Proof.
  intros Hq. unfold elog. destruct (Qeq_bool q 0) eqn:Hz; [|reflexivity].
  apply Qeq_bool_iff in Hz. rewrite Hz in Hq. discriminate.
Qed.

Lemma elog_eq (a b : Q) : a == b -> elog a = elog b.
Proof.
  intros Hab. unfold elog.
  destruct (Qeq_bool a 0) eqn:Ha, (Qeq_bool b 0) eqn:Hb.
  - reflexivity.
  - apply Qeq_bool_iff in Ha. apply Qeq_bool_neq in Hb.
    exfalso. apply Hb. now rewrite <- Hab.
  - apply Qeq_bool_iff in Hb. apply Qeq_bool_neq in Ha.
    exfalso. apply Ha. now rewrite Hab.
  - now rewrite (Qeq_eqR a b Hab).
Qed.

Lemma Q2R_pos (q : Q) : 0 < q -> (0 < Q2R q)%R.
Proof. intros Hq. rewrite <- Q2R_0. now apply Qlt_Rlt. Qed.

Lemma elog_mult (a b : Q) :
  0 <= a -> 0 <= b -> elog (a * b) = ladd (elog a) (elog b).
Proof.
  intros Ha Hb.
  destruct (Qle_lt_or_eq _ _ Ha) as [Ha'|Ha'].
  - destruct (Qle_lt_or_eq _ _ Hb) as [Hb'|Hb'].
    + assert (Hab : 0 < a * b) by (apply Qmult_lt_0_compat; assumption).
      rewrite !elog_pos by assumption. simpl. f_equal.
      rewrite Q2R_mult. apply ln_mult; now apply Q2R_pos.
    + rewrite (elog_zero b) by (now symmetry).
      rewrite ladd_NegInf_r. apply elog_zero. rewrite <- Hb'. ring.
  - rewrite (elog_zero a) by (now symmetry). simpl.
    apply elog_zero. rewrite <- Ha'. ring.
Qed.

Lemma elog_mono (a b : Q) : 0 <= a -> a <= b -> lle (elog a) (elog b).
Proof.
  intros Ha Hab.
  destruct (Qle_lt_or_eq _ _ Ha) as [Ha'|Ha'].
  - assert (Hb : 0 < b) by (eapply Qlt_le_trans; eassumption).
    rewrite !elog_pos by assumption. simpl.
    destruct (Qle_lt_or_eq _ _ Hab) as [Hlt|Heq].
    + left. apply ln_increasing; [now apply Q2R_pos | now apply Qlt_Rlt].
    + right. now rewrite (Qeq_eqR a b Heq).
  - rewrite (elog_zero a) by (now symmetry). exact I.
Qed.

(** ** The scorer: which exceptions, in which order *)

Lemma dict_get_raise {V : Type} (d : dict V) (k : pyval) (e : exn) :
  dict_get d k = Raise e -> e = KeyError k.
Proof.
  induction d as [|[k' v] d IH]; simpl.
  - congruence.
  - destruct (pyval_eqb k k'); [discriminate | exact IH].
Qed.

Lemma safe_log_raise (q : Q) (e : exn) :
  safe_log q = Raise e -> e = ValueError math_domain_error.
Proof.
  unfold safe_log. destruct (Qeq_bool q 0); [discriminate|].
  destruct (Qle_bool 0 q); congruence.
Qed.

Lemma for_each_raise {A S : Type} (P : exn -> Prop) (xs : list A) body :
  (forall (s : S) x e, body s x = Raise e -> P e) ->
  forall s e, for_each xs s body = Raise e -> P e.
Proof.
  intros Hbody. induction xs as [|x xs IH]; intros s e; simpl; [discriminate|].
  destruct (body s x) as [s'|e'] eqn:Hb; simpl.
  - apply IH.
  - intros Heq. injection Heq as <-. exact (Hbody s x e' Hb).
Qed.

(** Peel one lookup of a chain of binds that raised. *)
Ltac raised :=
  match goal with
  | |- bind (dict_get ?d ?k) _ = Raise _ -> _ =>
      let Hg := fresh "Hg" in
      destruct (dict_get d k) eqn:Hg; cbn [bind];
      [| let Heq := fresh in
         intros Heq; injection Heq as <-;
         apply dict_get_raise in Hg; subst; discriminate ]
  | |- bind (safe_log ?q) _ = Raise _ -> _ =>
      let Hg := fresh "Hg" in
      destruct (safe_log q) eqn:Hg; cbn [bind];
      [| let Heq := fresh in
         intros Heq; injection Heq as <-;
         apply safe_log_raise in Hg; subst; discriminate ]
  end.

Lemma score_loop_raise (m : Model Q) start states sequence e :
  score_loop m start states sequence = Raise e ->
  e <> ValueError length_mismatch.
Proof.
  unfold score_loop.
  apply (for_each_raise (fun e => e <> ValueError length_mismatch)).
  intros [total last_state] [curr_state base] e'.
  repeat raised. discriminate.
Qed.

Lemma end_term_raise (m : Model Q) last_state e :
  end_term m last_state = Raise e -> e <> ValueError length_mismatch.
Proof.
  unfold end_term. repeat raised.
  intros Hs. apply safe_log_raise in Hs. subst. discriminate.
Qed.

(** C6. The scorer raises the length-mismatch error exactly when the path
    and the sequence differ in length, whatever the tables hold (so before
    any lookup); with equal lengths that error is never raised. *)
Theorem length_mismatch_iff (m : Model Q) (states sequence : list pyval) :
  calc_path_probability m states sequence = Raise (ValueError length_mismatch)
  <-> List.length states <> List.length sequence.
Proof.
  unfold calc_path_probability.
  destruct (Nat.eqb_spec (List.length states) (List.length sequence)) as [Heq|Hne];
    simpl.
  - split; [|tauto]. intros Hr. exfalso.
    destruct (score_loop m (Finite 0, PStr "Start") states sequence)
      as [[total last_state]|e] eqn:Hloop; simpl in Hr.
    + destruct (pyval_eqb last_state (PStr "I")); [|discriminate].
      destruct (end_term m last_state) as [l|e] eqn:Hend; simpl in Hr;
        [discriminate|].
      injection Hr as ->. exact (end_term_raise m _ _ Hend eq_refl).
    + injection Hr as ->. exact (score_loop_raise m _ _ _ _ Hloop eq_refl).
  - tauto.
Qed.

(** C9. On an empty path and an empty sequence the scorer returns 0.0 and
    raises nothing, whatever the tables hold. *)
Theorem empty_path_scores_zero (m : Model Q) :
  calc_path_probability m [] [] = Ok (Finite 0).
Proof. reflexivity. Qed.

(** C5. On an empty sequence the decoder returns no path: it raises, for
    every model and both arithmetics; with the notebook's tables the
    exception is the [IndexError] of [dna_seq[0]]. *)
Theorem empty_sequence_raises :
  (forall (num : Type) (A : Arith num) (m : Model num),
     exists e, find_best_path m [] = Raise e)
  /\ find_best_path (notebook (num := float)) [] = Raise IndexError
  /\ find_best_path (notebook (num := Q)) [] = Raise IndexError.
Proof.
  split; [|split; reflexivity].
  intros num A m. unfold find_best_path, init_tables. simpl.
  destruct (hmm_states m) as [|s states]; simpl.
  - exists IndexError. reflexivity.
  - destruct (dict_get (start_probs m) s); simpl; [|eauto].
    destruct (dict_get (emit_probs m) s); simpl; eauto.
Qed.

(** ** The scorer on complete tables *)

Lemma zero_lit : 0.0 == 0.
Proof. reflexivity. Qed.

Lemma is_positive_exact (x : Q) : is_positive x = true <-> 0 < x.
Proof.
  unfold is_positive. cbn [gtb lit exact_arith].
  destruct (Qlt_le_dec 0.0 x) as [Hlt|Hle]; rewrite zero_lit in *;
    split; intros Hx; try discriminate; try reflexivity.
  - exact Hlt.
  - exfalso. apply (Qlt_irrefl 0). eapply Qlt_le_trans; [exact Hx | exact Hle].
Qed.

Lemma not_negative_exact (x : Q) : not_negative x = true <-> 0 <= x.
Proof.
  unfold not_negative. cbn [gtb lit exact_arith].
  destruct (Qlt_le_dec x 0.0) as [Hlt|Hle]; rewrite zero_lit in *;
    split; intros Hx; try discriminate; try reflexivity.
  - exfalso. apply (Qlt_irrefl 0). eapply Qle_lt_trans; [exact Hx | exact Hlt].
  - exact Hle.
Qed.

Lemma get0_nonneg (d : dict Q) (k : pyval) :
  nonneg_dict d = true -> 0 <= get0 d k.
Proof.
  unfold get0, nonneg_dict. induction d as [|[k' v] d IH]; simpl.
  - intros _. rewrite zero_lit. apply Qle_refl.
  - intros Hd. apply andb_prop in Hd. destruct Hd as [Hv Hd].
    destruct (pyval_eqb k k'); [now apply not_negative_exact | exact (IH Hd)].
Qed.

Lemma row_of_nonneg (d : dict (dict Q)) (k : pyval) :
  forallb (fun kr => nonneg_dict (snd kr)) d = true ->
  nonneg_dict (row_of d k) = true.
Proof.
  unfold row_of. induction d as [|[k' r] d IH]; simpl.
  - reflexivity.
  - intros Hd. apply andb_prop in Hd. destruct Hd as [Hr Hd].
    destruct (pyval_eqb k k'); [exact Hr | exact (IH Hd)].
Qed.

Section ScorerFacts.

Variable m : Model Q.
Hypothesis Hdec : decodable m = true.
Hypothesis Hnn : nonneg_model m = true.
Hypothesis Hsc : scorable m = true.

Let states := hmm_states m.

Lemma start_nonneg (s : pyval) : 0 <= start_of m s.
Proof.
  unfold nonneg_model in Hnn. apply andb_prop in Hnn. destruct Hnn as [Hnn' _].
  apply andb_prop in Hnn'. apply get0_nonneg. tauto.
Qed.

Lemma trans_nonneg (a b : pyval) : 0 <= trans_of m a b.
Proof.
  unfold nonneg_model in Hnn. apply andb_prop in Hnn. destruct Hnn as [Hnn' _].
  apply andb_prop in Hnn'. apply get0_nonneg, row_of_nonneg. tauto.
Qed.

Lemma emit_nonneg (s b : pyval) : 0 <= emit_of m s b.
Proof.
  unfold nonneg_model in Hnn. apply andb_prop in Hnn.
  apply get0_nonneg, row_of_nonneg. tauto.
Qed.

Lemma scorable_state (s : pyval) :
  In s states ->
  dict_get (row_of (trans_probs m) (PStr "Start")) s
    = Ok (trans_of m (PStr "Start") s)
  /\ trans_of m (PStr "Start") s == start_of m s
  /\ (s = PStr "I" ->
      dict_get (row_of (trans_probs m) s) (PStr "End")
      = Ok (trans_of m s (PStr "End"))).
Proof.
  intros Hs. unfold scorable in Hsc. apply andb_prop in Hsc.
  destruct Hsc as [_ Hall]. rewrite forallb_forall in Hall.
  specialize (Hall s Hs).
  repeat (apply andb_prop in Hall; destruct Hall as [Hall ?]).
  repeat split.
  - now apply has_key_get0.
  - now apply Qeq_bool_iff.
  - intros ->. apply has_key_get0.
    match goal with Ho : (_ || _)%bool = true |- _ =>
      simpl in Ho; exact Ho end.
Qed.

Lemma source_lookups (prev c : pyval) :
  source m prev -> In c states ->
  dict_get (trans_probs m) prev = Ok (row_of (trans_probs m) prev)
  /\ dict_get (row_of (trans_probs m) prev) c = Ok (trans_of m prev c).
Proof.
  intros [->|Hp] Hc.
  - split; [|apply (scorable_state c Hc)].
    unfold scorable in Hsc. apply andb_prop in Hsc.
    apply has_key_row_of. tauto.
  - destruct (state_lookups m Hdec prev Hp) as (_ & Htr & _ & Ht).
    split; [exact Htr | exact (Ht c Hc)].
Qed.

(** The loop adds, position by position, log transition plus log emission,
    and ends on the last state of the path. *)
Lemma score_loop_sum (path bases : list pyval) :
  forall acc prev,
  source m prev -> Forall (fun s => In s states) path ->
  forallb (emits m) bases = true ->
  List.length path = List.length bases ->
  score_loop m (acc, prev) path bases
  = Ok (ladd acc (sum_terms m prev path bases), last path prev).
Proof.
  revert bases. induction path as [|p path IH]; intros bases acc prev Hprev Hin He Hlen.
  - destruct bases; [|discriminate]. unfold score_loop. simpl.
    now rewrite ladd_0_r.
  - destruct bases as [|b bases]; [discriminate|].
    inversion Hin as [|? ? Hp Hpath]; subst.
    simpl in He. apply andb_prop in He. destruct He as [Heb He].
    destruct (source_lookups prev p Hprev Hp) as [Htr Ht].
    destruct (state_lookups m Hdec p Hp) as (_ & _ & Her & _).
    unfold score_loop. simpl combine. simpl for_each.
    rewrite Htr. cbn [bind]. rewrite Ht. cbn [bind].
    rewrite (safe_log_nonneg _ (trans_nonneg prev p)). cbn [bind].
    rewrite Her. cbn [bind]. rewrite (emit_lookup m p b Hp Heb). cbn [bind].
    rewrite (safe_log_nonneg _ (emit_nonneg p b)). cbn [bind].
    fold (score_loop m
            (ladd acc (ladd (elog (trans_of m prev p)) (elog (emit_of m p b))), p)
            path bases).
    rewrite IH; try assumption.
    + rewrite last_cons_default. simpl sum_terms.
      now rewrite ladd_assoc.
    + right; exact Hp.
    + simpl in Hlen. lia.
Qed.

Lemma last_in_states (path : list pyval) (prev : pyval) :
  Forall (fun s => In s states) path -> path <> [] -> In (last path prev) states.
Proof.
  intros Hin Hne. rewrite Forall_forall in Hin. apply Hin.
  destruct path as [|p path]; [congruence|].
  rewrite last_cons_default.
  clear. revert p. induction path as [|q path IH]; intros p.
  - left; reflexivity.
  - rewrite last_cons_default. right. apply IH.
Qed.

(** The scorer on complete tables: the sum over the positions, plus the log
    of the transition to "End" exactly when the path ends on "I". *)
Lemma calc_path_probability_sum (path bases : list pyval) :
  Forall (fun s => In s states) path ->
  forallb (emits m) bases = true ->
  List.length path = List.length bases ->
  calc_path_probability m path bases
  = Ok (if pyval_eqb (last path (PStr "Start")) (PStr "I")
        then ladd (sum_terms m (PStr "Start") path bases)
                  (elog (trans_of m (PStr "I") (PStr "End")))
        else sum_terms m (PStr "Start") path bases).
Proof.
  intros Hin He Hlen. unfold calc_path_probability.
  rewrite Hlen, Nat.eqb_refl. simpl negb. cbv iota.
  rewrite (score_loop_sum path bases (Finite 0) (PStr "Start"));
    try assumption; [|left; reflexivity].
  cbn [bind]. rewrite ladd_0_l.
  destruct (pyval_eqb_spec (last path (PStr "Start")) (PStr "I")) as [HI|HI];
    [|reflexivity].
  assert (Hne : path <> []) by (intros ->; discriminate).
  pose proof (last_in_states path (PStr "Start") Hin Hne) as Hlast.
  rewrite HI in *. unfold end_term.
  destruct (state_lookups m Hdec (PStr "I") Hlast) as (_ & Htr & _ & _).
  rewrite Htr. cbn [bind].
  destruct (scorable_state (PStr "I") Hlast) as (_ & _ & Hend).
  rewrite (Hend eq_refl). cbn [bind].
  rewrite (safe_log_nonneg _ (trans_nonneg _ _)). reflexivity.
Qed.

End ScorerFacts.

Lemma sum_terms_joint (m : Model Q) (path bases : list pyval) :
  nonneg_model m = true ->
  forall a prev,
  0 <= a ->
  ladd (elog a) (sum_terms m prev path bases)
  = elog (joint_from m a prev path bases).
Proof.
  intros Hnn. revert bases.
  induction path as [|p path IH]; intros bases a prev Ha; simpl.
  - apply ladd_0_r.
  - destruct bases as [|b bases]; [apply ladd_0_r|].
    pose proof (trans_nonneg m Hnn prev p) as Ht.
    pose proof (emit_nonneg m Hnn p b) as He.
    rewrite <- IH.
    + rewrite <- ladd_assoc. f_equal.
      rewrite (elog_mult (a * trans_of m prev p)); [|now apply Qmult_le_0_compat|exact He].
      rewrite (elog_mult a); [|exact Ha|exact Ht].
      now rewrite ladd_assoc.
    + apply Qmult_le_0_compat; [now apply Qmult_le_0_compat | exact He].
Qed.

Lemma sum_terms_zero_factor (m : Model Q) (path bases : list pyval) :
  forall prev q,
  In q (factors m prev path bases) -> q == 0 ->
  sum_terms m prev path bases = NegInf.
Proof.
  revert bases. induction path as [|p path IH]; intros bases prev q; simpl.
  - tauto.
  - destruct bases as [|b bases]; simpl; [tauto|].
    intros [<-|[<-|Hin]] Hq.
    + now rewrite (elog_zero _ Hq).
    + rewrite (elog_zero _ Hq), ladd_NegInf_r. reflexivity.
    + rewrite (IH bases p q Hin Hq). apply ladd_NegInf_r.
Qed.

(** ** The notebook's tables are complete *)

Lemma notebook_decodable_exact : decodable (notebook (num := Q)) = true.
Proof. vm_compute. reflexivity. Qed.

Lemma notebook_nonneg : nonneg_model notebook = true.
Proof. vm_compute. reflexivity. Qed.

Lemma notebook_scorable : scorable notebook = true.
Proof. vm_compute. reflexivity. Qed.

Lemma notebook_emits (bases : list pyval) :
  Forall (fun b => In b (dna_bases (notebook (num := Q)))) bases ->
  forallb (emits (notebook (num := Q))) bases = true.
Proof.
  intros Hb. apply forallb_forall. intros b Hin.
  rewrite Forall_forall in Hb. specialize (Hb b Hin). simpl in Hb.
  destruct Hb as [<-|[<-|[<-|[<-|[]]]]]; vm_compute; reflexivity.
Qed.

(** C8. On complete tables, for a path over the states and a sequence over
    the symbols of the same length: when the path ends on "I" the scorer
    returns the sum over the positions of log transition plus log emission,
    plus the log of the transition from "I" to "End"; when it ends on any
    other state (or is empty) it returns that sum alone. *)
Theorem end_term_only_after_intron (m : Model Q) (path bases : list pyval) :
  decodable m = true -> nonneg_model m = true -> scorable m = true ->
  Forall (fun s => In s (hmm_states m)) path ->
  forallb (emits m) bases = true ->
  List.length path = List.length bases ->
  (last path (PStr "Start") = PStr "I" ->
     calc_path_probability m path bases
     = Ok (ladd (sum_terms m (PStr "Start") path bases)
                (elog (trans_of m (PStr "I") (PStr "End")))))
  /\ (last path (PStr "Start") <> PStr "I" ->
        calc_path_probability m path bases
        = Ok (sum_terms m (PStr "Start") path bases)).
Proof.
  intros Hdec Hnn Hsc Hin He Hlen.
  rewrite (calc_path_probability_sum m Hdec Hnn Hsc path bases Hin He Hlen).
  destruct (pyval_eqb_spec (last path (PStr "Start")) (PStr "I")); split;
    congruence.
Qed.

Lemma end_term_only_after_intron_witness :
  calc_path_probability notebook (chars "E5I") (chars "AGT")
  = Ok (ladd (sum_terms notebook (PStr "Start") (chars "E5I") (chars "AGT"))
             (elog (trans_of notebook (PStr "I") (PStr "End"))))
  /\ calc_path_probability notebook (chars "EE5") (chars "AGG")
     = Ok (sum_terms notebook (PStr "Start") (chars "EE5") (chars "AGG")).
Proof.
  split.
  - apply (end_term_only_after_intron notebook (chars "E5I") (chars "AGT"));
      try (vm_compute; reflexivity).
    apply all_in_Forall; vm_compute; reflexivity.
  - apply (end_term_only_after_intron notebook (chars "EE5") (chars "AGG"));
      try (vm_compute; reflexivity).
    + apply all_in_Forall; vm_compute; reflexivity.
    + simpl. discriminate.
Defined.

(** C10. With the notebook's tables, a path over "E", "5", "I" and a
    sequence over "A", "C", "G", "T" of the same length are scored without
    any exception: every lookup is defined and [safe_log] accepts every
    probability of the tables. *)
Theorem score_never_fails (path bases : list pyval) :
  Forall (fun s => In s [PStr "E"; PStr "5"; PStr "I"]) path ->
  Forall (fun b => In b [PStr "A"; PStr "C"; PStr "G"; PStr "T"]) bases ->
  List.length path = List.length bases ->
  exists v, calc_path_probability notebook path bases = Ok v.
Proof.
  intros Hp Hb Hlen. eexists.
  apply (calc_path_probability_sum notebook notebook_decodable_exact
           notebook_nonneg notebook_scorable path bases Hp
           (notebook_emits bases Hb) Hlen).
Qed.

Lemma score_never_fails_witness :
  exists v, calc_path_probability notebook primer_path sample = Ok v.
Proof.
  apply (score_never_fails primer_path sample).
  - apply all_in_Forall; vm_compute; reflexivity.
  - apply all_in_Forall; vm_compute; reflexivity.
  - reflexivity.
Defined.

(** ** Rational lower bounds of the exponential *)

Lemma sq_down_le (bits : positive) (q : Q) : sq_down bits q <= q * q.
Proof.
  unfold sq_down.
  set (z := Qfloor (q * q * inject_Z (Zpos (2 ^ bits)))).
  apply Qle_trans with (inject_Z z / inject_Z (Zpos (2 ^ bits))).
  - pose proof (Qmake_Qdiv z (2 ^ bits)) as Heq. rewrite Heq. apply Qle_refl.
  - apply Qle_shift_div_r; [reflexivity|]. apply Qfloor_le.
Qed.

Lemma sq_down_nonneg (bits : positive) (q : Q) : 0 <= sq_down bits q.
Proof.
  unfold sq_down.
  assert (Hz : (0 <= Qfloor (q * q * inject_Z (Zpos (2 ^ bits))))%Z).
  { change 0%Z with (Qfloor 0). apply Qfloor_resp_le.
    apply Qmult_le_0_compat; [|discriminate].
    destruct (Qlt_le_dec q 0) as [Hneg|Hpos].
    - setoid_replace (q * q) with ((- q) * (- q)) by ring.
      assert (Hq : 0 <= - q)
        by (apply Qlt_le_weak in Hneg; exact (Qopp_le_compat q 0 Hneg)).
      now apply Qmult_le_0_compat.
    - now apply Qmult_le_0_compat. }
  unfold Qle. cbn [Qnum Qden]. rewrite Z.mul_1_r. exact Hz.
Qed.

Lemma pow2k_down_le (bits : positive) (k : nat) (q : Q) (y : R) :
  0 <= q -> (Q2R q <= exp y)%R ->
  0 <= pow2k_down bits k q
  /\ (Q2R (pow2k_down bits k q) <= exp (2 ^ k * y))%R.
Proof.
  intros Hq Hy. unfold pow2k_down. induction k as [|k [IHq IHy]].
  - simpl. split; [exact Hq|]. now rewrite Rmult_1_l.
  - simpl Nat.iter. split; [apply sq_down_nonneg|].
    set (r := Nat.iter k (sq_down bits) q) in *.
    apply Rle_trans with (Q2R (r * r)).
    + apply Qle_Rle, sq_down_le.
    + rewrite Q2R_mult.
      replace (2 ^ S k * y)%R with (2 ^ k * y + 2 ^ k * y)%R by (simpl; ring).
      rewrite exp_plus.
      assert (Hr : (0 <= Q2R r)%R).
      { rewrite <- Q2R_0.
        now apply Qle_Rle. }
      apply Rmult_le_compat; assumption.
Qed.

Lemma exp_down_le (bits : positive) (k : nat) (x : Q) :
  0 <= 1 + x / inject_Z (2 ^ Z.of_nat k) ->
  0 <= exp_down bits k x /\ (Q2R (exp_down bits k x) <= exp (Q2R x))%R.
Proof.
  intros Hq. unfold exp_down.
  assert (Hpow : IZR (2 ^ Z.of_nat k) = (2 ^ k)%R) by (now rewrite <- pow_IZR).
  assert (Hpos : (0 < 2 ^ k)%R) by (apply pow_lt; lra).
  destruct (pow2k_down_le bits k _ (Q2R x / 2 ^ k) Hq) as [H1 H2].
  - rewrite Q2R_plus, Q2R_div.
    + rewrite Q2R_1.
      replace (Q2R (inject_Z (2 ^ Z.of_nat k))) with (2 ^ k)%R.
      * apply exp_ineq1_le.
      * now rewrite Q2R_inject_Z, Hpow.
    + intros Hz. apply Qeq_eqR in Hz.
      rewrite Q2R_inject_Z, Hpow, Q2R_0 in Hz. lra.
  - split; [exact H1|].
    replace (2 ^ k * (Q2R x / 2 ^ k))%R with (Q2R x) in H2 by (field; lra).
    exact H2.
Qed.

(** [ln] of a positive rational between two rationals, by two comparisons
    of rationals. *)
Lemma ln_between (bits : positive) (k : nat) (p lo hi : Q) :
  0 < p ->
  0 <= 1 + hi / inject_Z (2 ^ Z.of_nat k) ->
  0 <= 1 + (- lo) / inject_Z (2 ^ Z.of_nat k) ->
  p < exp_down bits k hi ->
  1 < p * exp_down bits k (- lo) ->
  (Q2R lo < ln (Q2R p) < Q2R hi)%R.
Proof.
  intros Hp Hhi Hlo Hup Hdown.
  pose proof (Q2R_pos p Hp) as HpR.
  destruct (exp_down_le bits k hi Hhi) as [_ Hehi].
  destruct (exp_down_le bits k (- lo) Hlo) as [Hnn Helo].
  split.
  - rewrite <- (ln_exp (Q2R lo)). apply ln_increasing; [apply exp_pos|].
    apply Qlt_Rlt in Hdown. rewrite Q2R_mult in Hdown.
    rewrite Q2R_1 in Hdown.
    rewrite Q2R_opp in Helo.
    assert (HL : (0 < Q2R (exp_down bits k (- lo)))%R).
    { destruct (Rle_lt_dec (Q2R (exp_down bits k (- lo))) 0) as [Hle|Hlt];
        [|exact Hlt].
      exfalso. assert (Q2R p * Q2R (exp_down bits k (- lo)) <= 0)%R; [|lra].
      rewrite <- (Rmult_0_r (Q2R p)). apply Rmult_le_compat_l; lra. }
    replace (Q2R lo) with (- - Q2R lo)%R by ring. rewrite exp_Ropp.
    apply Rle_lt_trans with (/ Q2R (exp_down bits k (- lo)))%R.
    + apply Rinv_le_contravar; assumption.
    + apply Rmult_lt_reg_r with (Q2R (exp_down bits k (- lo))); [exact HL|].
      rewrite Rinv_l by lra. exact Hdown.
  - rewrite <- (ln_exp (Q2R hi)). apply ln_increasing; [exact HpR|].
    apply Rlt_le_trans with (Q2R (exp_down bits k hi)); [|exact Hehi].
    now apply Qlt_Rlt.
Qed.

Lemma joint_from_nonneg (m : Model Q) (path bases : list pyval) :
  nonneg_model m = true ->
  forall a prev, 0 <= a -> 0 <= joint_from m a prev path bases.
Proof.
  intros Hnn. revert bases.
  induction path as [|p path IH]; intros bases a prev Ha; simpl; [exact Ha|].
  destruct bases as [|b bases]; [exact Ha|].
  apply IH. apply Qmult_le_0_compat;
    [apply Qmult_le_0_compat; [exact Ha | apply trans_nonneg, Hnn]
    | apply emit_nonneg, Hnn].
Qed.

(** The scorer on complete tables returns the logarithm of a product. *)
Lemma calc_path_probability_product (m : Model Q) (path bases : list pyval) :
  decodable m = true -> nonneg_model m = true -> scorable m = true ->
  Forall (fun s => In s (hmm_states m)) path ->
  forallb (emits m) bases = true ->
  List.length path = List.length bases ->
  calc_path_probability m path bases
  = Ok (elog (if pyval_eqb (last path (PStr "Start")) (PStr "I")
              then joint_from m 1 (PStr "Start") path bases
                   * trans_of m (PStr "I") (PStr "End")
              else joint_from m 1 (PStr "Start") path bases)).
Proof.
  intros Hdec Hnn Hsc Hin He Hlen.
  rewrite (calc_path_probability_sum m Hdec Hnn Hsc path bases Hin He Hlen).
  assert (Hsum : sum_terms m (PStr "Start") path bases
                 = elog (joint_from m 1 (PStr "Start") path bases)).
  { rewrite <- (sum_terms_joint m path bases Hnn 1 (PStr "Start"))
      by discriminate.
    now rewrite elog_1, ladd_0_l. }
  rewrite Hsum.
  destruct (pyval_eqb (last path (PStr "Start")) (PStr "I")); [|reflexivity].
  rewrite elog_mult; [reflexivity | | apply trans_nonneg, Hnn].
  apply joint_from_nonneg; [exact Hnn | discriminate].
Qed.

(** C3. With the notebook's tables the score of the path
    "EEEEEEEEEEEEEEEEEE5IIIIIII" on "CTTCATGTGAAAGCAGACGTAAGTCA" is a finite
    number that rounds to -41.22 at two decimals. *)
Theorem primer_path_score :
  exists v : R,
    calc_path_probability notebook primer_path sample = Ok (Finite v)
    /\ rounds_to v (-4122).
Proof.
  set (p := joint_from notebook 1 (PStr "Start") primer_path sample
            * trans_of notebook (PStr "I") (PStr "End")).
  assert (Hp : 0 < p) by (vm_compute; reflexivity).
  exists (ln (Q2R p)). split.
  - rewrite (calc_path_probability_product notebook primer_path sample
               notebook_decodable_exact notebook_nonneg notebook_scorable).
    + change (pyval_eqb (last primer_path (PStr "Start")) (PStr "I")) with true.
      cbv iota. fold p. now rewrite (elog_pos p Hp).
    + apply all_in_Forall. vm_compute. reflexivity.
    + vm_compute. reflexivity.
    + reflexivity.
  - destruct (ln_between 256 24 p (-8245 # 200) (-8243 # 200) Hp) as [Hlo Hhi];
      try (vm_compute; first [reflexivity | discriminate]).
    unfold rounds_to. set (v := ln (Q2R p)) in *.
    replace (Q2R (-8245 # 200)) with (-8245 / 200)%R in Hlo
      by (unfold Q2R; simpl; field).
    replace (Q2R (-8243 # 200)) with (-8243 / 200)%R in Hhi
      by (unfold Q2R; simpl; field).
    lra.
Qed.

(** ** The decoder in a lawful arithmetic: backpointers and positive values *)

Section LawfulDecoder.

Context {num : Type} `{Lawful num}.
Variable m : Model num.
Hypothesis Hdec : decodable m = true.
Hypothesis Hnn : nonneg_model m = true.

Let states := hmm_states m.

Lemma zero_not_negative : not_negative (lit 0.0) = true.
Proof.
  unfold not_negative. change (gtb (lit 0.0) (lit 0.0)) with (is_positive (lit 0.0)).
  now rewrite zero_not_positive.
Qed.

Lemma get0_not_negative (d : dict num) (k : pyval) :
  nonneg_dict d = true -> not_negative (get0 d k) = true.
Proof.
  unfold get0, nonneg_dict. induction d as [|[k' v] d IH]; simpl.
  - intros _. apply zero_not_negative.
  - intros Hd. apply andb_prop in Hd. destruct Hd as [Hv Hd].
    destruct (pyval_eqb k k'); [exact Hv | exact (IH Hd)].
Qed.

Lemma row_of_not_negative (d : dict (dict num)) (k : pyval) :
  forallb (fun kr => nonneg_dict (snd kr)) d = true ->
  nonneg_dict (row_of d k) = true.
Proof.
  unfold row_of. induction d as [|[k' r] d IH]; simpl.
  - reflexivity.
  - intros Hd. apply andb_prop in Hd. destruct Hd as [Hr Hd].
    destruct (pyval_eqb k k'); [exact Hr | exact (IH Hd)].
Qed.

Lemma start_not_negative (s : pyval) : not_negative (start_of m s) = true.
Proof.
  unfold nonneg_model in Hnn. apply andb_prop in Hnn. destruct Hnn as [Hnn' _].
  apply andb_prop in Hnn'. apply get0_not_negative. tauto.
Qed.

Lemma trans_not_negative (a b : pyval) : not_negative (trans_of m a b) = true.
Proof.
  unfold nonneg_model in Hnn. apply andb_prop in Hnn. destruct Hnn as [Hnn' _].
  apply andb_prop in Hnn'. apply get0_not_negative, row_of_not_negative. tauto.
Qed.

Lemma emit_not_negative (s b : pyval) : not_negative (emit_of m s b) = true.
Proof.
  unfold nonneg_model in Hnn. apply andb_prop in Hnn.
  apply get0_not_negative, row_of_not_negative. tauto.
Qed.

Lemma first_row_not_negative (b s : pyval) :
  not_negative (first_row m b s) = true.
Proof.
  apply mul_not_negative; [apply start_not_negative | apply emit_not_negative].
Qed.

Lemma pick_picked V c b (l : list pyval) :
  forall best,
  incl l states -> picked m V c b best ->
  picked m V c b (fold_left (pick m V c b) l best).
Proof.
  induction l as [|x l IH]; intros best Hl Hbest; simpl; [exact Hbest|].
  apply IH; [intros y Hy; apply Hl; right; exact Hy|].
  unfold pick. destruct (gtb (candidate m V c b x) (fst best)) eqn:Hgt;
    [|exact Hbest].
  right. simpl. split; [apply Hl; left; reflexivity|]. split; [reflexivity|].
  destruct Hbest as [->|(_ & _ & Hpos)].
  - exact Hgt.
  - exact (greater_than_positive _ _ Hpos Hgt).
Qed.

Lemma best_of_picked V c b : picked m V c b (best_of m V c b).
Proof.
  unfold best_of. apply pick_picked; [apply incl_refl | left; reflexivity].
Qed.

Lemma next_row_not_negative V b c : not_negative (next_row m V b c) = true.
Proof.
  unfold next_row. destruct (best_of_picked V c b) as [->|(_ & _ & Hpos)].
  - apply zero_not_negative.
  - now apply positive_not_negative.
Qed.

(** A positive value has a backpointer to a positive value, through a
    positive transition and a positive emission. *)
Lemma positive_step V b c :
  (forall s, not_negative (V s) = true) ->
  is_positive (next_row m V b c) = true ->
  In (back_row m V b c) states
  /\ next_row m V b c
     = mul (mul (V (back_row m V b c)) (trans_of m (back_row m V b c) c))
           (emit_of m c b)
  /\ is_positive (V (back_row m V b c)) = true
  /\ is_positive (trans_of m (back_row m V b c) c) = true
  /\ is_positive (emit_of m c b) = true.
Proof.
  intros HV Hpos. unfold next_row, back_row in *.
  destruct (best_of_picked V c b) as [Heq|(Hin & Hval & _)].
  - rewrite Heq in Hpos. simpl in Hpos. now rewrite zero_not_positive in Hpos.
  - split; [exact Hin|]. split; [exact Hval|].
    rewrite Hval in Hpos. unfold candidate in Hpos.
    destruct (mul_positive _ _ Hpos) as [Hx He].
    + apply mul_not_negative; [apply HV | apply trans_not_negative].
    + apply emit_not_negative.
    + destruct (mul_positive _ _ Hx (HV _) (trans_not_negative _ _))
        as [Hv Ht].
      tauto.
Qed.

(** A value that is not positive has no backpointer. *)
Lemma not_positive_step V b c :
  is_positive (next_row m V b c) = false -> back_row m V b c = PNone.
Proof.
  unfold next_row, back_row.
  destruct (best_of_picked V c b) as [->|(_ & _ & Hpos)];
    [reflexivity | congruence].
Qed.

(** From a positive value in the last row the backpointers lead to a path
    of states whose product is that value and whose factors are positive. *)
Lemma walk_back_positive (bs : list pyval) :
  forall V final,
  (forall s, not_negative (V s) = true) ->
  In final states ->
  is_positive (last (rows_from m V bs) V final) = true ->
  exists c0 path,
    walk_back m (backs_from m V bs) final = Ok (c0, c0 :: path)
    /\ In c0 states
    /\ Forall (fun s => In s states) path
    /\ List.length path = List.length bs
    /\ is_positive (V c0) = true
    /\ joint_from m (V c0) c0 path bs = last (rows_from m V bs) V final
    /\ last path c0 = final
    /\ Forall (fun x => is_positive x = true) (factors m c0 path bs).
Proof.
  induction bs as [|b bs IH]; intros V final HV Hfin Hpos.
  - exists final, []. simpl in *. repeat split; auto.
  - simpl rows_from in *. rewrite last_cons_default in *.
    destruct (IH (next_row m V b) final (next_row_not_negative V b) Hfin Hpos)
      as (c1 & path1 & Hwalk & Hc1 & Hpath1 & Hlen & Hpos1 & Hjoint & Hlast & Hfac).
    destruct (positive_step V b c1 HV Hpos1) as (Hc0 & Hval & Hv & Ht & He).
    exists (back_row m V b c1), (c1 :: path1).
    simpl backs_from. simpl walk_back. rewrite Hwalk. cbn [bind].
    unfold as_dict at 1. rewrite (dict_get_map (back_row m V b) _ _ Hc1).
    cbn [bind]. repeat split.
    + exact Hc0.
    + constructor; assumption.
    + simpl. now rewrite Hlen.
    + exact Hv.
    + simpl joint_from. rewrite <- Hval. exact Hjoint.
    + rewrite last_cons_default. exact Hlast.
    + simpl factors. repeat constructor; assumption.
Qed.

Hypothesis Hstr : states_are_strings m = true.

Lemma None_not_state : ~ In PNone states.
Proof.
  intros Hin. unfold states_are_strings in Hstr.
  rewrite forallb_forall in Hstr. specialize (Hstr PNone Hin). discriminate.
Qed.

(** From a value that is not positive the traceback gets [None], and
    fails on its next lookup if there is one. *)
Lemma in_dec_states (s : pyval) : {In s states} + {~ In s states}.
Proof.
  apply in_dec. intros a b.
  destruct (pyval_eqb_spec a b); [left | right]; assumption.
Qed.

Lemma walk_back_not_positive (bs : list pyval) :
  forall V final c path,
  bs <> [] ->
  is_positive (last (rows_from m V bs) V final) = false ->
  walk_back m (backs_from m V bs) final = Ok (c, path) ->
  exists b, bs = [b] /\ c = PNone /\ path = [PNone; final].
Proof.
  induction bs as [|b bs IH]; intros V final c path Hne Hpos Hwalk;
    [congruence|].
  simpl rows_from in Hpos. rewrite last_cons_default in Hpos.
  simpl in Hwalk. destruct bs as [|b' bs].
  - simpl in *. unfold as_dict in Hwalk.
    destruct (in_dec_states final) as [Hin|Hout].
    + rewrite (dict_get_map (back_row m V b) _ _ Hin) in Hwalk.
      rewrite (not_positive_step V b final Hpos) in Hwalk.
      simpl in Hwalk. injection Hwalk as <- <-. eauto.
    + rewrite (dict_get_map_out (back_row m V b) _ _ Hout) in Hwalk.
      discriminate.
  - destruct (walk_back m (backs_from m (next_row m V b) (b' :: bs)) final)
      as [[c1 path1]|e] eqn:Hinner; [|discriminate].
    destruct (IH (next_row m V b) final c1 path1 ltac:(discriminate) Hpos Hinner)
      as (b1 & Hb1 & -> & _).
    cbn [bind] in Hwalk. unfold as_dict in Hwalk.
    rewrite (dict_get_map_out (back_row m V b) _ _ None_not_state) in Hwalk.
    discriminate.
Qed.

Lemma max_key_in (V : pyval -> num) (final : pyval) :
  max_key (as_dict m V) = Ok final -> In final states.
Proof.
  unfold as_dict, max_key. fold states.
  destruct states as [|s0 l]; simpl; [discriminate|].
  intros Heq. injection Heq as <-.
  assert (Hfold : forall l' best,
            fst best = s0 \/ In (fst best) l ->
            incl l' l ->
            let r := fold_left
                       (fun (best : pyval * num) (kv : pyval * num) =>
                          if gtb (snd kv) (snd best) then kv else best)
                       (map (fun s => (s, V s)) l') best in
            fst r = s0 \/ In (fst r) l).
  { induction l' as [|x l' IH]; intros best Hbest Hl'; simpl; [exact Hbest|].
    apply IH; [|intros y Hy; apply Hl'; right; exact Hy].
    destruct (gtb (V x) (snd best)); [|exact Hbest].
    simpl. right. apply Hl'. left. reflexivity. }
  destruct (Hfold l (s0, V s0) (or_introl eq_refl) (incl_refl l)) as [Hr|Hr];
    [left; now symmetry | right; exact Hr].
Qed.

(** The decoder returns a path of states with positive factors when the
    value of the final state is positive. *)
Lemma find_best_path_positive (b0 : pyval) (bs : list pyval) (final : pyval) :
  forallb (emits m) (b0 :: bs) = true ->
  max_key (as_dict m (last (rows_from m (first_row m b0) bs) (first_row m b0)))
    = Ok final ->
  is_positive (last (rows_from m (first_row m b0) bs) (first_row m b0) final)
    = true ->
  exists path,
    find_best_path m (b0 :: bs) = Ok path
    /\ List.length path = S (List.length bs)
    /\ Forall (fun s => In s states) path
    /\ last path (PStr "Start") = final
    /\ joint m path (b0 :: bs)
       = last (rows_from m (first_row m b0) bs) (first_row m b0) final
    /\ Forall (fun x => is_positive x = true) (decoder_factors m path (b0 :: bs)).
Proof.
  intros He Hmax Hpos.
  pose proof (max_key_in _ _ Hmax) as Hfin.
  destruct (walk_back_positive bs (first_row m b0) final
              (first_row_not_negative b0) Hfin Hpos)
    as (c0 & path & Hwalk & Hc0 & Hpath & Hlen & Hpos0 & Hjoint & Hlast & Hfac).
  exists (c0 :: path).
  rewrite (find_best_path_viterbi m Hdec b0 bs He). unfold viterbi.
  rewrite Hmax. cbn [bind]. rewrite Hwalk. cbn [bind].
  repeat split.
  - simpl. now rewrite Hlen.
  - constructor; assumption.
  - rewrite last_cons_default. exact Hlast.
  - exact Hjoint.
  - unfold first_row in Hpos0.
    destruct (mul_positive _ _ Hpos0 (start_not_negative c0)
                (emit_not_negative c0 b0)) as [Hs He0].
    simpl. repeat constructor; assumption.
Qed.

(** When the value of the final state is not positive, the decoder returns
    a path only on sequences of length 1 and 2. *)
Lemma find_best_path_not_positive (b0 : pyval) (bs : list pyval)
    (final : pyval) (path : list pyval) :
  forallb (emits m) (b0 :: bs) = true ->
  max_key (as_dict m (last (rows_from m (first_row m b0) bs) (first_row m b0)))
    = Ok final ->
  is_positive (last (rows_from m (first_row m b0) bs) (first_row m b0) final)
    = false ->
  find_best_path m (b0 :: bs) = Ok path ->
  (bs = [] /\ path = [final])
  \/ (exists b1, bs = [b1] /\ path = [PNone; final]).
Proof.
  intros He Hmax Hpos.
  rewrite (find_best_path_viterbi m Hdec b0 bs He). unfold viterbi.
  rewrite Hmax. cbn [bind].
  destruct bs as [|b1 bs].
  - simpl. intros Heq. injection Heq as <-. left. tauto.
  - destruct (walk_back m (backs_from m (first_row m b0) (b1 :: bs)) final)
      as [[c path']|e] eqn:Hwalk; [|discriminate].
    cbn [bind]. intros Heq. injection Heq as <-.
    destruct (walk_back_not_positive (b1 :: bs) (first_row m b0) final c path'
                ltac:(discriminate) Hpos Hwalk) as (b & Hb & _ & ->).
    right. exists b. tauto.
Qed.

End LawfulDecoder.

(** ** Both arithmetics are lawful *)

#[export] Instance exact_lawful : Lawful Q.
Proof.
  split.
  - reflexivity.
  - intros x Hx. apply not_negative_exact. apply is_positive_exact in Hx.
    now apply Qlt_le_weak.
  - intros a b Ha Hb. apply is_positive_exact. apply is_positive_exact in Ha.
    cbn [gtb exact_arith] in Hb.
    destruct (Qlt_le_dec a b) as [Hlt|]; [|discriminate].
    eapply Qlt_trans; eassumption.
  - intros x y Hxy Hx Hy. apply is_positive_exact in Hxy.
    apply not_negative_exact in Hx, Hy. cbn [mul exact_arith] in Hxy.
    rewrite !is_positive_exact.
    destruct (Qle_lt_or_eq _ _ Hx) as [Hx'|Hx'];
      [destruct (Qle_lt_or_eq _ _ Hy) as [Hy'|Hy']; [tauto|]|].
    + exfalso. rewrite <- Hy' in Hxy. rewrite Qmult_0_r in Hxy.
      exact (Qlt_irrefl 0 Hxy).
    + exfalso. rewrite <- Hx' in Hxy. rewrite Qmult_0_l in Hxy.
      exact (Qlt_irrefl 0 Hxy).
  - intros x y Hx Hy. apply not_negative_exact.
    apply not_negative_exact in Hx, Hy. now apply Qmult_le_0_compat.
Qed.

Lemma SFltb_zero_l (f : spec_float) :
  SFltb (S754_zero false) f
  = match sign_of f with SPos => true | _ => false end.
Proof. destruct f as [s|s| |s mf ef]; try destruct s; reflexivity. Qed.

Lemma SFltb_zero_r (f : spec_float) :
  SFltb f (S754_zero false)
  = match sign_of f with SNeg => true | _ => false end.
Proof. destruct f as [s|s| |s mf ef]; try destruct s; reflexivity. Qed.

Lemma SFltb_above_positive (a b : spec_float) :
  sign_of a = SPos -> SFltb a b = true -> sign_of b = SPos.
Proof.
  destruct a as [sa|sa| |sa ma ea], b as [sb|sb| |sb mb eb];
    try destruct sa; try destruct sb; simpl; try discriminate; reflexivity.
Qed.

Lemma binary_round_aux_sign (sx : bool) (mx ex : Z) (lx : location) :
  sign_of (binary_round_aux prec emax sx mx ex lx) = SNan
  \/ sign_of (binary_round_aux prec emax sx mx ex lx) = SZero
  \/ sign_of (binary_round_aux prec emax sx mx ex lx)
     = (if sx then SNeg else SPos).
Proof.
  unfold binary_round_aux.
  destruct (shr_fexp prec emax mx ex lx) as [mrs' e'].
  destruct (shr_fexp prec emax _ e' loc_Exact) as [mrs'' e''].
  destruct (shr_m mrs''); simpl; auto.
  destruct (_ <=? _)%Z; simpl; auto.
Qed.

(** The sign of a product: never positive with a zero or a NaN factor,
    never negative with two factors that are not negative. *)
Lemma SFmul_sign (x y : spec_float) :
  match sign_of x, sign_of y with
  | SPos, SPos | SNeg, SNeg => sign_of (SF64mul x y) <> SNeg
  | SPos, SNeg | SNeg, SPos => sign_of (SF64mul x y) <> SPos
  | _, _ => sign_of (SF64mul x y) = SNan \/ sign_of (SF64mul x y) = SZero
  end.
Proof.
  unfold SF64mul.
  destruct x as [sx|sx| |sx mx ex], y as [sy|sy| |sy my ey];
    try destruct sx; try destruct sy; simpl; auto; try discriminate;
    match goal with
    | |- context [binary_round_aux prec emax ?s ?mz ?e ?l] =>
        destruct (binary_round_aux_sign s mz e l) as [Hr|[Hr|Hr]];
        rewrite Hr; simpl; discriminate
    end.
Qed.

Lemma is_positive_float (x : float) :
  is_positive x = match sign_of (Prim2SF x) with SPos => true | _ => false end.
Proof.
  unfold is_positive. cbn [gtb float_arith].
  rewrite FloatAxioms.ltb_spec. apply SFltb_zero_l.
Qed.

Lemma not_negative_float (x : float) :
  not_negative x
  = match sign_of (Prim2SF x) with SNeg => false | _ => true end.
Proof.
  unfold not_negative. cbn [gtb float_arith].
  rewrite FloatAxioms.ltb_spec.
  change (Prim2SF (lit 0.0)) with (S754_zero false).
  rewrite SFltb_zero_r. destruct (sign_of (Prim2SF x)); reflexivity.
Qed.

#[export] Instance float_lawful : Lawful float.
Proof.
  split.
  - reflexivity.
  - intros x. rewrite is_positive_float, not_negative_float.
    destruct (sign_of (Prim2SF x)); congruence.
  - intros a b. rewrite !is_positive_float. cbn [gtb float_arith].
    rewrite FloatAxioms.ltb_spec. intros Ha Hb.
    rewrite (SFltb_above_positive (Prim2SF a) (Prim2SF b)); auto.
    destruct (sign_of (Prim2SF a)); congruence.
  - intros x y. rewrite !is_positive_float, !not_negative_float.
    cbn [mul float_arith]. rewrite FloatAxioms.mul_spec.
    pose proof (SFmul_sign (Prim2SF x) (Prim2SF y)) as Hs.
    destruct (sign_of (Prim2SF x)), (sign_of (Prim2SF y));
      destruct (sign_of (SF64mul (Prim2SF x) (Prim2SF y)));
      intuition congruence.
  - intros x y. rewrite !not_negative_float.
    cbn [mul float_arith]. rewrite FloatAxioms.mul_spec.
    pose proof (SFmul_sign (Prim2SF x) (Prim2SF y)) as Hs.
    destruct (sign_of (Prim2SF x)), (sign_of (Prim2SF y));
      destruct (sign_of (SF64mul (Prim2SF x) (Prim2SF y)));
      intuition congruence.
Qed.

(** ** The decoder on binary64, with the notebook's tables *)

Lemma notebook_decodable_float : decodable notebook64 = true.
Proof. vm_compute. reflexivity. Qed.

Lemma notebook_nonneg_float : nonneg_model notebook64 = true.
Proof. vm_compute. reflexivity. Qed.

Lemma notebook_strings_float :
  states_are_strings notebook64 = true.
Proof. reflexivity. Qed.

Lemma notebook_emits_float (bases : list pyval) :
  all_in (dna_bases notebook64) bases = true ->
  forallb (emits notebook64) bases = true.
Proof.
  intros Hb. apply all_in_Forall in Hb. apply forallb_forall. intros b Hin.
  rewrite Forall_forall in Hb. specialize (Hb b Hin). simpl in Hb.
  destruct Hb as [<-|[<-|[<-|[<-|[]]]]]; vm_compute; reflexivity.
Qed.

(** Whenever the decoder, run on binary64 with the notebook's tables,
    returns a path for a sequence of bases, the path has the length of the
    sequence, holds states only, and every probability multiplied along it
    is positive. *)
Lemma float_decode_sound (dna_seq path : list pyval) :
  all_in (dna_bases notebook64) dna_seq = true ->
  find_best_path notebook64 dna_seq = Ok path ->
  List.length path = List.length dna_seq
  /\ Forall (fun s => In s (hmm_states notebook64)) path
  /\ Forall (fun x => is_positive x = true)
       (decoder_factors notebook64 path dna_seq).
Proof.
  intros Hb Hfind. destruct dna_seq as [|b0 bs]; [discriminate|].
  pose proof (notebook_emits_float _ Hb) as He.
  pose proof Hfind as Hv.
  rewrite (find_best_path_viterbi _ notebook_decodable_float b0 bs He) in Hv.
  unfold viterbi in Hv.
  destruct (max_key _) as [final|e] eqn:Hmax; [|discriminate]. clear Hv.
  destruct (is_positive
              (last (rows_from notebook64 (first_row notebook64 b0) bs)
                 (first_row notebook64 b0) final)) eqn:Hpos.
  - destruct (find_best_path_positive notebook64 notebook_decodable_float
                notebook_nonneg_float b0 bs final He Hmax Hpos)
      as (path' & Hfind' & Hlen & Hin & _ & _ & Hfac).
    rewrite Hfind in Hfind'. injection Hfind' as <-. tauto.
  - exfalso.
    apply all_in_Forall in Hb. inversion Hb as [|? ? Hb0 Hbs]; subst.
    destruct (find_best_path_not_positive notebook64 notebook_decodable_float
                notebook_strings_float b0 bs final path He Hmax Hpos Hfind)
      as [[-> _]|(b1 & -> & _)].
    + simpl in Hb0. destruct Hb0 as [<-|[<-|[<-|[<-|[]]]]];
        vm_compute in Hmax; injection Hmax as <-;
        vm_compute in Hpos; discriminate.
    + inversion Hbs as [|? ? Hb1 _]; subst. simpl in Hb0, Hb1.
      destruct Hb0 as [<-|[<-|[<-|[<-|[]]]]];
        destruct Hb1 as [<-|[<-|[<-|[<-|[]]]]];
        vm_compute in Hmax; injection Hmax as <-;
        vm_compute in Hpos; discriminate.
Qed.

(** ** The decoder on exact rationals is optimal *)

Lemma gtb_exact (x y : Q) : gtb x y = true <-> y < x.
Proof.
  cbn [gtb exact_arith]. destruct (Qlt_le_dec y x) as [Hlt|Hle]; split;
    intros Hx; try discriminate; try reflexivity; [exact Hlt|].
  exfalso. apply (Qlt_irrefl y). eapply Qlt_le_trans; eassumption.
Qed.

Lemma gtb_exact_false (x y : Q) : gtb x y = false <-> x <= y.
Proof.
  cbn [gtb exact_arith]. destruct (Qlt_le_dec y x) as [Hlt|Hle]; split;
    intros Hx; try discriminate; try reflexivity; [|exact Hle].
  exfalso. apply (Qlt_irrefl y). eapply Qlt_le_trans; eassumption.
Qed.

Section ExactOptimal.

Variable m : Model Q.
Hypothesis Hdec : decodable m = true.
Hypothesis Hnn : nonneg_model m = true.

Let states := hmm_states m.

(** The innermost loop keeps a value no candidate exceeds. *)
Lemma pick_above V c b (l : list pyval) :
  forall best,
  fst best <= fst (fold_left (pick m V c b) l best)
  /\ forall p, In p l ->
       candidate m V c b p <= fst (fold_left (pick m V c b) l best).
Proof.
  induction l as [|x l IH]; intros best; simpl.
  - split; [apply Qle_refl | tauto].
  - destruct (IH (pick m V c b best x)) as [Hbest Hall].
    assert (Hstep : fst best <= fst (pick m V c b best x)
                    /\ candidate m V c b x <= fst (pick m V c b best x)).
    { unfold pick. destruct (gtb (candidate m V c b x) (fst best)) eqn:Hgt;
        simpl.
      - apply gtb_exact in Hgt. split; [now apply Qlt_le_weak | apply Qle_refl].
      - apply gtb_exact_false in Hgt. split; [apply Qle_refl | exact Hgt]. }
    split.
    + eapply Qle_trans; [apply Hstep | exact Hbest].
    + intros p [<-|Hp]; [|exact (Hall p Hp)].
      eapply Qle_trans; [apply Hstep | exact Hbest].
Qed.

Lemma candidate_below V c b p :
  In p states -> candidate m V c b p <= next_row m V b c.
Proof. intros Hp. unfold next_row, best_of. now apply pick_above. Qed.

Lemma next_row_nonneg V b c : 0 <= next_row m V b c.
Proof.
  apply not_negative_exact. apply (next_row_not_negative m).
Qed.

(** No path into a state has a larger probability than the state's value
    in the row of the path's last position. *)
Lemma rows_dominate (bs : list pyval) :
  forall V path acc c,
  (forall s, 0 <= V s) ->
  In c states -> Forall (fun s => In s states) path ->
  List.length path = List.length bs ->
  0 <= acc -> acc <= V c ->
  joint_from m acc c path bs <= last (rows_from m V bs) V (last path c).
Proof.
  induction bs as [|b bs IH]; intros V path acc c HV Hc Hpath Hlen Ha Hle.
  - destruct path; [exact Hle | discriminate].
  - destruct path as [|p path]; [discriminate|].
    inversion Hpath as [|? ? Hp Hpath']; subst.
    simpl rows_from. rewrite !last_cons_default. simpl joint_from.
    cbn [mul exact_arith].
    pose proof (trans_nonneg m Hnn c p) as Ht.
    pose proof (emit_nonneg m Hnn p b) as He.
    apply IH; try assumption.
    + intros s. apply next_row_nonneg.
    + simpl in Hlen. lia.
    + apply Qmult_le_0_compat; [now apply Qmult_le_0_compat | exact He].
    + eapply Qle_trans; [|apply (candidate_below V p b c Hc)].
      unfold candidate. cbn [mul exact_arith].
      apply Qmult_le_compat_r; [|exact He].
      apply Qmult_le_compat_r; assumption.
Qed.

(** [max] returns a state of maximal value. *)
Lemma max_key_above (V : pyval -> Q) :
  states <> [] ->
  exists final,
    max_key (as_dict m V) = Ok final
    /\ forall c, In c states -> V c <= V final.
Proof.
  unfold as_dict, max_key. fold states.
  destruct states as [|s0 l]; [congruence|]. intros _. cbn [map].
  eexists. split; [reflexivity|].
  assert (Hfold : forall l' best,
            snd best = V (fst best) ->
            let r := fold_left
                       (fun (best : pyval * Q) (kv : pyval * Q) =>
                          if gtb (snd kv) (snd best) then kv else best)
                       (map (fun s => (s, V s)) l') best in
            snd r = V (fst r) /\ snd best <= snd r
            /\ forall c, In c l' -> V c <= snd r).
  { induction l' as [|x l' IH]; intros best Hbest; cbn [map fold_left snd].
    - repeat split; [exact Hbest | apply Qle_refl | simpl; tauto].
    - destruct (gtb (V x) (snd best)) eqn:Hgt.
      + destruct (IH (x, V x) eq_refl) as (Hr & Hle & Hall).
        apply gtb_exact in Hgt. simpl in Hle.
        repeat split; [exact Hr | |].
        * eapply Qle_trans; [apply Qlt_le_weak; exact Hgt | exact Hle].
        * intros c [<-|Hc]; [exact Hle | exact (Hall c Hc)].
      + destruct (IH best Hbest) as (Hr & Hle & Hall).
        apply gtb_exact_false in Hgt.
        repeat split; [exact Hr | exact Hle |].
        intros c [<-|Hc]; [|exact (Hall c Hc)].
        eapply Qle_trans; eassumption. }
  destruct (Hfold l (s0, V s0) eq_refl) as (Hr & Hle & Hall).
  simpl in Hle. rewrite <- Hr.
  intros c [<-|Hc]; [exact Hle | exact (Hall c Hc)].
Qed.

(** When some path over the states has positive probability, the decoder
    returns a path of states of maximal probability. *)
Lemma find_best_path_optimal (b0 : pyval) (bs path0 : list pyval) :
  forallb (emits m) (b0 :: bs) = true ->
  Forall (fun s => In s states) path0 ->
  List.length path0 = S (List.length bs) ->
  0 < joint m path0 (b0 :: bs) ->
  exists best,
    find_best_path m (b0 :: bs) = Ok best
    /\ List.length best = S (List.length bs)
    /\ Forall (fun s => In s states) best
    /\ Forall (fun x => is_positive x = true) (decoder_factors m best (b0 :: bs))
    /\ forall path,
         Forall (fun s => In s states) path ->
         List.length path = S (List.length bs) ->
         joint m path (b0 :: bs) <= joint m best (b0 :: bs).
Proof.
  intros He Hpath0 Hlen0 Hpos0.
  set (V0 := first_row m b0).
  set (Vl := last (rows_from m V0 bs) V0).
  assert (HV0 : forall s, 0 <= V0 s).
  { intros s. apply not_negative_exact. apply (first_row_not_negative m Hnn). }
  assert (Hdom : forall path,
            Forall (fun s => In s states) path ->
            List.length path = S (List.length bs) ->
            joint m path (b0 :: bs) <= Vl (last path (PStr "Start"))).
  { intros [|p path] Hpath Hlen; [discriminate|].
    inversion Hpath as [|? ? Hp Hpath']; subst.
    rewrite last_cons_default. simpl joint.
    apply rows_dominate; try assumption.
    - simpl in Hlen. lia.
    - apply HV0.
    - apply Qle_refl. }
  assert (Hne : states <> []).
  { destruct path0 as [|p0 path0]; [discriminate|].
    inversion Hpath0 as [|? ? Hp0 _]; subst. intros Hnil.
    rewrite Hnil in Hp0. exact Hp0. }
  destruct (max_key_above Vl Hne) as (final & Hmax & Hall).
  assert (Hin0 : In (last path0 (PStr "Start")) states).
  { apply last_in_states; [exact Hpath0 | intros ->; discriminate]. }
  assert (Hposl : is_positive (Vl final) = true).
  { apply is_positive_exact. eapply Qlt_le_trans; [exact Hpos0|].
    eapply Qle_trans; [apply (Hdom path0 Hpath0 Hlen0) | apply Hall, Hin0]. }
  destruct (find_best_path_positive m Hdec Hnn b0 bs final He Hmax Hposl)
    as (best & Hfind & Hlen & Hin & Hlast & Hjoint & Hfac).
  exists best. repeat split; try assumption.
  intros path Hpath Hlenp. fold V0 in Hjoint. fold Vl in Hjoint.
  rewrite Hjoint.
  eapply Qle_trans; [apply (Hdom path Hpath Hlenp)|].
  apply Hall. apply last_in_states; [exact Hpath | intros ->; discriminate].
Qed.

End ExactOptimal.

(** ** The decoder's probability and the scorer's sum *)

Lemma joint_from_Qeq (m : Model Q) (path bases : list pyval) :
  forall a a' prev,
  a == a' -> joint_from m a prev path bases == joint_from m a' prev path bases.
Proof.
  revert bases. induction path as [|p path IH]; intros bases a a' prev Ha;
    simpl; [exact Ha|].
  destruct bases as [|b bases]; [exact Ha|].
  apply IH. cbn [mul exact_arith]. now rewrite Ha.
Qed.

Section DecoderAndScorer.

Variable m : Model Q.
Hypothesis Hdec : decodable m = true.
Hypothesis Hnn : nonneg_model m = true.
Hypothesis Hsc : scorable m = true.

Let states := hmm_states m.

(** The scorer's sum over the positions is the logarithm of the
    probability the decoder maximises. *)
Lemma sum_terms_log_joint (path bases : list pyval) :
  Forall (fun s => In s states) path ->
  path <> [] -> List.length path = List.length bases ->
  sum_terms m (PStr "Start") path bases = elog (joint m path bases).
Proof.
  intros Hpath Hne Hlen.
  destruct path as [|p path]; [congruence|].
  destruct bases as [|b bases]; [discriminate|].
  inversion Hpath as [|? ? Hp _]; subst.
  rewrite <- (ladd_0_l (sum_terms _ _ _ _)), <- elog_1.
  rewrite (sum_terms_joint m (p :: path) (b :: bases) Hnn 1 (PStr "Start"))
    by discriminate.
  apply elog_eq. simpl. apply joint_from_Qeq.
  destruct (scorable_state m Hsc p Hp) as (_ & Heq & _).
  cbn [mul exact_arith]. rewrite Heq. ring.
Qed.

Lemma joint_nonneg (path bases : list pyval) : 0 <= joint m path bases.
Proof.
  unfold joint. destruct path as [|p path]; [discriminate|].
  destruct bases as [|b bases]; [discriminate|].
  apply joint_from_nonneg; [exact Hnn|]. cbn [mul exact_arith].
  apply Qmult_le_0_compat; [apply start_nonneg | apply emit_nonneg]; exact Hnn.
Qed.

(** Adding the log of a probability at most 1 does not increase a
    log-probability. *)
Lemma ladd_elog_le (a : logprob) (t : Q) :
  0 <= t -> t <= 1 -> lle (ladd a (elog t)) a.
Proof.
  intros Ht0 Ht1. pose proof (elog_mono t 1 Ht0 Ht1) as Hle.
  rewrite elog_1 in Hle.
  destruct a as [|x], (elog t) as [|y]; simpl in *; try exact I. lra.
Qed.

(** The score of a path is at most its sum over the positions. *)
Lemma score_below_sum (path bases : list pyval) :
  trans_of m (PStr "I") (PStr "End") <= 1 ->
  Forall (fun s => In s states) path ->
  forallb (emits m) bases = true ->
  List.length path = List.length bases ->
  exists v,
    calc_path_probability m path bases = Ok v
    /\ lle v (sum_terms m (PStr "Start") path bases).
Proof.
  intros Hend Hpath He Hlen. eexists. split.
  - apply (calc_path_probability_sum m Hdec Hnn Hsc path bases Hpath He Hlen).
  - destruct (pyval_eqb _ _); [|apply lle_refl].
    apply ladd_elog_le; [apply trans_nonneg, Hnn | exact Hend].
Qed.

End DecoderAndScorer.

(** ** The decoder on exact rationals, with the notebook's tables *)

Lemma all_E_positive (bs : list pyval) :
  forall acc,
  Forall (fun b => In b (dna_bases notebookQ)) bs ->
  0 < acc ->
  0 < joint_from notebookQ acc (PStr "E")
        (repeat (PStr "E") (List.length bs)) bs.
Proof.
  induction bs as [|b bs IH]; intros acc Hb Hacc; [exact Hacc|].
  inversion Hb as [|? ? Hb0 Hbs]; subst. simpl.
  apply IH; [exact Hbs|]. cbn [mul exact_arith].
  assert (Ht : 0 < trans_of notebookQ (PStr "E") (PStr "E"))
    by (vm_compute; reflexivity).
  assert (He : 0 < emit_of notebookQ (PStr "E") b).
  { simpl in Hb0. destruct Hb0 as [<-|[<-|[<-|[<-|[]]]]];
      vm_compute; reflexivity. }
  apply Qmult_lt_0_compat; [apply Qmult_lt_0_compat|]; assumption.
Qed.

(** In exact arithmetic the decoder returns a path of states for every
    non-empty sequence of bases. *)
Lemma exact_decode_total (dna_seq : list pyval) :
  all_in (dna_bases notebookQ) dna_seq = true ->
  dna_seq <> [] ->
  exists path,
    find_best_path notebookQ dna_seq = Ok path
    /\ List.length path = List.length dna_seq
    /\ Forall (fun s => In s (hmm_states notebookQ)) path.
Proof.
  intros Hb Hne. destruct dna_seq as [|b0 bs]; [congruence|].
  pose proof (all_in_Forall _ _ Hb) as HF.
  inversion HF as [|? ? Hb0 Hbs]; subst.
  destruct (find_best_path_optimal notebookQ notebook_decodable_exact
              notebook_nonneg b0 bs (repeat (PStr "E") (S (List.length bs))))
    as (best & Hfind & Hlen & Hin & _).
  - apply notebook_emits, HF.
  - apply Forall_forall. intros s Hs. apply repeat_spec in Hs. subst.
    left. reflexivity.
  - apply repeat_length.
  - simpl. apply all_E_positive; [exact Hbs|]. cbn [mul exact_arith].
    simpl in Hb0. destruct Hb0 as [<-|[<-|[<-|[<-|[]]]]];
      vm_compute; reflexivity.
  - exists best. tauto.
Qed.

(** ** The decoder against the scorer *)

(** In exact arithmetic, on complete tables whose
    transition from "I" to "End" is at most 1, and for a sequence some path
    of states explains with positive probability: the decoder returns a
    path of states of the length of the sequence whose sum over the
    positions of log transition plus log emission (the score without the
    "End" term) is at least that of every path of states of that length;
    and when the returned path does not end on "I" its score is at least
    the score of every such path. *)
Theorem decode_maximises_positional_sum (m : Model Q)
    (dna_seq path0 : list pyval) :
  decodable m = true -> nonneg_model m = true -> scorable m = true ->
  trans_of m (PStr "I") (PStr "End") <= 1 ->
  forallb (emits m) dna_seq = true ->
  Forall (fun s => In s (hmm_states m)) path0 ->
  List.length path0 = List.length dna_seq ->
  (1 <= List.length dna_seq)%nat ->
  0 < joint m path0 dna_seq ->
  exists best,
    find_best_path m dna_seq = Ok best
    /\ List.length best = List.length dna_seq
    /\ Forall (fun s => In s (hmm_states m)) best
    /\ forall path,
         Forall (fun s => In s (hmm_states m)) path ->
         List.length path = List.length dna_seq ->
         lle (sum_terms m (PStr "Start") path dna_seq)
             (sum_terms m (PStr "Start") best dna_seq)
         /\ (last best (PStr "Start") <> PStr "I" ->
             exists v v',
               calc_path_probability m best dna_seq = Ok v
               /\ calc_path_probability m path dna_seq = Ok v'
               /\ lle v' v).
Proof.
  intros Hdec Hnn Hsc Hend He Hpath0 Hlen0 Hlen Hpos.
  destruct dna_seq as [|b0 bs]; [simpl in Hlen; lia|].
  destruct (find_best_path_optimal m Hdec Hnn b0 bs path0 He Hpath0 Hlen0 Hpos)
    as (best & Hfind & Hlenb & Hin & _ & Hopt).
  exists best. repeat split; try assumption.
  - rewrite !(sum_terms_log_joint m Hnn Hsc); try assumption.
    + apply elog_mono; [apply joint_nonneg, Hnn | now apply Hopt].
    + intros ->. discriminate.
    + intros ->. discriminate.
  - intros Hlast.
    destruct (score_below_sum m Hdec Hnn Hsc path (b0 :: bs) Hend H He H0)
      as (v' & Hv' & Hle).
    exists (sum_terms m (PStr "Start") best (b0 :: bs)), v'.
    repeat split; [|exact Hv'|].
    + rewrite (calc_path_probability_sum m Hdec Hnn Hsc best (b0 :: bs) Hin He Hlenb).
      destruct (pyval_eqb_spec (last best (PStr "Start")) (PStr "I"));
        [contradiction | reflexivity].
    + eapply lle_trans; [exact Hle|].
      rewrite !(sum_terms_log_joint m Hnn Hsc); try assumption.
      * apply elog_mono; [apply joint_nonneg, Hnn | now apply Hopt].
      * intros ->. discriminate.
      * intros ->. discriminate.
Qed.

Lemma decode_maximises_positional_sum_witness :
  exists best,
    find_best_path notebookQ (chars "AGAA") = Ok best
    /\ List.length best = 4%nat
    /\ Forall (fun s => In s (hmm_states notebookQ)) best
    /\ forall path,
         Forall (fun s => In s (hmm_states notebookQ)) path ->
         List.length path = 4%nat ->
         lle (sum_terms notebookQ (PStr "Start") path (chars "AGAA"))
             (sum_terms notebookQ (PStr "Start") best (chars "AGAA"))
         /\ (last best (PStr "Start") <> PStr "I" ->
             exists v v',
               calc_path_probability notebookQ best (chars "AGAA") = Ok v
               /\ calc_path_probability notebookQ path (chars "AGAA") = Ok v'
               /\ lle v' v).
Proof.
  apply (decode_maximises_positional_sum notebookQ (chars "AGAA") (chars "EEEE"));
    try (vm_compute; first [reflexivity | discriminate]).
  - apply all_in_Forall. vm_compute. reflexivity.
  - simpl. lia.
Defined.

(** C1, as stated, fails: with the notebook's tables and the sequence
    "AGAA" the decoder returns E, 5, I, I (on binary64 and on exact
    rationals alike), whose score, with its "End" term, is below the score
    of the path E, E, E, E. *)
Lemma decoded_path_not_score_optimal :
  exists v v' : R,
    find_best_path notebook64 (chars "AGAA") = Ok (chars "E5II")
    /\ find_best_path notebookQ (chars "AGAA") = Ok (chars "E5II")
    /\ calc_path_probability notebookQ (chars "E5II") (chars "AGAA")
       = Ok (Finite v)
    /\ calc_path_probability notebookQ (chars "EEEE") (chars "AGAA")
       = Ok (Finite v')
    /\ (v < v')%R.
Proof.
  set (p := joint_from notebookQ 1 (PStr "Start") (chars "E5II") (chars "AGAA")
            * trans_of notebookQ (PStr "I") (PStr "End")).
  set (p' := joint_from notebookQ 1 (PStr "Start") (chars "EEEE") (chars "AGAA")).
  assert (Hp : 0 < p) by (vm_compute; reflexivity).
  assert (Hp' : 0 < p') by (vm_compute; reflexivity).
  assert (Hlt : p < p') by (vm_compute; reflexivity).
  exists (ln (Q2R p)), (ln (Q2R p')).
  split; [vm_compute; reflexivity|]. split; [vm_compute; reflexivity|].
  split; [|split].
  - rewrite (calc_path_probability_product notebookQ (chars "E5II") (chars "AGAA")
               notebook_decodable_exact notebook_nonneg notebook_scorable).
    + change (pyval_eqb (last (chars "E5II") (PStr "Start")) (PStr "I")) with true.
      cbv iota. fold p. now rewrite (elog_pos p Hp).
    + apply all_in_Forall. vm_compute. reflexivity.
    + vm_compute. reflexivity.
    + reflexivity.
  - rewrite (calc_path_probability_product notebookQ (chars "EEEE") (chars "AGAA")
               notebook_decodable_exact notebook_nonneg notebook_scorable).
    + change (pyval_eqb (last (chars "EEEE") (PStr "Start")) (PStr "I")) with false.
      cbv iota. fold p'. now rewrite (elog_pos p' Hp').
    + apply all_in_Forall. vm_compute. reflexivity.
    + vm_compute. reflexivity.
    + reflexivity.
  - apply ln_increasing; [now apply Q2R_pos | now apply Qlt_Rlt].
Qed.

(** C2, at a sequence the code fails on: 600 times "C".  On binary64 the
    products underflow to 0.0, no backpointer is recorded and the
    traceback raises [KeyError: None]; in exact arithmetic the decoder
    returns the 600 states the specification promises. *)
Theorem decode_underflows :
  find_best_path notebook64 (repeat (PStr "C") 600) = Raise (KeyError PNone)
  /\ find_best_path notebookQ (repeat (PStr "C") 600)
     = Ok (repeat (PStr "E") 600).
Proof. split; vm_compute; reflexivity. Qed.

(** C7.  (1) On complete tables, when a probability the scorer looks up
    along a path is 0, the score of the path is [-inf].  (2) In exact
    arithmetic, when some path of states has positive probability, the
    decoder returns a path along which every start, transition and emission
    probability is positive.  (3) On binary64 with the notebook's tables,
    every path the decoder returns for a sequence of bases has only
    positive probabilities along it. *)
Theorem zero_probability_paths :
  (forall (m : Model Q) (path bases : list pyval) (q : Q),
     decodable m = true -> nonneg_model m = true -> scorable m = true ->
     Forall (fun s => In s (hmm_states m)) path ->
     forallb (emits m) bases = true ->
     List.length path = List.length bases ->
     In q (factors m (PStr "Start") path bases ++ end_factors m path) ->
     q == 0 ->
     calc_path_probability m path bases = Ok NegInf)
  /\ (forall (m : Model Q) (dna_seq path0 : list pyval),
        decodable m = true -> nonneg_model m = true ->
        forallb (emits m) dna_seq = true ->
        Forall (fun s => In s (hmm_states m)) path0 ->
        List.length path0 = List.length dna_seq ->
        (1 <= List.length dna_seq)%nat ->
        0 < joint m path0 dna_seq ->
        exists best,
          find_best_path m dna_seq = Ok best
          /\ Forall (fun x => 0 < x) (decoder_factors m best dna_seq))
  /\ (forall dna_seq path : list pyval,
        all_in (dna_bases notebook64) dna_seq = true ->
        find_best_path notebook64 dna_seq = Ok path ->
        Forall (fun x => is_positive x = true)
          (decoder_factors notebook64 path dna_seq)).
Proof.
  split; [|split].
  - intros m path bases q Hdec Hnn Hsc Hpath He Hlen Hin Hq.
    rewrite (calc_path_probability_sum m Hdec Hnn Hsc path bases Hpath He Hlen).
    apply in_app_or in Hin. destruct Hin as [Hin|Hin].
    + rewrite (sum_terms_zero_factor m path bases _ q Hin Hq).
      now destruct (pyval_eqb _ _).
    + unfold end_factors in Hin.
      destruct (pyval_eqb _ _); [|destruct Hin].
      destruct Hin as [<-|[]]. rewrite (elog_zero _ Hq).
      now rewrite ladd_NegInf_r.
  - intros m dna_seq path0 Hdec Hnn He Hpath0 Hlen0 Hlen Hpos.
    destruct dna_seq as [|b0 bs]; [simpl in Hlen; lia|].
    destruct (find_best_path_optimal m Hdec Hnn b0 bs path0 He Hpath0 Hlen0 Hpos)
      as (best & Hfind & _ & _ & Hfac & _).
    exists best. split; [exact Hfind|].
    eapply Forall_impl; [|exact Hfac]. intros x. apply is_positive_exact.
  - intros dna_seq path Hb Hfind.
    apply (float_decode_sound dna_seq path Hb Hfind).
Qed.

Lemma zero_probability_paths_witness :
  calc_path_probability notebookQ (chars "EI") (chars "AA") = Ok NegInf
  /\ (exists best,
        find_best_path notebookQ (chars "AGAA") = Ok best
        /\ Forall (fun x => 0 < x) (decoder_factors notebookQ best (chars "AGAA")))
  /\ Forall (fun x => is_positive x = true)
       (decoder_factors notebook64 (repeat (PStr "E") 26) sample).
Proof.
  split; [|split].
  - apply (proj1 zero_probability_paths notebookQ (chars "EI") (chars "AA") 0.0);
      try (vm_compute; reflexivity).
    + apply all_in_Forall. vm_compute. reflexivity.
    + right. right. left. reflexivity.
  - apply (proj1 (proj2 zero_probability_paths) notebookQ (chars "AGAA")
             (chars "EEEE"));
      try (vm_compute; first [reflexivity | discriminate]).
    + apply all_in_Forall. vm_compute. reflexivity.
    + simpl. lia.
  - apply (proj2 (proj2 zero_probability_paths) sample (repeat (PStr "E") 26));
      vm_compute; reflexivity.
Defined.

(** ** The FASTA converter: what is written *)

Lemma written_from_fold (fasta_content : list text) :
  forall current_seq written,
  (let '(current_seq', written') :=
     fold_left fasta_step fasta_content (current_seq, written) in
   if truthy current_seq' then written' ++ [current_seq' ++ newline]
   else written')
  = written ++ written_from current_seq fasta_content.
Proof.
  induction fasta_content as [|l ls IH]; intros cur out; simpl.
  - destruct cur; simpl; [now rewrite app_nil_r | reflexivity].
  - destruct (is_header (strip l)).
    + destruct cur; unfold flush; simpl; rewrite IH, <- app_assoc; reflexivity.
    + apply IH.
Qed.

Lemma single_line_fasta_written (fasta_content : list text) :
  single_line_fasta fasta_content = written_from [] fasta_content.
Proof. unfold single_line_fasta. exact (written_from_fold fasta_content [] []). Qed.

(** *** [strip] *)

Lemma lstrip_app (a b : text) :
  lstrip (a ++ b)
  = match lstrip a with [] => lstrip b | _ :: _ => lstrip a ++ b end.
Proof.
  induction a as [|c a IH]; simpl; [reflexivity|].
  destruct (is_space c); [exact IH | reflexivity].
Qed.

Lemma lstrip_head (s : text) (c : N) (r : text) :
  lstrip s = c :: r -> is_space c = false.
Proof.
  induction s as [|d s IH]; simpl; [discriminate|].
  destruct (is_space d) eqn:Hd; [exact IH|].
  intros Heq. injection Heq as <- _. exact Hd.
Qed.

Lemma lstrip_idem (s : text) : lstrip (lstrip s) = lstrip s.
Proof.
  induction s as [|c s IH]; simpl; [reflexivity|].
  destruct (is_space c) eqn:Hc; [exact IH|]. simpl. now rewrite Hc.
Qed.

Lemma lstrip_suffix (s : text) : exists pre, s = pre ++ lstrip s.
Proof.
  induction s as [|c s [pre IH]]; simpl; [exists []; reflexivity|].
  destruct (is_space c); [|exists []; reflexivity].
  exists (c :: pre). simpl. now rewrite <- IH.
Qed.

Lemma rstrip_prefix (s : text) : exists suf, s = rstrip s ++ suf.
Proof.
  unfold rstrip. destruct (lstrip_suffix (rev s)) as [pre Hpre].
  exists (rev pre). rewrite <- rev_app_distr, <- Hpre. now rewrite rev_involutive.
Qed.

Lemma rstrip_idem (s : text) : rstrip (rstrip s) = rstrip s.
Proof. unfold rstrip. now rewrite rev_involutive, lstrip_idem. Qed.

Lemma rstrip_app (a b : text) :
  rstrip (a ++ b)
  = match rstrip b with [] => rstrip a | _ :: _ => a ++ rstrip b end.
Proof.
  unfold rstrip. rewrite rev_app_distr, lstrip_app.
  destruct (lstrip (rev b)) as [|c r] eqn:Hb; [reflexivity|].
  rewrite rev_app_distr, rev_involutive.
  destruct (rev (c :: r)) eqn:Hr; [|reflexivity].
  apply (f_equal (@List.length N)) in Hr. rewrite length_rev in Hr.
  discriminate.
Qed.

Lemma strip_trimmed (s : text) : trimmed (strip s).
Proof.
  unfold trimmed, strip. split; [|apply rstrip_idem].
  destruct (rstrip_prefix (lstrip s)) as [suf Hsuf].
  destruct (rstrip (lstrip s)) as [|c r] eqn:Hr; [reflexivity|].
  assert (Hc : is_space c = false).
  { apply (lstrip_head (lstrip s) c (r ++ suf)). rewrite lstrip_idem. exact Hsuf. }
  simpl. now rewrite Hc.
Qed.

Lemma trimmed_nil : trimmed [].
Proof. split; reflexivity. Qed.

Lemma trimmed_app (a b : text) : trimmed a -> trimmed b -> trimmed (a ++ b).
Proof.
  intros [Hla Hra] [Hlb Hrb]. split.
  - rewrite lstrip_app, Hla. destruct a; [exact Hlb | reflexivity].
  - rewrite rstrip_app, Hrb. destruct b; [|reflexivity].
    now rewrite app_nil_r.
Qed.

Lemma strip_of_trimmed (s : text) : trimmed s -> strip s = s.
Proof. intros [Hl Hr]. unfold strip. now rewrite Hl. Qed.

(** A final white space does not change what [strip] returns. *)
Lemma strip_final_space (s : text) (c : N) :
  is_space c = true -> strip (s ++ [c]) = strip s.
Proof.
  intros Hc. unfold strip. rewrite lstrip_app.
  destruct (lstrip s) as [|d r] eqn:Hs.
  - simpl. now rewrite Hc.
  - rewrite rstrip_app. unfold rstrip at 1. simpl. now rewrite Hc.
Qed.

Lemma strip_line (x : text) : trimmed x -> strip (x ++ newline) = x.
Proof.
  intros Hx. unfold newline. rewrite strip_final_space by reflexivity.
  now apply strip_of_trimmed.
Qed.

Lemma strip_incl (s : text) (c : N) : In c (strip s) -> In c s.
Proof.
  intros Hin. unfold strip in Hin.
  destruct (rstrip_prefix (lstrip s)) as [suf Hsuf].
  destruct (lstrip_suffix s) as [pre Hpre].
  rewrite Hpre, Hsuf. apply in_or_app. right. apply in_or_app. left. exact Hin.
Qed.

Lemma is_header_app (a b : text) :
  is_header (a ++ b) = if truthy a then is_header a else is_header b.
Proof. destruct a; reflexivity. Qed.

Lemma is_header_truthy (s : text) : is_header s = true -> s <> [].
Proof. destruct s; [discriminate | discriminate]. Qed.

Lemma is_header_line (x : text) :
  x <> [] -> is_header (x ++ newline) = is_header x.
Proof. destruct x; [congruence | reflexivity]. Qed.

(** *** The written lines *)

Lemma written_from_lines (fasta_content : list text) :
  forall current_seq,
  trimmed current_seq ->
  Forall written_line (written_from current_seq fasta_content).
Proof.
  assert (Hflush : forall cur, trimmed cur -> Forall written_line (flush cur)).
  { intros [|c cur] Hcur; unfold flush; simpl; constructor; [|constructor].
    exists (c :: cur). repeat split; [discriminate | apply Hcur | apply Hcur]. }
  induction fasta_content as [|l ls IH]; intros cur Hcur; simpl.
  - now apply Hflush.
  - destruct (is_header (strip l)) eqn:Hh.
    + apply Forall_app. split.
      * now apply Hflush.
      * constructor; [|apply IH, trimmed_nil].
        exists (strip l). repeat split; try apply strip_trimmed.
        now apply is_header_truthy.
    + apply IH. apply trimmed_app; [exact Hcur | apply strip_trimmed].
Qed.

Lemma flush_nil : flush [] = [].
Proof. reflexivity. Qed.

Lemma flush_truthy (s : text) : s <> [] -> flush s = [s ++ newline].
Proof. destruct s; [congruence | reflexivity]. Qed.

(** The sequence lines up to the next header are joined. *)
Lemma written_from_sequence_lines (seq_lines rest : list text) :
  forall current_seq,
  Forall (fun l => is_header (strip l) = false) seq_lines ->
  written_from current_seq (seq_lines ++ rest)
  = written_from (current_seq ++ joined seq_lines) rest.
Proof.
  induction seq_lines as [|l ls IH]; intros cur Hs; simpl.
  - unfold joined. simpl. now rewrite app_nil_r.
  - inversion Hs as [|? ? Hl Hls]; subst. rewrite Hl, (IH _ Hls).
    unfold joined. simpl. now rewrite app_assoc.
Qed.

Lemma written_from_header (l : text) (rest : list text) (current_seq : text) :
  is_header (strip l) = true ->
  written_from current_seq (l :: rest)
  = flush current_seq ++ (strip l ++ newline) :: written_from [] rest.
Proof. intros Hl. simpl. now rewrite Hl. Qed.

Lemma written_from_records (records : list (text * list text)) :
  forall current_seq,
  Forall (fun r => is_header (strip (fst r)) = true
                   /\ Forall (fun l => is_header (strip l) = false) (snd r))
    records ->
  written_from current_seq (flat_map record_lines records)
  = flush current_seq ++ flat_map record_output records.
Proof.
  induction records as [|[h ls] rs IH]; intros cur Hrs.
  - simpl. now rewrite app_nil_r.
  - inversion Hrs as [|? ? [Hh Hls] Hrs']; subst. simpl in Hh, Hls.
    change (flat_map record_lines ((h, ls) :: rs))
      with (h :: ls ++ flat_map record_lines rs).
    rewrite (written_from_header h _ cur Hh).
    rewrite (written_from_sequence_lines ls _ [] Hls).
    change ([] ++ joined ls) with (joined ls).
    rewrite (IH (joined ls) Hrs'). reflexivity.
Qed.

Lemma alternates_cons (a b : text) (out : list text) :
  alternates (a :: b :: out)
  = (is_header a || is_header b) && alternates (b :: out).
Proof. reflexivity. Qed.

Lemma alternates_headed (a : text) (out : list text) :
  headed out -> alternates out = true -> alternates (a :: out) = true.
Proof.
  destruct out as [|b out]; [reflexivity|]. intros Hb Ho.
  rewrite alternates_cons. simpl in Hb. rewrite Hb, orb_true_r. exact Ho.
Qed.

Lemma alternates_header (a : text) (out : list text) :
  is_header a = true -> alternates out = true -> alternates (a :: out) = true.
Proof.
  destruct out as [|b out]; [reflexivity|]. intros Ha Ho.
  rewrite alternates_cons, Ha. exact Ho.
Qed.

Lemma written_from_structure (fasta_content : list text) :
  forall current_seq,
  exists s out,
    written_from current_seq fasta_content = flush s ++ out
    /\ (current_seq <> [] -> s <> [])
    /\ headed out /\ alternates out = true.
Proof.
  induction fasta_content as [|l ls IH]; intros cur.
  - exists cur, []. simpl. rewrite app_nil_r. repeat split; auto.
  - simpl. destruct (is_header (strip l)) eqn:Hh.
    + destruct (IH []) as (s & out & Heq & _ & Hhead & Halt).
      exists cur, ((strip l ++ newline) :: flush s ++ out).
      assert (Hline : is_header (strip l ++ newline) = true).
      { rewrite is_header_line; [exact Hh | now apply is_header_truthy]. }
      rewrite Heq. repeat split; auto.
      apply alternates_header; [exact Hline|].
      destruct s as [|c s]; [exact Halt|].
      now apply alternates_headed.
    + destruct (IH (cur ++ strip l)) as (s & out & Heq & Hne & Hhead & Halt).
      exists s, out. repeat split; auto.
      intros Hcur. apply Hne. destruct cur; [congruence | discriminate].
Qed.

Lemma written_from_alternates (fasta_content : list text) (current_seq : text) :
  alternates (written_from current_seq fasta_content) = true.
Proof.
  destruct (written_from_structure fasta_content current_seq)
    as (s & out & -> & _ & Hhead & Halt).
  destruct s as [|c s]; [exact Halt|]. now apply alternates_headed.
Qed.

Lemma alternates_neighbours (out : list text) :
  alternates out = true ->
  forall pre a b post,
  out = pre ++ a :: b :: post -> is_header a = true \/ is_header b = true.
Proof.
  intros Halt pre. revert out Halt.
  induction pre as [|p pre IH]; intros out Halt a b post ->.
  - simpl app in Halt. rewrite alternates_cons in Halt.
    apply andb_prop in Halt. destruct Halt as [Hab _].
    now apply orb_prop.
  - apply (IH (pre ++ a :: b :: post)) with (post := post); [|reflexivity].
    simpl app in Halt. destruct (pre ++ a :: b :: post) eqn:Heq.
    + destruct pre; discriminate.
    + rewrite alternates_cons in Halt. apply andb_prop in Halt. tauto.
Qed.

(** A flushed sequence is not a header when [current_seq] is not. *)
Lemma filter_flush (current_seq : text) :
  is_header current_seq = false -> filter is_header (flush current_seq) = [].
Proof.
  intros Hc. destruct current_seq as [|c s]; [reflexivity|].
  unfold flush. simpl. simpl in Hc. now rewrite Hc.
Qed.

Lemma written_from_headers (fasta_content : list text) :
  forall current_seq,
  is_header current_seq = false ->
  filter is_header (written_from current_seq fasta_content)
  = map (fun l => strip l ++ newline)
      (filter (fun l => is_header (strip l)) fasta_content).
Proof.
  induction fasta_content as [|l ls IH]; intros cur Hcur.
  - simpl. now apply filter_flush.
  - simpl. destruct (is_header (strip l)) eqn:Hh.
    + rewrite filter_app, (filter_flush cur Hcur). simpl.
      rewrite is_header_line by (now apply is_header_truthy).
      rewrite Hh, (IH [] eq_refl). reflexivity.
    + apply IH. rewrite is_header_app. destruct cur; [exact Hh | exact Hcur].
Qed.

Lemma written_from_residues (fasta_content : list text) :
  forall current_seq,
  trimmed current_seq -> is_header current_seq = false ->
  List.concat
    (map strip
       (filter (fun c => negb (is_header c))
          (written_from current_seq fasta_content)))
  = current_seq
    ++ joined (filter (fun l => negb (is_header (strip l))) fasta_content).
Proof.
  assert (Hflush : forall cur, trimmed cur -> is_header cur = false ->
            List.concat (map strip (filter (fun c => negb (is_header c)) (flush cur)))
            = cur).
  { intros [|c s] Ht Hh; [reflexivity|]. unfold flush.
    simpl truthy. cbv iota. simpl filter.
    simpl in Hh. rewrite Hh. simpl.
    change (c :: s ++ newline) with ((c :: s) ++ newline).
    rewrite (strip_line _ Ht). now rewrite app_nil_r. }
  induction fasta_content as [|l ls IH]; intros cur Ht Hcur.
  - simpl written_from. rewrite (Hflush cur Ht Hcur).
    unfold joined. simpl. now rewrite app_nil_r.
  - simpl written_from. simpl filter at 2. destruct (is_header (strip l)) eqn:Hh.
    + simpl negb. cbv iota.
      rewrite filter_app, map_app, concat_app, (Hflush cur Ht Hcur).
      simpl filter. rewrite is_header_line by (now apply is_header_truthy).
      rewrite Hh. simpl negb. cbv iota.
      now rewrite (IH [] trimmed_nil eq_refl).
    + simpl negb. cbv iota. rewrite IH.
      * unfold joined. simpl. now rewrite app_assoc.
      * apply trimmed_app; [exact Ht | apply strip_trimmed].
      * rewrite is_header_app. destruct cur; [exact Hh | exact Hcur].
Qed.

(** *** Converting what was converted *)

Lemma alternates_tail (a : text) (out : list text) :
  alternates (a :: out) = true -> alternates out = true.
Proof.
  destruct out as [|b out]; [reflexivity|]. rewrite alternates_cons.
  intros Halt. apply andb_prop in Halt. tauto.
Qed.

Lemma written_from_written (out : list text) :
  Forall written_line out -> alternates out = true ->
  written_from [] out = out
  /\ forall s, s <> [] -> headed out -> written_from s out = (s ++ newline) :: out.
Proof.
  induction out as [|a out IH]; intros Hlines Halt.
  - split; [reflexivity|]. intros s Hs _. simpl. now apply flush_truthy.
  - inversion Hlines as [|? ? (x & -> & Hx & Htrim) Hout]; subst.
    destruct (IH Hout (alternates_tail _ _ Halt)) as [IH1 IH2].
    assert (Hstrip : strip (x ++ newline) = x) by (now apply strip_line).
    split.
    + simpl written_from. rewrite Hstrip.
      destruct (is_header x) eqn:Hh.
      * now rewrite IH1.
      * simpl app. apply IH2; [exact Hx|].
        destruct out as [|b out]; [exact I|]. rewrite alternates_cons in Halt.
        rewrite is_header_line, Hh in Halt by exact Hx.
        apply andb_prop in Halt. simpl. tauto.
    + intros s Hs Hhead. simpl in Hhead.
      rewrite is_header_line in Hhead by exact Hx.
      simpl written_from. rewrite Hstrip, Hhead, IH1.
      now rewrite (flush_truthy s Hs).
Qed.

(** *** Lines and files *)

Lemma lines_from_line (x s : text) :
  forall line,
  one_line x ->
  lines_from line (x ++ 10%N :: s) = (line ++ x ++ newline) :: lines_from [] s.
Proof.
  induction x as [|c x IH]; intros line Hx; simpl.
  - reflexivity.
  - destruct (N.eqb_spec c 10) as [->|Hc]; [exfalso; apply Hx; left; reflexivity|].
    rewrite IH by (intros Hin; apply Hx; right; exact Hin).
    now rewrite <- app_assoc.
Qed.

Lemma lines_from_concat (out : list text) :
  Forall (fun c => exists x, c = x ++ newline /\ one_line x) out ->
  lines_from [] (List.concat out) = out.
Proof.
  induction out as [|c out IH]; intros Hout; [reflexivity|].
  inversion Hout as [|? ? (x & -> & Hx) Hout']; subst. simpl.
  unfold newline. rewrite <- app_assoc. simpl app.
  rewrite (lines_from_line x _ [] Hx). simpl. now rewrite (IH Hout').
Qed.

(** Universal newlines leave no "\r", and change nothing in a text that
    has none. *)
Lemma universal_newlines_no_cr (s : text) : no_cr (universal_newlines s).
Proof.
  assert (Hall : forall n s, (List.length s <= n)%nat ->
                             no_cr (universal_newlines s)).
  { induction n as [|n IH]; intros [|c t] Hlen; simpl in Hlen;
      try (intros []); try lia.
    cbn [universal_newlines]. destruct (N.eqb_spec c 13) as [->|Hc].
    - destruct t as [|d t'].
      + intros [Heq|[]]. discriminate.
      + destruct (d =? 10)%N; intros [Heq|Hin]; try discriminate;
          revert Hin; apply IH; simpl in *; lia.
    - intros [Heq|Hin]; [congruence|].
      revert Hin. apply IH. lia. }
  exact (Hall (List.length s) s (Nat.le_refl _)).
Qed.

Lemma universal_newlines_id (s : text) :
  no_cr s -> universal_newlines s = s.
Proof.
  induction s as [|c s IH]; intros Hs; [reflexivity|].
  cbn [universal_newlines]. destruct (N.eqb_spec c 13) as [->|Hc].
  - exfalso. apply Hs. left. reflexivity.
  - f_equal. apply IH. intros Hin. apply Hs. right. exact Hin.
Qed.

Lemma no_cr_concat (out : list text) :
  Forall no_cr out -> no_cr (List.concat out).
Proof.
  induction 1 as [|c out Hc _ IH]; simpl; [intros []|].
  intros Hin. apply in_app_or in Hin. destruct Hin; [now apply Hc | now apply IH].
Qed.

Lemma lines_from_no_cr (s : text) :
  forall line,
  no_cr line -> no_cr s -> Forall no_cr (lines_from line s).
Proof.
  induction s as [|c s IH]; intros line Hline Hs; simpl.
  - destruct line; simpl; [constructor|].
    constructor; [exact Hline | constructor].
  - assert (Hc : no_cr (line ++ [c])).
    { intros Hin. apply in_app_or in Hin.
      destruct Hin as [Hin|[Heq|[]]]; [now apply Hline|].
      apply Hs. left. exact Heq. }
    assert (Hs' : no_cr s) by (intros Hin; apply Hs; right; exact Hin).
    destruct (c =? 10)%N.
    + constructor; [exact Hc | apply IH; [intros [] | exact Hs']].
    + apply IH; assumption.
Qed.

Lemma readlines_no_cr (input : text) : Forall no_cr (readlines input).
Proof.
  apply lines_from_no_cr; [intros [] | apply universal_newlines_no_cr].
Qed.

(** No "\r" is written when none was read. *)
Lemma written_from_no_cr (fasta_content : list text) :
  forall current_seq,
  no_cr current_seq ->
  Forall no_cr fasta_content ->
  Forall no_cr (written_from current_seq fasta_content).
Proof.
  assert (Hline : forall x, no_cr x -> no_cr (x ++ newline)).
  { intros x Hx Hin. apply in_app_or in Hin.
    destruct Hin as [Hin|[Heq|[]]]; [now apply Hx | discriminate]. }
  assert (Hflush : forall cur, no_cr cur -> Forall no_cr (flush cur)).
  { intros [|c cur] Hcur; unfold flush; cbn [truthy]; [constructor|].
    constructor; [now apply Hline | constructor]. }
  assert (Hstrip : forall l, no_cr l -> no_cr (strip l)).
  { intros l Hl Hin. apply Hl. now apply strip_incl. }
  induction fasta_content as [|l ls IH]; intros cur Hcur Hls; simpl.
  - now apply Hflush.
  - inversion Hls as [|? ? Hl Hls']; subst.
    destruct (is_header (strip l)).
    + apply Forall_app. split; [now apply Hflush|].
      constructor; [now apply Hline, Hstrip|].
      apply IH; [intros [] | exact Hls'].
    + apply IH; [|exact Hls'].
      intros Hin. apply in_app_or in Hin.
      destruct Hin as [Hin|Hin]; [now apply Hcur | now apply (Hstrip l Hl)].
Qed.

(** Reading back what was written, when no "\r" was written. *)
Lemma readlines_concat (out : list text) :
  Forall no_cr out ->
  Forall (fun c => exists x, c = x ++ newline /\ one_line x) out ->
  readlines (List.concat out) = out.
Proof.
  intros Hcr Hout. unfold readlines.
  rewrite (universal_newlines_id _ (no_cr_concat out Hcr)).
  now apply lines_from_concat.
Qed.

Lemma lines_from_one_line (s : text) :
  forall line,
  one_line line ->
  Forall (fun l => one_line (strip l)) (lines_from line s).
Proof.
  induction s as [|c s IH]; intros line Hline; simpl.
  - destruct line as [|d line]; simpl; constructor; [|constructor].
    intros Hin. apply Hline. now apply strip_incl.
  - destruct (N.eqb_spec c 10) as [->|Hc].
    + constructor; [|apply IH; intros []].
      rewrite strip_final_space by reflexivity.
      intros Hin. apply Hline. now apply strip_incl.
    + apply IH. intros Hin. apply in_app_or in Hin.
      destruct Hin as [Hin|[Heq|[]]]; [now apply Hline | congruence].
Qed.

Lemma written_from_one_line (fasta_content : list text) :
  forall current_seq,
  one_line current_seq ->
  Forall (fun l => one_line (strip l)) fasta_content ->
  Forall (fun c => exists x, c = x ++ newline /\ one_line x)
    (written_from current_seq fasta_content).
Proof.
  assert (Hflush : forall cur, one_line cur ->
            Forall (fun c => exists x, c = x ++ newline /\ one_line x) (flush cur)).
  { intros [|c cur] Hcur; unfold flush; simpl; constructor; [|constructor].
    exists (c :: cur). split; [reflexivity | exact Hcur]. }
  induction fasta_content as [|l ls IH]; intros cur Hcur Hls; simpl.
  - now apply Hflush.
  - inversion Hls as [|? ? Hl Hls']; subst.
    destruct (is_header (strip l)).
    + apply Forall_app. split; [now apply Hflush|].
      constructor; [exists (strip l); tauto|].
      apply IH; [intros [] | exact Hls'].
    + apply IH; [|exact Hls'].
      intros Hin. apply in_app_or in Hin. destruct Hin; [now apply Hcur | now apply Hl].
Qed.

(** What is written from the lines of a file reads back line by line. *)
Lemma converted_reads_back (input : text) :
  readlines (List.concat (single_line_fasta (readlines input)))
  = single_line_fasta (readlines input).
Proof.
  apply readlines_concat; rewrite single_line_fasta_written.
  - apply written_from_no_cr; [intros [] | apply readlines_no_cr].
  - apply written_from_one_line; [intros []|].
    apply lines_from_one_line. intros [].
Qed.

(** X1. The converter leaves only written lines: each string written to the
    output file is a text that is not empty and has no white space at
    either end, followed by one "\n"; no blank line is ever written. *)
Theorem fasta_written_lines (fasta_content : list text) :
  Forall written_line (single_line_fasta fasta_content).
Proof.
  rewrite single_line_fasta_written. apply written_from_lines, trimmed_nil.
Qed.

(** X2. The headers are kept: the header lines written are the input lines
    that start with ">" once stripped, stripped, in the same order; no
    sequence is ever written as a header. *)
Theorem fasta_headers_kept (fasta_content : list text) :
  filter is_header (single_line_fasta fasta_content)
  = map (fun l => strip l ++ newline)
      (filter (fun l => is_header (strip l)) fasta_content).
Proof.
  rewrite single_line_fasta_written. now apply written_from_headers.
Qed.

(** X3. The sequences are kept: the written lines that are not headers,
    stripped and concatenated, are the input lines that are not headers,
    stripped and concatenated. *)
Theorem fasta_residues_kept (fasta_content : list text) :
  List.concat
    (map strip
       (filter (fun c => negb (is_header c)) (single_line_fasta fasta_content)))
  = joined (filter (fun l => negb (is_header (strip l))) fasta_content).
Proof.
  rewrite single_line_fasta_written.
  now rewrite (written_from_residues fasta_content [] trimmed_nil eq_refl).
Qed.

(** X4. One line per sequence: of two lines written one after the other,
    at least one is a header. *)
Theorem fasta_one_line_per_sequence (fasta_content pre post : list text)
    (a b : text) :
  single_line_fasta fasta_content = pre ++ a :: b :: post ->
  is_header a = true \/ is_header b = true.
Proof.
  rewrite single_line_fasta_written.
  apply alternates_neighbours, written_from_alternates.
Qed.

(** X5. The lines before the first header are written as one sequence, and
    then each record as its stripped header followed by its sequence lines
    joined into one line; a record without sequence gives its header only. *)
Theorem fasta_records (orphans : list text) (records : list (text * list text)) :
  Forall (fun l => is_header (strip l) = false) orphans ->
  Forall (fun r => is_header (strip (fst r)) = true
                   /\ Forall (fun l => is_header (strip l) = false) (snd r))
    records ->
  single_line_fasta (orphans ++ flat_map record_lines records)
  = flush (joined orphans) ++ flat_map record_output records.
Proof.
  intros Ho Hr. rewrite single_line_fasta_written.
  rewrite (written_from_sequence_lines orphans _ [] Ho).
  now apply written_from_records.
Qed.

(** X6. Converting twice is converting once: on the lines written, and on
    files read in text mode (where "\r\n" and a lone "\r" end a line as
    "\n" does). *)
Theorem fasta_idempotent :
  (forall fasta_content,
     single_line_fasta (single_line_fasta fasta_content)
     = single_line_fasta fasta_content)
  /\ (forall input, convert_file (convert_file input) = convert_file input).
Proof.
  assert (Hlines : forall fasta_content,
            single_line_fasta (single_line_fasta fasta_content)
            = single_line_fasta fasta_content).
  { intros ls. rewrite (single_line_fasta_written (single_line_fasta ls)).
    apply written_from_written.
    - rewrite single_line_fasta_written. apply written_from_lines, trimmed_nil.
    - rewrite single_line_fasta_written. apply written_from_alternates. }
  split; [exact Hlines|].
  intros input. unfold convert_file. rewrite converted_reads_back.
  now rewrite Hlines.
Qed.

(** X7. Reading the output file back in text mode gives the strings that
    were written: each is one line of the file, and no "\r" was written,
    whatever line ends the input file had. *)
Theorem fasta_read_back (input : text) :
  readlines (convert_file input) = single_line_fasta (readlines input).
Proof.
  unfold convert_file. apply converted_reads_back.
Qed.

(** A file whose lines end with a lone "\r". *)
Example convert_lone_cr :
  convert_file (codes ">a" ++ 13%N :: codes "AC" ++ 13%N :: codes "GT" ++ [10%N])
  = codes ">a" ++ 10%N :: codes "ACGT" ++ [10%N].
Proof. vm_compute. reflexivity. Qed.

Lemma fasta_one_line_per_sequence_witness :
  is_header (codes ">Sequence1" ++ newline) = true
  \/ is_header (codes "ATGCATGCATGCATGCATGCATGCATGCAT" ++ newline) = true.
Proof.
  apply (fasta_one_line_per_sequence (flat_map record_lines example_records)
           [] [codes ">Sequence2" ++ newline;
               codes "CGTACGTACGTACGTACGTA" ++ newline]).
  vm_compute. reflexivity.
Defined.

Lemma fasta_records_witness :
  single_line_fasta ([] ++ flat_map record_lines example_records)
  = [codes ">Sequence1" ++ newline;
     codes "ATGCATGCATGCATGCATGCATGCATGCAT" ++ newline;
     codes ">Sequence2" ++ newline;
     codes "CGTACGTACGTACGTACGTA" ++ newline].
Proof.
  rewrite (fasta_records [] example_records).
  - vm_compute. reflexivity.
  - constructor.
  - repeat constructor.
Defined.

(** ** The decoder on a symbol that is not in the tables *)

Section DecoderUnknownSymbol.

Context {num : Type} `{Arith num}.
Variable m : Model num.
Hypothesis Hdec : decodable m = true.

Lemma has_key_false_raise {V : Type} (d : dict V) (k : pyval) :
  has_key d k = false -> dict_get d k = Raise (KeyError k).
Proof.
  unfold has_key. destruct (dict_get d k) as [v|e] eqn:Hg; [discriminate|].
  intros _. now rewrite (dict_get_raise d k e Hg).
Qed.

Lemma removelast_cons_length {A : Type} (l : list A) :
  forall x, List.length (removelast (x :: l)) = List.length l.
Proof.
  induction l as [|y l IH]; intros x; [reflexivity|].
  change (removelast (x :: y :: l)) with (x :: removelast (y :: l)).
  cbn [List.length]. f_equal. apply IH.
Qed.

(** The main loop on a prefix of the positions fills their rows and leaves
    the later rows empty. *)
Lemma fill_rounds_then dna_seq bs :
  forallb (emits m) bs = true ->
  forall pre V preb rest restb,
  List.length preb = S (List.length pre) ->
  (forall i b, nth_error bs i = Some b ->
     list_get dna_seq (S (List.length pre) + i) = Ok b) ->
  for_each (seq (S (List.length pre)) (List.length bs))
    ((pre ++ [as_dict m V]) ++ repeat [] (List.length bs) ++ rest,
     preb ++ repeat [] (List.length bs) ++ restb)
    (fill_position m dna_seq)
  = Ok ((pre ++ [as_dict m V]) ++ map (as_dict m) (rows_from m V bs) ++ rest,
        preb ++ map (as_dict m) (backs_from m V bs) ++ restb).
Proof.
  induction bs as [|b bs IH]; intros He pre V preb rest restb Hlen Hseq; simpl.
  - reflexivity.
  - simpl in He. apply andb_prop in He. destruct He as [Heb He].
    rewrite (fill_position_ok m Hdec) with (b := b); try assumption.
    + simpl.
      specialize (IH He (pre ++ [as_dict m V]) (next_row m V b)
                    (preb ++ [as_dict m (back_row m V b)]) rest restb).
      rewrite !length_app in IH. simpl in IH.
      rewrite !Nat.add_1_r in IH.
      rewrite (snoc_app (pre ++ [as_dict m V]) _ (repeat [] _ ++ rest)).
      rewrite (snoc_app (pre ++ [as_dict m V]) _ (map _ _ ++ rest)).
      rewrite (snoc_app preb _ (repeat [] _ ++ restb)).
      rewrite (snoc_app preb _ (map _ _ ++ restb)).
      apply IH; [lia|].
      intros i b' Hi. specialize (Hseq (S i) b' Hi).
      rewrite <- Hseq. f_equal. lia.
    + specialize (Hseq 0%nat b eq_refl). rewrite Nat.add_0_r in Hseq. exact Hseq.
Qed.

(** A position whose symbol the first state cannot emit stops the loop. *)
Lemma fill_position_unknown dna_seq pre V rest preb restb bad s0 others :
  hmm_states m = s0 :: others ->
  has_key (row_of (emit_probs m) s0) bad = false ->
  list_get dna_seq (S (List.length pre)) = Ok bad ->
  fill_position m dna_seq
    ((pre ++ [as_dict m V]) ++ rest, preb ++ restb) (S (List.length pre))
  = Raise (KeyError bad).
Proof.
  intros Hs Hbad Hseq.
  assert (Hs0 : In s0 (hmm_states m)) by (rewrite Hs; left; reflexivity).
  destruct (state_lookups m Hdec s0 Hs0) as (_ & Htr & Her & Ht).
  unfold fill_position, best_previous. rewrite Hs. simpl for_each.
  rewrite Nat.sub_0_r, <- app_assoc. simpl app.
  rewrite list_get_middle. cbn [bind].
  unfold as_dict at 1. rewrite (dict_get_map V _ _ Hs0). cbn [bind].
  rewrite Htr. cbn [bind]. rewrite (Ht s0 Hs0). cbn [bind].
  rewrite Her. cbn [bind]. rewrite Hseq. cbn [bind].
  rewrite (has_key_false_raise _ _ Hbad). reflexivity.
Qed.

Lemma init_tables_unknown bad rest tables s0 others :
  hmm_states m = s0 :: others ->
  has_key (row_of (emit_probs m) s0) bad = false ->
  init_tables m (bad :: rest) tables = Raise (KeyError bad).
Proof.
  intros Hs Hbad.
  assert (Hs0 : In s0 (hmm_states m)) by (rewrite Hs; left; reflexivity).
  destruct (state_lookups m Hdec s0 Hs0) as (Hst & _ & Her & _).
  unfold init_tables. rewrite Hs. simpl for_each.
  rewrite Hst. cbn [bind]. rewrite Her. cbn [bind].
  unfold list_get at 1. simpl nth_error. cbn [bind].
  rewrite (has_key_false_raise _ _ Hbad). reflexivity.
Qed.

Lemma find_best_path_unknown (good rest : list pyval) (bad s0 : pyval)
    (others : list pyval) :
  hmm_states m = s0 :: others ->
  forallb (emits m) good = true ->
  has_key (row_of (emit_probs m) s0) bad = false ->
  find_best_path m (good ++ bad :: rest) = Raise (KeyError bad).
Proof.
  intros Hs Hgood Hbad. unfold find_best_path.
  destruct good as [|b0 good].
  - simpl app. now rewrite (init_tables_unknown bad rest _ s0 others Hs Hbad).
  - simpl in Hgood. apply andb_prop in Hgood. destruct Hgood as [He0 Hgood].
    simpl app. simpl List.length. simpl repeat.
    bind_step (init_tables_ok m Hdec b0 (good ++ bad :: rest)
                 (repeat [] (List.length (good ++ bad :: rest))) He0).
    assert (Hft : fill_tables m (b0 :: good ++ bad :: rest)
                    (as_dict m (first_row m b0)
                       :: repeat [] (List.length (good ++ bad :: rest)),
                     [] :: repeat [] (List.length (good ++ bad :: rest)))
                  = Raise (KeyError bad)); [|now bind_step Hft].
    unfold fill_tables. simpl List.length.
    replace (S (List.length (good ++ bad :: rest)) - 1)%nat
      with (List.length good + S (List.length rest))%nat
      by (rewrite length_app; simpl; lia).
    rewrite length_app. simpl List.length.
    rewrite seq_app, !repeat_app, for_each_app.
    pose proof (fill_rounds_then (b0 :: good ++ bad :: rest) good Hgood
                  [] (first_row m b0) [[]]
                  (repeat [] (S (List.length rest)))
                  (repeat [] (S (List.length rest))) eq_refl) as Hfill.
    simpl List.length in Hfill.
    bind_step (Hfill ltac:(intros i b Hi; unfold list_get; simpl;
                            rewrite nth_error_app1
                              by (apply nth_error_Some; congruence);
                            now rewrite Hi)).
    simpl seq. simpl for_each.
    set (rows := rows_from m (first_row m b0) good).
    assert (Hrows : as_dict m (first_row m b0) :: map (as_dict m) rows
                    = map (as_dict m) (removelast (first_row m b0 :: rows))
                      ++ [as_dict m (last (first_row m b0 :: rows) (first_row m b0))]).
    { change (as_dict m (first_row m b0) :: map (as_dict m) rows)
        with (map (as_dict m) (first_row m b0 :: rows)).
      rewrite (app_removelast_last (first_row m b0)) at 1 by discriminate.
      now rewrite map_app. }
    assert (Hlen : List.length (map (as_dict m) (removelast (first_row m b0 :: rows)))
                   = List.length good).
    { rewrite length_map, removelast_cons_length. unfold rows.
      apply rows_from_length. }
    change (as_dict m (first_row m b0)
              :: map (as_dict m) rows ++ [] :: repeat [] (List.length rest))
      with ((as_dict m (first_row m b0) :: map (as_dict m) rows)
            ++ [] :: repeat [] (List.length rest)).
    change ([] :: map (as_dict m) (backs_from m (first_row m b0) good)
              ++ [] :: repeat [] (List.length rest))
      with (([] :: map (as_dict m) (backs_from m (first_row m b0) good))
            ++ [] :: repeat [] (List.length rest)).
    rewrite Hrows, <- Hlen.
    rewrite (fill_position_unknown (b0 :: good ++ bad :: rest) _ _ _ _ _ bad s0 others
               Hs Hbad).
    + reflexivity.
    + rewrite Hlen. unfold list_get. simpl.
      rewrite nth_error_app2 by lia. now rewrite Nat.sub_diag.
Qed.

End DecoderUnknownSymbol.

(** X8. A symbol the tables do not know stops the decoder with the
    [KeyError] of that symbol: for every arithmetic and every model with
    complete tables, when the symbols before it can all be emitted and the
    first state has no emission probability for it, [find_best_path] raises
    [KeyError] naming it, whatever follows. *)
Theorem decode_unknown_symbol {num : Type} `{Arith num} (m : Model num)
    (good rest : list pyval) (bad s0 : pyval) (others : list pyval) :
  decodable m = true ->
  hmm_states m = s0 :: others ->
  forallb (emits m) good = true ->
  has_key (row_of (emit_probs m) s0) bad = false ->
  find_best_path m (good ++ bad :: rest) = Raise (KeyError bad).
Proof.
  intros Hdec Hs Hgood Hbad.
  exact (find_best_path_unknown m Hdec good rest bad s0 others Hs Hgood Hbad).
Qed.

Lemma decode_unknown_symbol_witness :
  find_best_path notebook64 (chars "AC" ++ PStr "N" :: chars "GT")
  = Raise (KeyError (PStr "N")).
Proof.
  apply (decode_unknown_symbol notebook64 (chars "AC") (chars "GT") (PStr "N")
           (PStr "E") [PStr "5"; PStr "I"]);
    vm_compute; reflexivity.
Defined.

(** ** What the decoder can raise on known symbols *)

Section DecoderOutcome.

Context {num : Type} `{Lawful num}.
Variable m : Model num.
Hypothesis Hdec : decodable m = true.
Hypothesis Hstr : states_are_strings m = true.

Lemma back_row_cases V b c :
  In (back_row m V b c) (hmm_states m) \/ back_row m V b c = PNone.
Proof.
  unfold back_row.
  destruct (best_of_picked m V c b) as [Hp | (Hin & _)];
    [right; now rewrite Hp | left; exact Hin].
Qed.

(** The traceback returns, or stops on the backpointer [None]. *)
Lemma walk_back_cases (bs : list pyval) :
  forall V final,
  In final (hmm_states m) ->
  (exists c path,
     walk_back m (backs_from m V bs) final = Ok (c, path)
     /\ (In c (hmm_states m) \/ c = PNone))
  \/ walk_back m (backs_from m V bs) final = Raise (KeyError PNone).
Proof.
  induction bs as [|b bs IH]; intros V final Hfin.
  - left. exists final, [final]. split; [reflexivity | left; exact Hfin].
  - simpl backs_from. simpl walk_back.
    destruct (IH (next_row m V b) final Hfin) as [(c & path & Hw & Hc) | Hw];
      rewrite Hw; cbn [bind]; [|right; reflexivity].
    unfold as_dict. destruct Hc as [Hc | ->].
    + rewrite (dict_get_map (back_row m V b) _ _ Hc). cbn [bind].
      left. eexists _, _. split; [reflexivity | apply back_row_cases].
    + rewrite (dict_get_map_out (back_row m V b) _ _ (None_not_state m Hstr)).
      right. reflexivity.
Qed.

Lemma max_key_some (V : pyval -> num) :
  hmm_states m <> [] ->
  exists final, max_key (as_dict m V) = Ok final.
Proof.
  unfold as_dict, max_key. destruct (hmm_states m) as [|s0 l]; [congruence|].
  intros _. simpl. eexists. reflexivity.
Qed.

Lemma viterbi_cases (b0 : pyval) (bs : list pyval) :
  hmm_states m <> [] ->
  (exists path, viterbi m b0 bs = Ok path)
  \/ viterbi m b0 bs = Raise (KeyError PNone).
Proof.
  intros Hne. unfold viterbi.
  destruct (max_key_some (last (rows_from m (first_row m b0) bs) (first_row m b0)) Hne)
    as [final Hmax].
  rewrite Hmax. cbn [bind].
  destruct (walk_back_cases bs (first_row m b0) final (max_key_in m _ _ Hmax))
    as [(c & path & Hw & _) | Hw]; rewrite Hw; cbn [bind].
  - left. eexists. reflexivity.
  - right. reflexivity.
Qed.

(** The first state's positive value makes the value of [max]'s state
    positive. *)
Lemma max_key_positive (V : pyval -> num) (s0 : pyval) (others : list pyval) :
  hmm_states m = s0 :: others ->
  is_positive (V s0) = true ->
  exists final,
    max_key (as_dict m V) = Ok final /\ is_positive (V final) = true.
Proof.
  intros Hs Hpos. unfold as_dict, max_key. rewrite Hs. simpl map.
  eexists. split; [reflexivity|].
  assert (Hfold : forall l best,
            snd best = V (fst best) -> is_positive (snd best) = true ->
            is_positive
              (V (fst (fold_left
                         (fun (best : pyval * num) (kv : pyval * num) =>
                            if gtb (snd kv) (snd best) then kv else best)
                         (map (fun s => (s, V s)) l) best))) = true).
  { induction l as [|x l IH]; intros best Hb Hp; simpl.
    - now rewrite <- Hb.
    - destruct (gtb (V x) (snd best)) eqn:Hg; apply IH; auto.
      simpl. exact (greater_than_positive _ _ Hp Hg). }
  apply Hfold; [reflexivity | exact Hpos].
Qed.

End DecoderOutcome.

(** X9. On binary64 with the notebook's tables, a sequence of bases that
    is not empty is decoded in one of two ways: [find_best_path] returns a
    path with one state per symbol, or the traceback raises
    [KeyError: None].  No other exception occurs. *)
Theorem float_decode_outcomes (dna_seq : list pyval) :
  all_in (dna_bases notebook64) dna_seq = true ->
  dna_seq <> [] ->
  (exists path,
     find_best_path notebook64 dna_seq = Ok path
     /\ List.length path = List.length dna_seq
     /\ Forall (fun s => In s (hmm_states notebook64)) path)
  \/ find_best_path notebook64 dna_seq = Raise (KeyError PNone).
Proof.
  intros Hb Hne. destruct dna_seq as [|b0 bs]; [congruence|].
  pose proof (notebook_emits_float _ Hb) as He.
  destruct (viterbi_cases notebook64 notebook_strings_float b0 bs
              ltac:(discriminate)) as [[path Hv] | Hv];
    rewrite <- (find_best_path_viterbi _ notebook_decodable_float b0 bs He) in Hv.
  - left. exists path. split; [exact Hv|].
    destruct (float_decode_sound _ _ Hb Hv) as (Hlen & Hin & _). tauto.
  - right. exact Hv.
Qed.

Lemma float_decode_outcomes_witness :
  (exists path,
     find_best_path notebook64 (repeat (PStr "C") 500) = Ok path
     /\ List.length path = List.length (repeat (PStr "C") 500)
     /\ Forall (fun s => In s (hmm_states notebook64)) path)
  \/ find_best_path notebook64 (repeat (PStr "C") 500) = Raise (KeyError PNone).
Proof.
  apply (float_decode_outcomes (repeat (PStr "C") 500)).
  - vm_compute. reflexivity.
  - discriminate.
Defined.

(** ** Rows of the table along the all-exon path *)

Section LawfulRows.

Context {num : Type} `{Lawful num}.
Variable m : Model num.
Hypothesis Hnn : nonneg_model m = true.

Lemma candidate_positive V c b p :
  (forall s, not_negative (V s) = true) ->
  is_positive (candidate m V c b p) = true ->
  is_positive (V p) = true
  /\ is_positive (trans_of m p c) = true
  /\ is_positive (emit_of m c b) = true.
Proof.
  intros HV Hpos. unfold candidate in Hpos.
  destruct (mul_positive _ _ Hpos
              (mul_not_negative _ _ (HV p) (trans_not_negative m Hnn p c))
              (emit_not_negative m Hnn c b)) as [Hvt He].
  destruct (mul_positive _ _ Hvt (HV p) (trans_not_negative m Hnn p c)).
  tauto.
Qed.

(** A candidate that is not positive never replaces a positive best. *)
Lemma fold_pick_keeps V c b (l : list pyval) (best : num * pyval) :
  is_positive (fst best) = true ->
  (forall p, In p l -> is_positive (candidate m V c b p) = false) ->
  fold_left (pick m V c b) l best = best.
Proof.
  intros Hbest. induction l as [|p l IH]; intros Hl; simpl; [reflexivity|].
  assert (Hp : pick m V c b best p = best).
  { unfold pick. destruct (gtb (candidate m V c b p) (fst best)) eqn:Hg;
      [|reflexivity].
    pose proof (greater_than_positive _ _ Hbest Hg) as Hpos.
    rewrite (Hl p (or_introl eq_refl)) in Hpos. discriminate. }
  rewrite Hp. apply IH. intros q Hq. apply Hl. right. exact Hq.
Qed.

Lemma joint_from_positive (path bases : list pyval) :
  forall acc prev,
  not_negative acc = true ->
  is_positive (joint_from m acc prev path bases) = true ->
  is_positive acc = true.
Proof.
  revert bases. induction path as [|p path IH]; intros bases acc prev Ha Hpos;
    simpl in Hpos; [exact Hpos|].
  destruct bases as [|b bases]; [exact Hpos|].
  pose proof (trans_not_negative m Hnn prev p) as Ht.
  pose proof (emit_not_negative m Hnn p b) as He.
  pose proof (mul_not_negative _ _ Ha Ht) as Hat.
  apply IH in Hpos; [|now apply mul_not_negative].
  destruct (mul_positive _ _ Hpos Hat He) as [Hpos' _].
  now destruct (mul_positive _ _ Hpos' Ha Ht).
Qed.

End LawfulRows.

Lemma notebook_exon_emission (b : pyval) :
  In b (dna_bases notebook64) ->
  emit_of notebook64 (PStr "E") b = emit_of notebook64 (PStr "E") (PStr "A").
Proof.
  simpl. intros [<-|[<-|[<-|[<-|[]]]]]; vm_compute; reflexivity.
Qed.

(** Only an exon precedes an exon: the value of "E" in a row is the
    candidate from "E" in the row before, when that is positive. *)
Lemma notebook_exon_next (V : pyval -> float) (b : pyval) :
  (forall s, not_negative (V s) = true) ->
  is_positive (candidate notebook64 V (PStr "E") b (PStr "E")) = true ->
  next_row notebook64 V b (PStr "E")
  = candidate notebook64 V (PStr "E") b (PStr "E").
Proof.
  intros HV Hpos. unfold next_row, best_of.
  change (fold_left (pick notebook64 V (PStr "E") b) (hmm_states notebook64)
            (lit 0.0, PNone))
    with (fold_left (pick notebook64 V (PStr "E") b) [PStr "5"; PStr "I"]
            (pick notebook64 V (PStr "E") b (lit 0.0, PNone) (PStr "E"))).
  assert (Hfirst : pick notebook64 V (PStr "E") b (lit 0.0, PNone) (PStr "E")
                   = (candidate notebook64 V (PStr "E") b (PStr "E"), PStr "E")).
  { unfold pick. cbn [fst]. unfold is_positive in Hpos. now rewrite Hpos. }
  rewrite Hfirst.
  rewrite (fold_pick_keeps notebook64); [reflexivity | exact Hpos |].
  intros p Hp.
  destruct (is_positive (candidate notebook64 V (PStr "E") b p)) eqn:Hc;
    [|reflexivity].
  destruct (candidate_positive notebook64 notebook_nonneg_float V _ _ _ HV Hc)
    as (_ & Ht & _).
  destruct Hp as [<-|[<-|[]]]; vm_compute in Ht; discriminate.
Qed.

Lemma notebook_exon_rows (bs : list pyval) :
  forall V,
  Forall (fun b => In b (dna_bases notebook64)) bs ->
  (forall s, not_negative (V s) = true) ->
  is_positive
    (joint_from notebook64 (V (PStr "E")) (PStr "E")
       (repeat (PStr "E") (List.length bs)) bs) = true ->
  last (rows_from notebook64 V bs) V (PStr "E")
  = joint_from notebook64 (V (PStr "E")) (PStr "E")
      (repeat (PStr "E") (List.length bs)) bs.
Proof.
  induction bs as [|b bs IH]; intros V Hb HV Hpos; [reflexivity|].
  inversion Hb as [|? ? Hb0 Hbs]; subst.
  simpl rows_from. rewrite last_cons_default.
  cbn [List.length repeat joint_from] in *.
  change (mul (mul (V (PStr "E")) (trans_of notebook64 (PStr "E") (PStr "E")))
            (emit_of notebook64 (PStr "E") b))
    with (candidate notebook64 V (PStr "E") b (PStr "E")) in *.
  assert (Hc : is_positive (candidate notebook64 V (PStr "E") b (PStr "E")) = true).
  { apply (joint_from_positive notebook64 notebook_nonneg_float _ _ _ _) in Hpos;
      [exact Hpos|].
    unfold candidate. apply mul_not_negative;
      [apply mul_not_negative; [apply HV|]|].
    - apply (trans_not_negative notebook64 notebook_nonneg_float).
    - apply (emit_not_negative notebook64 notebook_nonneg_float). }
  rewrite <- (notebook_exon_next V b HV Hc) in *.
  apply IH; [exact Hbs | apply next_row_not_negative | exact Hpos].
Qed.

Lemma notebook_exon_joint (bs : list pyval) :
  forall acc,
  Forall (fun b => In b (dna_bases notebook64)) bs ->
  joint_from notebook64 acc (PStr "E") (repeat (PStr "E") (List.length bs)) bs
  = joint_from notebook64 acc (PStr "E") (repeat (PStr "E") (List.length bs))
      (repeat (PStr "A") (List.length bs)).
Proof.
  induction bs as [|b bs IH]; intros acc Hb; [reflexivity|].
  inversion Hb as [|? ? Hb0 Hbs]; subst.
  cbn [List.length repeat joint_from].
  rewrite (notebook_exon_emission b Hb0). apply IH. exact Hbs.
Qed.

(** The all-exon path keeps a positive binary64 probability up to 499
    symbols. *)
Lemma notebook_exon_positive (n : nat) :
  (n < 499)%nat ->
  is_positive
    (joint notebook64 (repeat (PStr "E") (S n)) (repeat (PStr "A") (S n)))
  = true.
Proof.
  intros Hn.
  assert (Hall : forallb
            (fun n => is_positive
               (joint notebook64 (repeat (PStr "E") (S n))
                  (repeat (PStr "A") (S n))))
            (seq 0 499) = true) by (vm_compute; reflexivity).
  rewrite forallb_forall in Hall. apply Hall. apply in_seq. lia.
Qed.

(** X10. On binary64 with the notebook's tables, every sequence of 1 to
    499 bases is decoded: [find_best_path] returns a path with one state
    per symbol, each of them a state of the model.  (The product along the
    all-exon path stays positive that long.) *)
Theorem float_decode_total (dna_seq : list pyval) :
  all_in (dna_bases notebook64) dna_seq = true ->
  (1 <= List.length dna_seq <= 499)%nat ->
  exists path,
    find_best_path notebook64 dna_seq = Ok path
    /\ List.length path = List.length dna_seq
    /\ Forall (fun s => In s (hmm_states notebook64)) path.
Proof.
  intros Hb Hlen. destruct dna_seq as [|b0 bs]; [simpl in Hlen; lia|].
  pose proof (notebook_emits_float _ Hb) as He.
  apply all_in_Forall in Hb. inversion Hb as [|? ? Hb0 Hbs]; subst.
  simpl List.length in Hlen.
  pose proof (notebook_exon_positive (List.length bs) ltac:(lia)) as Hpos.
  cbn [repeat joint] in Hpos.
  rewrite <- (notebook_exon_emission b0 Hb0) in Hpos.
  rewrite <- (notebook_exon_joint bs _ Hbs) in Hpos.
  change (mul (start_of notebook64 (PStr "E")) (emit_of notebook64 (PStr "E") b0))
    with (first_row notebook64 b0 (PStr "E")) in Hpos.
  rewrite <- (notebook_exon_rows bs (first_row notebook64 b0) Hbs
                (first_row_not_negative notebook64 notebook_nonneg_float b0) Hpos)
    in Hpos.
  destruct (max_key_positive notebook64 _ (PStr "E") [PStr "5"; PStr "I"]
              eq_refl Hpos) as (final & Hmax & Hfin).
  destruct (find_best_path_positive notebook64 notebook_decodable_float
              notebook_nonneg_float b0 bs final He Hmax Hfin)
    as (path & Hfind & Hl & Hin & _).
  exists path. simpl List.length. tauto.
Qed.

Lemma float_decode_total_witness :
  exists path,
    find_best_path notebook64 (repeat (PStr "C") 499) = Ok path
    /\ List.length path = List.length (repeat (PStr "C") 499)
    /\ Forall (fun s => In s (hmm_states notebook64)) path.
Proof.
  apply (float_decode_total (repeat (PStr "C") 499)).
  - vm_compute. reflexivity.
  - rewrite repeat_length. lia.
Defined.

(** ** The shape of a decoded path *)

(** After the splice site or an intron only introns have a positive
    transition. *)
Lemma notebook_intron_tail (path : list pyval) :
  forall bs prev,
  prev = PStr "5" \/ prev = PStr "I" ->
  Forall (fun s => In s (hmm_states notebook64)) path ->
  Forall (fun x => is_positive x = true) (factors notebook64 prev path bs) ->
  List.length path = List.length bs ->
  path = repeat (PStr "I") (List.length path).
Proof.
  induction path as [|p path IH]; intros bs prev Hprev Hin Hfac Hlen;
    [reflexivity|].
  destruct bs as [|b bs]; [discriminate|].
  inversion Hin as [|? ? Hp Hpath]; subst.
  cbn [factors] in Hfac.
  inversion Hfac as [|? ? Ht Hfac']; subst.
  inversion Hfac' as [|? ? _ Hrest]; subst.
  assert (Hp' : p = PStr "I").
  { simpl in Hp.
    destruct Hprev as [-> | ->]; destruct Hp as [<-|[<-|[<-|[]]]];
      first [reflexivity | vm_compute in Ht; discriminate]. }
  subst p. cbn [List.length repeat]. f_equal.
  apply (IH bs (PStr "I")); auto.
Qed.

(** From an exon: exons, then possibly one splice site on "A" or "G" and
    introns. *)
Lemma notebook_exon_tail (path : list pyval) :
  forall bs,
  Forall (fun s => In s (hmm_states notebook64)) path ->
  Forall (fun b => In b (dna_bases notebook64)) bs ->
  Forall (fun x => is_positive x = true)
    (factors notebook64 (PStr "E") path bs) ->
  List.length path = List.length bs ->
  exists k,
    path = repeat (PStr "E") k
    \/ exists j,
         path = repeat (PStr "E") k ++ PStr "5" :: repeat (PStr "I") j
         /\ (nth_error bs k = Some (PStr "A")
             \/ nth_error bs k = Some (PStr "G")).
Proof.
  induction path as [|p path IH]; intros bs Hin Hb Hfac Hlen.
  - exists 0%nat. left. reflexivity.
  - destruct bs as [|b bs]; [discriminate|].
    inversion Hin as [|? ? Hp Hpath]; subst.
    inversion Hb as [|? ? Hb0 Hbs]; subst.
    cbn [factors] in Hfac.
    inversion Hfac as [|? ? Ht Hfac']; subst.
    inversion Hfac' as [|? ? He Hrest]; subst.
    simpl in Hp. destruct Hp as [<-|[<-|[<-|[]]]].
    + destruct (IH bs Hpath Hbs Hrest ltac:(simpl in Hlen; lia))
        as [k [-> | (j & -> & Hk)]].
      * exists (S k). left. reflexivity.
      * exists (S k). right. exists j. split; [reflexivity | exact Hk].
    + exists 0%nat. right. exists (List.length path). split.
      * cbn [repeat app]. f_equal.
        apply (notebook_intron_tail path bs (PStr "5")); auto.
      * simpl in Hb0. cbn [nth_error].
        destruct Hb0 as [<-|[<-|[<-|[<-|[]]]]];
          first [left; reflexivity | right; reflexivity
                | vm_compute in He; discriminate].
    + vm_compute in Ht. discriminate.
Qed.

(** X11. On binary64 with the notebook's tables, every path returned for
    a sequence of bases is one or more "E", then possibly one "5" followed
    by "I" only; the symbol under the "5" is "A" or "G". *)
Theorem float_decode_shape (dna_seq path : list pyval) :
  all_in (dna_bases notebook64) dna_seq = true ->
  find_best_path notebook64 dna_seq = Ok path ->
  exists k,
    path = repeat (PStr "E") (S k)
    \/ exists j,
         path = repeat (PStr "E") (S k) ++ PStr "5" :: repeat (PStr "I") j
         /\ (nth_error dna_seq (S k) = Some (PStr "A")
             \/ nth_error dna_seq (S k) = Some (PStr "G")).
Proof.
  intros Hb Hfind.
  destruct (float_decode_sound dna_seq path Hb Hfind) as (Hlen & Hin & Hfac).
  apply all_in_Forall in Hb.
  destruct dna_seq as [|b0 bs]; [discriminate|].
  destruct path as [|p path]; [discriminate|].
  inversion Hin as [|? ? Hp Hpath]; subst.
  inversion Hb as [|? ? Hb0 Hbs]; subst.
  cbn [decoder_factors] in Hfac.
  inversion Hfac as [|? ? Hs Hfac']; subst.
  inversion Hfac' as [|? ? _ Hrest]; subst.
  assert (Hp' : p = PStr "E").
  { simpl in Hp. destruct Hp as [<-|[<-|[<-|[]]]];
      first [reflexivity | vm_compute in Hs; discriminate]. }
  subst p.
  destruct (notebook_exon_tail path bs Hpath Hbs Hrest
              ltac:(simpl in Hlen; lia)) as [k [-> | (j & -> & Hk)]].
  - exists k. left. reflexivity.
  - exists k. right. exists j. split; [reflexivity | exact Hk].
Qed.

Lemma float_decode_shape_witness :
  exists k,
    chars "E5II" = repeat (PStr "E") (S k)
    \/ exists j,
         chars "E5II" = repeat (PStr "E") (S k) ++ PStr "5" :: repeat (PStr "I") j
         /\ (nth_error (chars "AGAA") (S k) = Some (PStr "A")
             \/ nth_error (chars "AGAA") (S k) = Some (PStr "G")).
Proof.
  apply (float_decode_shape (chars "AGAA") (chars "E5II"));
    vm_compute; reflexivity.
Defined.

(** ** Scoring a decoded path *)

Lemma factors_joint_positive (m : Model Q) (path bases : list pyval) :
  forall acc prev,
  0 < acc ->
  Forall (fun x => 0 < x) (factors m prev path bases) ->
  0 < joint_from m acc prev path bases.
Proof.
  revert bases. induction path as [|p path IH]; intros bases acc prev Ha Hfac;
    simpl; [exact Ha|].
  destruct bases as [|b bases]; [exact Ha|].
  cbn [factors] in Hfac.
  inversion Hfac as [|? ? Ht Hfac']; subst.
  inversion Hfac' as [|? ? He Hrest]; subst.
  apply IH; [|exact Hrest].
  apply Qmult_lt_0_compat; [apply Qmult_lt_0_compat|]; assumption.
Qed.

(** A probability that is positive in the binary64 tables is positive in
    the exact tables. *)
Lemma notebook_factors_exact (path bases : list pyval) :
  forall prev,
  In prev (hmm_states notebook64) ->
  Forall (fun s => In s (hmm_states notebook64)) path ->
  Forall (fun b => In b (dna_bases notebook64)) bases ->
  Forall (fun x => is_positive x = true) (factors notebook64 prev path bases) ->
  Forall (fun x => 0 < x) (factors notebookQ prev path bases).
Proof.
  revert bases. induction path as [|p path IH]; intros bases prev Hprev Hin Hb Hfac;
    [constructor|].
  destruct bases as [|b bases]; [constructor|].
  inversion Hin as [|? ? Hp Hpath]; subst.
  inversion Hb as [|? ? Hb0 Hbs]; subst.
  cbn [factors] in *.
  inversion Hfac as [|? ? Ht Hfac']; subst.
  inversion Hfac' as [|? ? He Hrest]; subst.
  constructor; [|constructor; [|apply IH; assumption]].
  - simpl in Hprev, Hp.
    destruct Hprev as [<-|[<-|[<-|[]]]]; destruct Hp as [<-|[<-|[<-|[]]]];
      first [vm_compute; reflexivity | vm_compute in Ht; discriminate].
  - simpl in Hp, Hb0.
    destruct Hp as [<-|[<-|[<-|[]]]];
      destruct Hb0 as [<-|[<-|[<-|[<-|[]]]]];
      first [vm_compute; reflexivity | vm_compute in He; discriminate].
Qed.

(** X12. The decoder and the scorer together: every path that
    [find_best_path] returns on binary64 for a sequence of bases is scored
    by [calc_path_probability] without exception, and its score is a finite
    number, never [-inf]. *)
Theorem decoded_path_score_finite (dna_seq path : list pyval) :
  all_in (dna_bases notebook64) dna_seq = true ->
  find_best_path notebook64 dna_seq = Ok path ->
  exists v : R, calc_path_probability notebookQ path dna_seq = Ok (Finite v).
Proof.
  intros Hb Hfind.
  destruct (float_decode_sound dna_seq path Hb Hfind) as (Hlen & Hin & Hfac).
  pose proof Hb as Hbases. apply all_in_Forall in Hbases.
  rewrite (calc_path_probability_product notebookQ path dna_seq
             notebook_decodable_exact notebook_nonneg notebook_scorable Hin
             (notebook_emits dna_seq Hbases) Hlen).
  assert (Hjoint : 0 < joint_from notebookQ 1 (PStr "Start") path dna_seq).
  { destruct dna_seq as [|b0 bs]; [discriminate|].
    destruct path as [|p path]; [discriminate|].
    inversion Hin as [|? ? Hp Hpath]; subst.
    inversion Hbases as [|? ? Hb0 Hbs]; subst.
    cbn [decoder_factors] in Hfac.
    inversion Hfac as [|? ? Hs Hfac']; subst.
    inversion Hfac' as [|? ? He Hrest]; subst.
    cbn [joint_from].
    apply factors_joint_positive;
      [|apply notebook_factors_exact; assumption].
    simpl in Hp, Hb0.
    destruct Hp as [<-|[<-|[<-|[]]]];
      destruct Hb0 as [<-|[<-|[<-|[<-|[]]]]];
      first [vm_compute; reflexivity
            | vm_compute in Hs; discriminate
            | vm_compute in He; discriminate]. }
  destruct (pyval_eqb (last path (PStr "Start")) (PStr "I")); eexists.
  - rewrite elog_pos; [reflexivity|].
    apply Qmult_lt_0_compat; [exact Hjoint | vm_compute; reflexivity].
  - rewrite elog_pos; [reflexivity | exact Hjoint].
Qed.

Lemma decoded_path_score_finite_witness :
  exists v : R,
    calc_path_probability notebookQ (chars "E5II") (chars "AGAA")
    = Ok (Finite v).
Proof.
  apply (decoded_path_score_finite (chars "AGAA") (chars "E5II"));
    vm_compute; reflexivity.
Defined.

(** ** The scorer on a state or a symbol that is not in the tables *)

Lemma combine_app_same {A B : Type} (l1 l2 : list A) (r1 r2 : list B) :
  List.length l1 = List.length r1 ->
  combine (l1 ++ l2) (r1 ++ r2) = combine l1 r1 ++ combine l2 r2.
Proof.
  revert r1. induction l1 as [|a l1 IH]; intros [|b r1] Hlen;
    try discriminate; [reflexivity|].
  simpl. f_equal. apply IH. simpl in Hlen. lia.
Qed.

Section ScorerErrors.

Variable m : Model Q.
Hypothesis Hdec : decodable m = true.
Hypothesis Hnn : nonneg_model m = true.
Hypothesis Hsc : scorable m = true.

Lemma source_row (prev : pyval) :
  source m prev ->
  dict_get (trans_probs m) prev = Ok (row_of (trans_probs m) prev).
Proof.
  intros [->|Hp].
  - unfold scorable in Hsc. apply andb_prop in Hsc.
    apply has_key_row_of. tauto.
  - now destruct (state_lookups m Hdec prev Hp) as (_ & Htr & _ & _).
Qed.

(** The loop stops at the first position whose round raises. *)
Lemma score_loop_stops (good bgood rest brest : list pyval) (x b : pyval)
    (acc : logprob) (prev : pyval) (e : exn) :
  source m prev ->
  Forall (fun s => In s (hmm_states m)) good ->
  forallb (emits m) bgood = true ->
  List.length good = List.length bgood ->
  (forall acc', score_loop m (acc', last good prev) [x] [b] = Raise e) ->
  score_loop m (acc, prev) (good ++ x :: rest) (bgood ++ b :: brest) = Raise e.
Proof.
  intros Hprev Hgood He Hlen Hstep. unfold score_loop.
  rewrite (combine_app_same good (x :: rest) bgood (b :: brest) Hlen).
  rewrite for_each_app.
  pose proof (score_loop_sum m Hdec Hnn Hsc good bgood acc prev Hprev Hgood
                He Hlen) as Hloop.
  unfold score_loop in Hloop. rewrite Hloop. cbn [bind].
  specialize (Hstep (ladd acc (sum_terms m prev good bgood))).
  unfold score_loop in Hstep. cbn [combine for_each] in *.
  match goal with
  | Hs : bind ?c _ = Raise e |- bind ?c _ = Raise e =>
      destruct c as [s'|e']; cbn [bind] in *; [discriminate | exact Hs]
  end.
Qed.

Lemma score_round_unknown_state (acc : logprob) (prev x b : pyval) :
  source m prev ->
  has_key (emit_probs m) x = false ->
  score_loop m (acc, prev) [x] [b] = Raise (KeyError x).
Proof.
  intros Hprev Hx. unfold score_loop. cbn [combine for_each].
  rewrite (source_row prev Hprev). cbn [bind].
  destruct (dict_get (row_of (trans_probs m) prev) x) as [t|e] eqn:Hg;
    cbn [bind].
  - assert (Ht : 0 <= t).
    { pose proof (trans_nonneg m Hnn prev x) as Hge.
      unfold trans_of, get0 in Hge. now rewrite Hg in Hge. }
    rewrite (safe_log_nonneg t Ht). cbn [bind].
    rewrite (has_key_false_raise _ _ Hx). reflexivity.
  - now rewrite (dict_get_raise _ _ _ Hg).
Qed.

Lemma score_round_unknown_symbol (acc : logprob) (prev x b : pyval) :
  source m prev ->
  In x (hmm_states m) ->
  has_key (row_of (emit_probs m) x) b = false ->
  score_loop m (acc, prev) [x] [b] = Raise (KeyError b).
Proof.
  intros Hprev Hx Hb. unfold score_loop. cbn [combine for_each].
  destruct (source_lookups m Hdec Hsc prev x Hprev Hx) as [Htr Ht].
  destruct (state_lookups m Hdec x Hx) as (_ & _ & Her & _).
  rewrite Htr. cbn [bind]. rewrite Ht. cbn [bind].
  rewrite (safe_log_nonneg _ (trans_nonneg m Hnn prev x)). cbn [bind].
  rewrite Her. cbn [bind].
  rewrite (has_key_false_raise _ _ Hb). reflexivity.
Qed.

Lemma last_source (good : list pyval) :
  Forall (fun s => In s (hmm_states m)) good ->
  source m (last good (PStr "Start")).
Proof.
  intros Hgood. destruct good as [|p good]; [left; reflexivity|].
  right. apply last_in_states; [exact Hgood | discriminate].
Qed.

Lemma calc_path_probability_stops (good bgood rest brest : list pyval)
    (x b : pyval) (e : exn) :
  Forall (fun s => In s (hmm_states m)) good ->
  forallb (emits m) bgood = true ->
  List.length good = List.length bgood ->
  List.length rest = List.length brest ->
  (forall acc',
     score_loop m (acc', last good (PStr "Start")) [x] [b] = Raise e) ->
  calc_path_probability m (good ++ x :: rest) (bgood ++ b :: brest) = Raise e.
Proof.
  intros Hgood He Hlen Hrest Hstep. unfold calc_path_probability.
  rewrite !length_app. cbn [List.length]. rewrite Hlen, Hrest, Nat.eqb_refl.
  cbn [negb].
  rewrite (score_loop_stops good bgood rest brest x b (Finite 0) (PStr "Start") e);
    auto.
  left. reflexivity.
Qed.

End ScorerErrors.

(** X13. A state the tables do not know stops the scorer with the
    [KeyError] of that state: on complete tables without negative entries,
    when the path before it holds states only and the symbols before it can
    be emitted, a path element without emission row makes
    [calc_path_probability] raise [KeyError] naming it, whether or not it
    has a transition probability ("End" has one, from "I"). *)
Theorem score_unknown_state (m : Model Q) (good bgood rest brest : list pyval)
    (x b : pyval) :
  decodable m = true -> nonneg_model m = true -> scorable m = true ->
  Forall (fun s => In s (hmm_states m)) good ->
  forallb (emits m) bgood = true ->
  List.length good = List.length bgood ->
  List.length rest = List.length brest ->
  has_key (emit_probs m) x = false ->
  calc_path_probability m (good ++ x :: rest) (bgood ++ b :: brest)
  = Raise (KeyError x).
Proof.
  intros Hdec Hnn Hsc Hgood He Hlen Hrest Hx.
  apply (calc_path_probability_stops m Hdec Hnn Hsc); auto.
  intros acc'. apply (score_round_unknown_state m Hdec Hnn Hsc); [|exact Hx].
  now apply last_source.
Qed.

Lemma score_unknown_state_witness :
  calc_path_probability notebookQ (chars "EE" ++ PStr "End" :: chars "I")
    (chars "AC" ++ PStr "G" :: chars "T")
  = Raise (KeyError (PStr "End")).
Proof.
  apply (score_unknown_state notebookQ (chars "EE") (chars "AC") (chars "I")
           (chars "T") (PStr "End") (PStr "G"));
    try (vm_compute; reflexivity).
  apply all_in_Forall. vm_compute. reflexivity.
Defined.

(** X14. A symbol a state cannot emit stops the scorer with the
    [KeyError] of that symbol: on complete tables without negative entries,
    at the first position whose symbol has no emission probability for the
    state of the path there, [calc_path_probability] raises [KeyError]
    naming the symbol. *)
Theorem score_unknown_symbol (m : Model Q) (good bgood rest brest : list pyval)
    (x b : pyval) :
  decodable m = true -> nonneg_model m = true -> scorable m = true ->
  Forall (fun s => In s (hmm_states m)) good ->
  forallb (emits m) bgood = true ->
  List.length good = List.length bgood ->
  List.length rest = List.length brest ->
  In x (hmm_states m) ->
  has_key (row_of (emit_probs m) x) b = false ->
  calc_path_probability m (good ++ x :: rest) (bgood ++ b :: brest)
  = Raise (KeyError b).
Proof.
  intros Hdec Hnn Hsc Hgood He Hlen Hrest Hx Hb.
  apply (calc_path_probability_stops m Hdec Hnn Hsc); auto.
  intros acc'. apply (score_round_unknown_symbol m Hdec Hnn Hsc); auto.
  now apply last_source.
Qed.

Lemma score_unknown_symbol_witness :
  calc_path_probability notebookQ (chars "EE" ++ PStr "5" :: chars "I")
    (chars "AC" ++ PStr "N" :: chars "T")
  = Raise (KeyError (PStr "N")).
Proof.
  apply (score_unknown_symbol notebookQ (chars "EE") (chars "AC") (chars "I")
           (chars "T") (PStr "5") (PStr "N"));
    try (vm_compute; reflexivity).
  - apply all_in_Forall. vm_compute. reflexivity.
  - right. left. reflexivity.
Defined.

(** ** The score as the logarithm of a product *)

Lemma product_app (l1 l2 : list Q) :
  product (l1 ++ l2) == product l1 * product l2.
Proof.
  induction l1 as [|q l1 IH]; simpl.
  - now rewrite Qmult_1_l.
  - rewrite IH. apply Qmult_assoc.
Qed.

Lemma joint_from_product (m : Model Q) (path bases : list pyval) :
  forall acc prev,
  joint_from m acc prev path bases
  == acc * product (factors m prev path bases).
Proof.
  revert bases. induction path as [|p path IH]; intros bases acc prev; simpl.
  - now rewrite Qmult_1_r.
  - destruct bases as [|b bases]; simpl; [now rewrite Qmult_1_r|].
    rewrite IH. now rewrite <- !Qmult_assoc.
Qed.

Lemma factors_nonneg (m : Model Q) (path bases : list pyval) :
  nonneg_model m = true ->
  forall prev,
  Forall (fun q => 0 <= q) (factors m prev path bases ++ end_factors m path).
Proof.
  intros Hnn prev. apply Forall_app. split.
  - revert bases prev. induction path as [|p path IH]; intros bases prev;
      simpl; [constructor|].
    destruct bases as [|b bases]; [constructor|].
    constructor; [apply trans_nonneg, Hnn|].
    constructor; [apply emit_nonneg, Hnn | apply IH].
  - unfold end_factors. destruct (pyval_eqb _ _); [|constructor].
    constructor; [apply trans_nonneg, Hnn | constructor].
Qed.

Lemma product_nonneg (l : list Q) :
  Forall (fun q => 0 <= q) l -> 0 <= product l.
Proof.
  induction 1 as [|q l Hq _ IH]; simpl; [discriminate|].
  now apply Qmult_le_0_compat.
Qed.

Lemma product_positive (l : list Q) :
  Forall (fun q => 0 <= q) l ->
  (0 < product l <-> Forall (fun q => 0 < q) l).
Proof.
  induction 1 as [|q l Hq Hl IH]; simpl.
  - split; [constructor | reflexivity].
  - pose proof (product_nonneg l Hl) as Hp. split.
    + intros Hpos.
      destruct (mul_positive q (product l)) as [Hq' Hp'].
      * now apply is_positive_exact.
      * now apply not_negative_exact.
      * now apply not_negative_exact.
      * apply is_positive_exact in Hq', Hp'.
        constructor; [exact Hq' | now apply IH].
    + intros Hall. inversion Hall as [|? ? Hq' Hl']; subst.
      apply Qmult_lt_0_compat; [exact Hq' | now apply IH].
Qed.

Lemma product_at_most_one (l : list Q) :
  Forall (fun q => 0 <= q <= 1) l -> product l <= 1.
Proof.
  induction 1 as [|q l [Hq0 Hq1] Hl IH]; simpl; [discriminate|].
  assert (Hp : 0 <= product l).
  { apply product_nonneg. eapply Forall_impl; [|exact Hl]. simpl. tauto. }
  apply Qle_trans with (1 * product l).
  - now apply Qmult_le_compat_r.
  - now rewrite Qmult_1_l.
Qed.

Lemma elog_finite (q : Q) :
  0 <= q -> ((exists v, elog q = Finite v) <-> 0 < q).
Proof.
  intros Hq. split.
  - intros [v Hv]. destruct (Qle_lt_or_eq _ _ Hq) as [Hlt|Heq]; [exact Hlt|].
    rewrite (elog_zero q) in Hv by (now symmetry). discriminate.
  - intros Hpos. eexists. now apply elog_pos.
Qed.

Lemma get0_at_most_one (d : dict Q) (k : pyval) :
  at_most_one_dict d = true -> get0 d k <= 1.
Proof.
  unfold get0, at_most_one_dict. induction d as [|[k' v] d IH]; simpl.
  - intros _. rewrite zero_lit. discriminate.
  - intros Hd. apply andb_prop in Hd. destruct Hd as [Hv Hd].
    destruct (pyval_eqb k k'); [now apply Qle_bool_iff | exact (IH Hd)].
Qed.

Lemma row_of_at_most_one (d : dict (dict Q)) (k : pyval) :
  forallb (fun kr => at_most_one_dict (snd kr)) d = true ->
  at_most_one_dict (row_of d k) = true.
Proof.
  unfold row_of. induction d as [|[k' r] d IH]; simpl.
  - reflexivity.
  - intros Hd. apply andb_prop in Hd. destruct Hd as [Hr Hd].
    destruct (pyval_eqb k k'); [exact Hr | exact (IH Hd)].
Qed.

Lemma factors_at_most_one (m : Model Q) (path bases : list pyval) :
  nonneg_model m = true -> at_most_one_model m = true ->
  forall prev,
  Forall (fun q => 0 <= q <= 1)
    (factors m prev path bases ++ end_factors m path).
Proof.
  intros Hnn Hone.
  assert (Ht : forall a b, 0 <= trans_of m a b <= 1).
  { intros a b. split; [apply trans_nonneg, Hnn|].
    unfold at_most_one_model in Hone. apply andb_prop in Hone.
    destruct Hone as [Hone _]. apply andb_prop in Hone.
    apply get0_at_most_one, row_of_at_most_one. tauto. }
  assert (He : forall s b, 0 <= emit_of m s b <= 1).
  { intros s b. split; [apply emit_nonneg, Hnn|].
    unfold at_most_one_model in Hone. apply andb_prop in Hone.
    apply get0_at_most_one, row_of_at_most_one. tauto. }
  intros prev. apply Forall_app. split.
  - revert bases prev. induction path as [|p path IH]; intros bases prev;
      simpl; [constructor|].
    destruct bases as [|b bases]; [constructor|].
    constructor; [apply Ht|]. constructor; [apply He | apply IH].
  - unfold end_factors. destruct (pyval_eqb _ _); [|constructor].
    constructor; [apply Ht | constructor].
Qed.

(** The scorer on complete tables, as the product of what it looks up. *)
Lemma calc_path_probability_factors (m : Model Q) (path bases : list pyval) :
  decodable m = true -> nonneg_model m = true -> scorable m = true ->
  Forall (fun s => In s (hmm_states m)) path ->
  forallb (emits m) bases = true ->
  List.length path = List.length bases ->
  calc_path_probability m path bases
  = Ok (elog (product (factors m (PStr "Start") path bases
                       ++ end_factors m path))).
Proof.
  intros Hdec Hnn Hsc Hin He Hlen.
  rewrite (calc_path_probability_product m path bases Hdec Hnn Hsc Hin He Hlen).
  f_equal. apply elog_eq. rewrite product_app. unfold end_factors.
  pose proof (joint_from_product m path bases 1 (PStr "Start")) as Hj.
  rewrite Qmult_1_l in Hj.
  destruct (pyval_eqb _ _); simpl; rewrite Hj.
  - now rewrite Qmult_1_r.
  - now rewrite Qmult_1_r.
Qed.

(** X15. On complete tables without negative entries, for a path of
    states and a sequence of emitted symbols of the same length, the score
    is the logarithm of the product of the probabilities the scorer looks
    up: a transition and an emission per position, from "Start", and the
    transition to "End" after a final "I"; it is [-inf] when the product
    is 0. *)
Theorem score_log_of_product (m : Model Q) (path bases : list pyval) :
  decodable m = true -> nonneg_model m = true -> scorable m = true ->
  Forall (fun s => In s (hmm_states m)) path ->
  forallb (emits m) bases = true ->
  List.length path = List.length bases ->
  calc_path_probability m path bases
  = Ok (elog (product (factors m (PStr "Start") path bases
                       ++ end_factors m path))).
Proof.
  intros Hdec Hnn Hsc Hin He Hlen.
  exact (calc_path_probability_factors m path bases Hdec Hnn Hsc Hin He Hlen).
Qed.

Lemma score_log_of_product_witness :
  calc_path_probability notebookQ primer_path sample
  = Ok (elog (product (factors notebookQ (PStr "Start") primer_path sample
                       ++ end_factors notebookQ primer_path))).
Proof.
  apply (score_log_of_product notebookQ primer_path sample);
    try (vm_compute; reflexivity).
  apply all_in_Forall. vm_compute. reflexivity.
Defined.

(** X16. On complete tables without negative entries, for a path of
    states and a sequence of emitted symbols of the same length, the score
    is a finite number exactly when every probability the scorer looks up
    (transitions, emissions, and the transition to "End" after a final
    "I") is positive. *)
Theorem score_finite_iff (m : Model Q) (path bases : list pyval) :
  decodable m = true -> nonneg_model m = true -> scorable m = true ->
  Forall (fun s => In s (hmm_states m)) path ->
  forallb (emits m) bases = true ->
  List.length path = List.length bases ->
  (exists v : R, calc_path_probability m path bases = Ok (Finite v))
  <-> Forall (fun q => 0 < q)
        (factors m (PStr "Start") path bases ++ end_factors m path).
Proof.
  intros Hdec Hnn Hsc Hin He Hlen.
  rewrite (calc_path_probability_factors m path bases Hdec Hnn Hsc Hin He Hlen).
  pose proof (factors_nonneg m path bases Hnn (PStr "Start")) as Hfac.
  rewrite <- (product_positive _ Hfac).
  rewrite <- (elog_finite _ (product_nonneg _ Hfac)).
  split; intros [v Hv]; exists v; congruence.
Qed.

Lemma score_finite_iff_witness :
  (exists v : R, calc_path_probability notebookQ primer_path sample
                 = Ok (Finite v))
  <-> Forall (fun q => 0 < q)
        (factors notebookQ (PStr "Start") primer_path sample
         ++ end_factors notebookQ primer_path).
Proof.
  apply (score_finite_iff notebookQ primer_path sample);
    try (vm_compute; reflexivity).
  apply all_in_Forall. vm_compute. reflexivity.
Defined.

(** X17. On complete tables whose entries all lie between 0 and 1, for a
    path of states and a sequence of emitted symbols of the same length,
    the score is never positive: it is [-inf] or a number at most 0.0. *)
Theorem score_not_positive (m : Model Q) (path bases : list pyval) :
  decodable m = true -> nonneg_model m = true -> scorable m = true ->
  at_most_one_model m = true ->
  Forall (fun s => In s (hmm_states m)) path ->
  forallb (emits m) bases = true ->
  List.length path = List.length bases ->
  exists l,
    calc_path_probability m path bases = Ok l /\ lle l (Finite 0).
Proof.
  intros Hdec Hnn Hsc Hone Hin He Hlen.
  rewrite (calc_path_probability_factors m path bases Hdec Hnn Hsc Hin He Hlen).
  eexists. split; [reflexivity|].
  rewrite <- elog_1. apply elog_mono.
  - apply product_nonneg, factors_nonneg, Hnn.
  - apply product_at_most_one, factors_at_most_one; assumption.
Qed.

Lemma score_not_positive_witness :
  exists l,
    calc_path_probability notebookQ primer_path sample = Ok l
    /\ lle l (Finite 0).
Proof.
  apply (score_not_positive notebookQ primer_path sample);
    try (vm_compute; reflexivity).
  apply all_in_Forall. vm_compute. reflexivity.
Defined.

(** ** Which exceptions the scorer raises *)

Lemma entry_nonneg (m : Model Q) (a b : pyval) (row : dict Q) (t : Q) :
  nonneg_model m = true ->
  dict_get (trans_probs m) a = Ok row ->
  dict_get row b = Ok t ->
  0 <= t.
Proof.
  intros Hnn Hrow Ht. pose proof (trans_nonneg m Hnn a b) as Hge.
  unfold trans_of, row_of, get0 in Hge. rewrite Hrow in Hge.
  now rewrite Ht in Hge.
Qed.

Lemma emission_nonneg (m : Model Q) (s b : pyval) (row : dict Q) (t : Q) :
  nonneg_model m = true ->
  dict_get (emit_probs m) s = Ok row ->
  dict_get row b = Ok t ->
  0 <= t.
Proof.
  intros Hnn Hrow Ht. pose proof (emit_nonneg m Hnn s b) as Hge.
  unfold emit_of, row_of, get0 in Hge. rewrite Hrow in Hge.
  now rewrite Ht in Hge.
Qed.

(** X18. The exceptions of the scorer, for any tables and any arguments:
    the length error, raised only when the lengths differ; the
    [ValueError] of [math.log], raised only when some entry of the tables is
    negative; or a [KeyError]. *)
Theorem score_exceptions (m : Model Q) (path bases : list pyval) (e : exn) :
  calc_path_probability m path bases = Raise e ->
  (e = ValueError length_mismatch
   /\ List.length path <> List.length bases)
  \/ (e = ValueError math_domain_error /\ nonneg_model m = false)
  \/ (exists k, e = KeyError k).
Proof.
  unfold calc_path_probability.
  destruct (Nat.eqb_spec (List.length path) (List.length bases)) as [Heq|Hne];
    cbn [negb]; [|intros Hr; injection Hr as <-; left; tauto].
  intros Hr. right.
  set (P := fun e : exn =>
              (e = ValueError math_domain_error /\ nonneg_model m = false)
              \/ (exists k, e = KeyError k)).
  assert (Hlog : forall a b row t e',
            dict_get (trans_probs m) a = Ok row \/ dict_get (emit_probs m) a = Ok row ->
            dict_get row b = Ok t -> safe_log t = Raise e' -> P e').
  { intros a b row t e' Hrow Ht Hs. left.
    split; [exact (safe_log_raise _ _ Hs)|].
    destruct (nonneg_model m) eqn:Hnn; [|reflexivity]. exfalso.
    assert (Hge : 0 <= t).
    { destruct Hrow as [Hrow|Hrow];
        [exact (entry_nonneg m a b row t Hnn Hrow Ht)
        |exact (emission_nonneg m a b row t Hnn Hrow Ht)]. }
    rewrite (safe_log_nonneg t Hge) in Hs. discriminate. }
  assert (Hkey : forall V (d : dict V) k e',
            dict_get d k = Raise e' -> P e').
  { intros V d k e' Hg. right. exists k. exact (dict_get_raise d k e' Hg). }
  destruct (score_loop m (Finite 0, PStr "Start") path bases)
    as [[total last_state]|e0] eqn:Hloop; cbn [bind] in Hr.
  - destruct (pyval_eqb last_state (PStr "I")); [|discriminate].
    unfold end_term in Hr.
    destruct (dict_get (trans_probs m) last_state) as [row|e1] eqn:Hrow;
      cbn [bind] in Hr; [|injection Hr as <-; exact (Hkey _ _ _ _ Hrow)].
    destruct (dict_get row (PStr "End")) as [t|e1] eqn:Ht;
      cbn [bind] in Hr; [|injection Hr as <-; exact (Hkey _ _ _ _ Ht)].
    destruct (safe_log t) as [l|e1] eqn:Hs; cbn [bind] in Hr; [discriminate|].
    injection Hr as <-. exact (Hlog _ _ _ _ _ (or_introl Hrow) Ht Hs).
  - injection Hr as <-. revert Hloop. unfold score_loop.
    apply (for_each_raise P). clear - Hlog Hkey.
    intros [total last_state] [curr_state base] e'.
    destruct (dict_get (trans_probs m) last_state) as [row|e1] eqn:Hrow;
      cbn [bind]; [|intros Hr; injection Hr as <-; exact (Hkey _ _ _ _ Hrow)].
    destruct (dict_get row curr_state) as [t|e1] eqn:Ht;
      cbn [bind]; [|intros Hr; injection Hr as <-; exact (Hkey _ _ _ _ Ht)].
    destruct (safe_log t) as [l|e1] eqn:Hs; cbn [bind];
      [|intros Hr; injection Hr as <-;
        exact (Hlog _ _ _ _ _ (or_introl Hrow) Ht Hs)].
    destruct (dict_get (emit_probs m) curr_state) as [erow|e1] eqn:Herow;
      cbn [bind]; [|intros Hr; injection Hr as <-; exact (Hkey _ _ _ _ Herow)].
    destruct (dict_get erow base) as [t'|e1] eqn:Ht';
      cbn [bind]; [|intros Hr; injection Hr as <-; exact (Hkey _ _ _ _ Ht')].
    destruct (safe_log t') as [l'|e1] eqn:Hs'; cbn [bind]; [discriminate|].
    intros Hr; injection Hr as <-.
    exact (Hlog _ _ _ _ _ (or_intror Herow) Ht' Hs').
Qed.

Lemma score_exceptions_witness :
  (KeyError (PStr "X") = ValueError length_mismatch
   /\ List.length (chars "EX") <> List.length (chars "AC"))
  \/ (KeyError (PStr "X") = ValueError math_domain_error
      /\ nonneg_model notebookQ = false)
  \/ (exists k, KeyError (PStr "X") = KeyError k).
Proof.
  apply (score_exceptions notebookQ (chars "EX") (chars "AC")
           (KeyError (PStr "X"))).
  vm_compute. reflexivity.
Defined.

(** ** One state per symbol *)

Lemma walk_back_length {num : Type} `{Arith num} (m : Model num)
    (backs : list (pyval -> pyval)) :
  forall final c path,
  walk_back m backs final = Ok (c, path) ->
  List.length path = S (List.length backs).
Proof.
  induction backs as [|back backs IH]; intros final c path Hw; simpl in Hw.
  - injection Hw as <- <-. reflexivity.
  - destruct (walk_back m backs final) as [[c1 path1]|e] eqn:Hinner;
      cbn [bind] in Hw; [|discriminate].
    destruct (dict_get (as_dict m back) c1) as [c'|e]; cbn [bind] in Hw;
      [|discriminate].
    injection Hw as <- <-. simpl. f_equal. exact (IH final c1 path1 Hinner).
Qed.

(** X19. For every arithmetic and every model with complete tables, a
    path that [find_best_path] returns has one entry per symbol of the
    sequence. *)
Theorem decode_length {num : Type} `{Arith num} (m : Model num)
    (dna_seq path : list pyval) :
  decodable m = true ->
  forallb (emits m) dna_seq = true ->
  find_best_path m dna_seq = Ok path ->
  List.length path = List.length dna_seq.
Proof.
  intros Hdec He Hfind. destruct dna_seq as [|b0 bs].
  - exfalso. revert Hfind. unfold find_best_path, init_tables. simpl.
    destruct (hmm_states m) as [|s states]; simpl; [discriminate|].
    destruct (dict_get (start_probs m) s); simpl; [|discriminate].
    destruct (dict_get (emit_probs m) s); simpl; discriminate.
  - rewrite (find_best_path_viterbi m Hdec b0 bs He) in Hfind.
    unfold viterbi in Hfind.
    destruct (max_key _) as [final|e]; cbn [bind] in Hfind; [|discriminate].
    destruct (walk_back m (backs_from m (first_row m b0) bs) final)
      as [[c path']|e] eqn:Hw; cbn [bind] in Hfind; [|discriminate].
    injection Hfind as <-.
    rewrite (walk_back_length m _ _ _ _ Hw), backs_from_length. reflexivity.
Qed.

Lemma decode_length_witness :
  List.length (chars "E5II") = List.length (chars "AGAA").
Proof.
  apply (decode_length notebook64 (chars "AGAA") (chars "E5II"));
    vm_compute; reflexivity.
Defined.

(** ** Ties go to the earlier state *)

Section Ties.

Variable m : Model Q.


End Ties.



(** X21. [max(d, key=d.get)]: in exact arithmetic the key returned is
    the earliest key of largest value (every earlier value is smaller, no
    later value is larger). *)
Theorem max_key_earliest (d : dict Q) (k : pyval) :
  max_key d = Ok k ->
  exists d1 v d2,
    d = d1 ++ (k, v) :: d2
    /\ (forall kv, In kv d1 -> snd kv < v)
    /\ (forall kv, In kv d2 -> snd kv <= v).
Proof.
  unfold max_key. destruct d as [|[k0 v0] d]; [discriminate|].
  intros Hmax. injection Hmax as <-.
  assert (Hfold : forall l done best,
            (exists d1 d2,
               done = d1 ++ best :: d2
               /\ (forall kv, In kv d1 -> snd kv < snd best)
               /\ (forall kv, In kv d2 -> snd kv <= snd best)) ->
            exists d1 d2,
              done ++ l
              = d1 ++ fold_left
                        (fun (best : pyval * Q) (kv : pyval * Q) =>
                           if gtb (snd kv) (snd best) then kv else best)
                        l best :: d2
              /\ (forall kv, In kv d1 ->
                    snd kv < snd (fold_left
                        (fun (best : pyval * Q) (kv : pyval * Q) =>
                           if gtb (snd kv) (snd best) then kv else best)
                        l best))
              /\ (forall kv, In kv d2 ->
                    snd kv <= snd (fold_left
                        (fun (best : pyval * Q) (kv : pyval * Q) =>
                           if gtb (snd kv) (snd best) then kv else best)
                        l best))).
  { induction l as [|x l IH]; intros done best Hinv; cbn [fold_left].
    - now rewrite app_nil_r.
    - replace (done ++ x :: l) with ((done ++ [x]) ++ l)
        by (now rewrite <- app_assoc).
      apply IH. destruct Hinv as (d1 & d2 & -> & H1 & H2).
      destruct (gtb (snd x) (snd best)) eqn:Hgt.
      + apply gtb_exact in Hgt. exists (d1 ++ best :: d2), [].
        split; [reflexivity|]. split; [|intros kv []].
        intros kv Hkv. apply in_app_or in Hkv. destruct Hkv as [Hkv|[<-|Hkv]].
        * eapply Qlt_trans; [exact (H1 kv Hkv) | exact Hgt].
        * exact Hgt.
        * eapply Qle_lt_trans; [exact (H2 kv Hkv) | exact Hgt].
      + apply gtb_exact_false in Hgt. exists d1, (d2 ++ [x]).
        split; [now rewrite <- app_assoc|]. split; [exact H1|].
        intros kv Hkv. apply in_app_or in Hkv.
        destruct Hkv as [Hkv|[<-|[]]]; [exact (H2 kv Hkv) | exact Hgt]. }
  destruct (Hfold d [(k0, v0)] (k0, v0)) as (d1 & d2 & Heq & H1 & H2).
  { exists [], []. split; [reflexivity|]. split; intros kv []. }
  set (r := fold_left _ d (k0, v0)) in *.
  exists d1, (snd r), d2. split; [|split; [exact H1 | exact H2]].
  simpl in Heq. rewrite Heq. now destruct r.
Qed.

Lemma max_key_earliest_witness :
  exists d1 v d2,
    [(PStr "E", 0.2); (PStr "5", 0.3); (PStr "I", 0.3)]
    = d1 ++ (PStr "5", v) :: d2
    /\ (forall kv, In kv d1 -> snd kv < v)
    /\ (forall kv, In kv d2 -> snd kv <= v).
Proof.
  apply (max_key_earliest
           [(PStr "E", 0.2); (PStr "5", 0.3); (PStr "I", 0.3)] (PStr "5")).
  vm_compute. reflexivity.
Defined.

(** ** Rounding to binary64 is monotone *)

Section Binary64Rounding.

Local Open Scope Z_scope.

Lemma rne_bounds (A U : Z) :
  0 < U -> 0 <= A -> A / U <= rne A U <= A / U + 1.
Proof.
  intros HU HA. unfold rne. destruct (_ || _); lia.
Qed.

Lemma rne_mono (U A B : Z) :
  0 < U -> 0 <= A <= B -> rne A U <= rne B U.
Proof.
  intros HU [HA HAB].
  pose proof (Z.div_le_mono A B U HU HAB) as Hq.
  pose proof (rne_bounds A U HU HA) as HbA.
  pose proof (rne_bounds B U HU ltac:(lia)) as HbB.
  destruct (Z.eq_dec (A / U) (B / U)) as [Heq|Hne]; [|lia].
  pose proof (Z.div_mod A U ltac:(lia)) as HdA.
  pose proof (Z.div_mod B U ltac:(lia)) as HdB.
  pose proof (Z.mod_pos_bound A U HU) as HmA.
  pose proof (Z.mod_pos_bound B U HU) as HmB.
  assert (Hr : A mod U <= B mod U) by (rewrite Heq in HdA; lia).
  unfold rne. rewrite Heq.
  destruct (U <? 2 * (A mod U)) eqn:H1; destruct (U <? 2 * (B mod U)) eqn:H2;
    destruct (2 * (A mod U) =? U) eqn:H3; destruct (2 * (B mod U) =? U) eqn:H4;
    destruct (Z.odd (B / U)); simpl; lia.
Qed.

Lemma ulp_of_pos (A : Z) : 0 < ulp_of A.
Proof. unfold ulp_of. apply Z.pow_pos_nonneg; [lia|]. unfold scale. lia. Qed.

Lemma rounded_nonneg (A : Z) : 0 <= A -> 0 <= rounded A.
Proof.
  intros HA. unfold rounded. pose proof (ulp_of_pos A) as HU.
  pose proof (rne_bounds A (ulp_of A) HU HA).
  pose proof (Z.div_pos A (ulp_of A) HA HU). nia.
Qed.

Lemma rounded_0 : rounded 0 = 0.
Proof. reflexivity. Qed.

Lemma rounded_mono (A B : Z) : 0 <= A <= B -> rounded A <= rounded B.
Proof.
  intros [HA HAB].
  destruct (Z.eq_dec A 0) as [->|HA0];
    [rewrite rounded_0; apply rounded_nonneg; lia|].
  assert (HA' : 0 < A) by lia. assert (HB' : 0 < B) by lia.
  pose proof (Z.log2_le_mono A B HAB) as Hlog.
  pose proof (Z.log2_spec A HA') as [HlA HuA].
  pose proof (Z.log2_spec B HB') as [HlB HuB].
  pose proof (Z.log2_nonneg A) as HnA.
  unfold rounded, ulp_of.
  set (a := Z.max (Z.log2 A - 52) (scale - 1074)).
  set (b := Z.max (Z.log2 B - 52) (scale - 1074)).
  assert (Ha0 : 0 <= a) by (unfold a, scale; lia).
  assert (Hab : a <= b) by (unfold a, b; lia).
  assert (HUa : 0 < 2 ^ a) by (apply Z.pow_pos_nonneg; lia).
  assert (HUb : 0 < 2 ^ b) by (apply Z.pow_pos_nonneg; lia).
  destruct (Z.eq_dec a b) as [Heq|Hne].
  - rewrite <- Heq. apply Z.mul_le_mono_nonneg_l; [lia|].
    apply rne_mono; lia.
  - assert (Hb : b = Z.log2 B - 52) by (unfold a, b in *; lia).
    (* the smaller one stays below 2^(a+53), the larger above 2^(b+52) *)
    assert (H1 : 2 ^ a * rne A (2 ^ a) <= 2 ^ (a + 53)).
    { rewrite Z.pow_add_r by lia. apply Z.mul_le_mono_nonneg_l; [lia|].
      pose proof (rne_bounds A (2 ^ a) HUa HA).
      assert (A / 2 ^ a < 2 ^ 53); [|lia].
      apply Z.div_lt_upper_bound; [lia|].
      rewrite <- Z.pow_add_r by lia.
      eapply Z.lt_le_trans; [exact HuA|].
      apply Z.pow_le_mono_r; unfold a; lia. }
    assert (H2 : 2 ^ (b + 52) <= 2 ^ b * rne B (2 ^ b)).
    { rewrite Z.pow_add_r by lia. apply Z.mul_le_mono_nonneg_l; [lia|].
      pose proof (rne_bounds B (2 ^ b) HUb ltac:(lia)).
      assert (2 ^ 52 <= B / 2 ^ b); [|lia].
      apply Z.div_le_lower_bound; [lia|].
      rewrite <- Z.pow_add_r by lia.
      replace (b + 52) with (Z.log2 B) by lia. exact HlB. }
    assert (H3 : 2 ^ (a + 53) <= 2 ^ (b + 52))
      by (apply Z.pow_le_mono_r; lia).
    lia.
Qed.

(** ** The rounding of [SpecFloat] computes [rounded] *)

Lemma iter_pos_nat {A : Type} (f : A -> A) (p : positive) :
  forall x, SpecFloat.iter_pos f p x = Nat.iter (Pos.to_nat p) f x.
Proof.
  induction p as [p IH|p IH|]; intros x; cbn [SpecFloat.iter_pos].
  - rewrite !IH, Pos2Nat.inj_xI.
    replace (S (2 * Pos.to_nat p))%nat
      with (Pos.to_nat p + S (Pos.to_nat p))%nat by lia.
    rewrite Nat.iter_add, Nat.iter_succ_r. reflexivity.
  - rewrite !IH, Pos2Nat.inj_xO.
    replace (2 * Pos.to_nat p)%nat with (Pos.to_nat p + Pos.to_nat p)%nat by lia.
    rewrite Nat.iter_add. reflexivity.
  - reflexivity.
Qed.

Lemma shr_1_spec (m : Z) (r s : bool) :
  0 <= m ->
  shr_1 (Build_shr_record m r s)
  = Build_shr_record (m / 2) (Z.odd m) (r || s).
Proof.
  intros Hm. destruct m as [|p|p]; [reflexivity| |lia].
  destruct p as [p|p|].
  - replace (Zpos p~1 / 2) with (Zpos p)
      by (apply Z.div_unique with 1; lia).
    reflexivity.
  - replace (Zpos p~0 / 2) with (Zpos p)
      by (apply Z.div_unique with 0; lia).
    reflexivity.
  - reflexivity.
Qed.

(** [k + 1] shifts: the quotient, the last bit shifted out, and whether a bit
    shifted out earlier was set. *)
Lemma shr_iter (M : Z) (k : nat) :
  0 <= M ->
  Nat.iter (S k) shr_1 (Build_shr_record M false false)
  = Build_shr_record (M / 2 ^ Z.of_nat (S k))
      (Z.odd (M / 2 ^ Z.of_nat k))
      (negb (M mod 2 ^ Z.of_nat k =? 0)).
Proof.
  intros HM. induction k as [|k IH].
  - change (Nat.iter 1 shr_1 (Build_shr_record M false false))
      with (shr_1 (Build_shr_record M false false)).
    rewrite shr_1_spec by exact HM.
    change (2 ^ Z.of_nat 1) with 2. change (2 ^ Z.of_nat 0) with 1.
    rewrite Z.div_1_r, Z.mod_1_r. reflexivity.
  - change (Nat.iter (S (S k)) shr_1 (Build_shr_record M false false))
      with (shr_1 (Nat.iter (S k) shr_1 (Build_shr_record M false false))).
    rewrite IH.
    assert (Hp : 0 < 2 ^ Z.of_nat k) by (apply Z.pow_pos_nonneg; lia).
    assert (Hp' : 0 < 2 ^ Z.of_nat (S k)) by (apply Z.pow_pos_nonneg; lia).
    rewrite shr_1_spec by (apply Z.div_pos; lia).
    assert (Hpow : 2 ^ Z.of_nat (S k) = 2 ^ Z.of_nat k * 2)
      by (rewrite Nat2Z.inj_succ, Z.pow_succ_r by lia; lia).
    assert (Hpow' : 2 ^ Z.of_nat (S (S k)) = 2 ^ Z.of_nat (S k) * 2)
      by (rewrite (Nat2Z.inj_succ (S k)), Z.pow_succ_r by lia; lia).
    f_equal.
    + rewrite Hpow', Z.div_div by lia. reflexivity.
    + rewrite Hpow. rewrite Z.rem_mul_r by lia.
      pose proof (Z.mod_pos_bound M (2 ^ Z.of_nat k) Hp) as Hb1.
      pose proof (Z.mod_pos_bound (M / 2 ^ Z.of_nat k) 2 ltac:(lia)) as Hb2.
      rewrite Zodd_mod.
      destruct (Z.eqb_spec (M mod 2 ^ Z.of_nat k) 0) as [H0|H0];
        destruct (Z.eqb_spec ((M / 2 ^ Z.of_nat k) mod 2) 1) as [H1|H1];
        simpl; symmetry.
      * apply negb_true_iff, Z.eqb_neq. nia.
      * apply negb_false_iff, Z.eqb_eq. nia.
      * apply negb_true_iff, Z.eqb_neq. nia.
      * apply negb_true_iff, Z.eqb_neq. nia.
Qed.

Lemma shr_pos (M e : Z) (p : positive) :
  0 <= M ->
  shr (Build_shr_record M false false) e (Zpos p)
  = (Build_shr_record (M / 2 ^ Zpos p)
       (Z.odd (M / 2 ^ (Zpos p - 1)))
       (negb (M mod 2 ^ (Zpos p - 1) =? 0)),
     e + Zpos p).
Proof.
  intros HM. unfold shr. f_equal. rewrite iter_pos_nat.
  destruct (Pos2Nat.is_succ p) as [k Hk]. rewrite Hk.
  rewrite (shr_iter M k HM).
  assert (Hp : Zpos p = Z.of_nat (S k)) by (rewrite <- Hk; lia).
  rewrite Hp. replace (Z.of_nat (S k) - 1) with (Z.of_nat k) by lia.
  reflexivity.
Qed.

(** Rounding the shifted record is [rne]. *)
Lemma round_shifted (M n : Z) :
  0 <= M -> 0 < n ->
  round_nearest_even (M / 2 ^ n)
    (loc_of_shr_record
       (Build_shr_record (M / 2 ^ n) (Z.odd (M / 2 ^ (n - 1)))
          (negb (M mod 2 ^ (n - 1) =? 0))))
  = rne M (2 ^ n).
Proof.
  intros HM Hn.
  assert (Hh : 0 < 2 ^ (n - 1)) by (apply Z.pow_pos_nonneg; lia).
  assert (Hpow : 2 ^ n = 2 ^ (n - 1) * 2).
  { replace n with (Z.succ (n - 1)) at 1 by lia.
    rewrite Z.pow_succ_r by lia. lia. }
  set (h := 2 ^ (n - 1)) in *.
  pose proof (Z.div_mod M (2 ^ n) ltac:(lia)) as Hd.
  pose proof (Z.mod_pos_bound M (2 ^ n) ltac:(lia)) as Hb.
  set (q := M / 2 ^ n) in *. set (r := M mod 2 ^ n) in *.
  assert (Hcases : (r < h /\ M / h = 2 * q /\ M mod h = r)
                   \/ (h <= r /\ M / h = 2 * q + 1 /\ M mod h = r - h)).
  { destruct (Z_lt_le_dec r h) as [Hlt|Hge]; [left | right];
      (split; [assumption|]).
    - split; [symmetry; apply (Z.div_unique M h (2 * q) r); lia
             | symmetry; apply (Z.mod_unique M h (2 * q) r); lia].
    - split; [symmetry; apply (Z.div_unique M h (2 * q + 1) (r - h)); lia
             | symmetry; apply (Z.mod_unique M h (2 * q + 1) (r - h)); lia]. }
  unfold rne. fold q r. rewrite Hpow.
  destruct Hcases as [(Hr & Hq & Hm)|(Hr & Hq & Hm)]; rewrite Hq, Hm.
  - replace (Z.odd (2 * q)) with false
      by (symmetry; rewrite Z.odd_mul; reflexivity).
    replace (h * 2 <? 2 * r) with false by (symmetry; apply Z.ltb_ge; lia).
    replace (2 * r =? h * 2) with false by (symmetry; apply Z.eqb_neq; lia).
    cbn [orb andb]. destruct (negb (r =? 0)); reflexivity.
  - replace (Z.odd (2 * q + 1)) with true
      by (symmetry; rewrite Z.odd_add, Z.odd_mul; reflexivity).
    destruct (Z.eqb_spec (r - h) 0) as [H0|H0].
    + replace (h * 2 <? 2 * r) with false by (symmetry; apply Z.ltb_ge; lia).
      replace (2 * r =? h * 2) with true by (symmetry; apply Z.eqb_eq; lia).
      cbn [orb andb negb loc_of_shr_record round_nearest_even].
      rewrite <- Z.negb_odd. destruct (Z.odd q); reflexivity.
    + replace (h * 2 <? 2 * r) with true by (symmetry; apply Z.ltb_lt; lia).
      reflexivity.
Qed.

(** [rne] does not depend on the scale. *)
Lemma rne_scaled (M D T : Z) :
  0 < D -> 0 < T -> rne (M * T) (D * T) = rne M D.
Proof.
  intros HD HT. unfold rne.
  rewrite Z.div_mul_cancel_r by lia.
  rewrite Z.mul_mod_distr_r by lia.
  replace (D * T <? 2 * (M mod D * T)) with (D <? 2 * (M mod D)).
  2:{ destruct (Z.ltb_spec D (2 * (M mod D)));
      symmetry; [apply Z.ltb_lt | apply Z.ltb_ge]; nia. }
  replace (2 * (M mod D * T) =? D * T) with (2 * (M mod D) =? D).
  2:{ destruct (Z.eqb_spec (2 * (M mod D)) D);
      symmetry; [apply Z.eqb_eq | apply Z.eqb_neq]; nia. }
  reflexivity.
Qed.

Lemma digits2_size (p : positive) : digits2_pos p = Pos.size p.
Proof. induction p; simpl; congruence. Qed.

Lemma digits2_log2 (p : positive) :
  Zpos (digits2_pos p) = Z.log2 (Zpos p) + 1.
Proof.
  rewrite digits2_size. destruct p; simpl; try reflexivity;
    rewrite ?Pos2Z.inj_succ; lia.
Qed.

Lemma fexp_eq (x : Z) : fexp prec emax x = Z.max (x - 53) (-1074).
Proof. reflexivity. Qed.

Lemma pow2_pos (x : Z) : 0 <= x -> 0 < 2 ^ x.
Proof. intros Hx. apply Z.pow_pos_nonneg; lia. Qed.

(** The unit in the last place of [M * 2 ^ e], scaled. *)
Lemma ulp_of_scaled (M : positive) (e : Z) :
  - scale <= e ->
  ulp_of (Zpos M * 2 ^ (e + scale))
  = 2 ^ (fexp prec emax (Zpos (digits2_pos M) + e) + scale).
Proof.
  intros He. unfold ulp_of.
  rewrite Z.log2_mul_pow2 by lia.
  rewrite fexp_eq, digits2_log2. f_equal. unfold scale in *. lia.
Qed.

(** A rounded mantissa is brought back to at most 53 bits without loss. *)
Lemma renormalize (N E : Z) :
  0 < N <= 2 ^ 53 -> -1074 <= E ->
  exists m' e',
    shr_fexp prec emax N E loc_Exact
    = (Build_shr_record (Zpos m') false false, e')
    /\ Zpos m' * 2 ^ (e' + scale) = N * 2 ^ (E + scale)
    /\ E <= e'.
Proof.
  intros [HN0 HN] HE. destruct N as [|N'|N']; try lia.
  unfold shr_fexp. cbn [Zdigits2 shr_record_of_loc].
  rewrite fexp_eq, digits2_log2.
  pose proof (Z.log2_spec (Zpos N') ltac:(lia)) as [Hl Hu].
  pose proof (Z.log2_nonneg (Zpos N')) as Hn.
  assert (Hlog : Z.log2 (Zpos N') <= 53).
  { pose proof (Z.log2_le_mono _ _ HN) as Hm.
    rewrite Z.log2_pow2 in Hm by lia. exact Hm. }
  destruct (Z.eq_dec (Z.log2 (Zpos N')) 53) as [H53|H53].
  - assert (HNeq : Zpos N' = 2 ^ 53) by (rewrite H53 in Hl; lia).
    replace (Z.max (Z.log2 (Zpos N') + 1 + E - 53) (-1074) - E) with 1 by lia.
    rewrite (shr_pos (Zpos N') E 1) by lia.
    rewrite HNeq.
    change (2 ^ 53 / 2 ^ 1) with (Zpos (2 ^ 52)).
    change (Z.odd (2 ^ 53 / 2 ^ (1 - 1))) with false.
    change (negb (2 ^ 53 mod 2 ^ (1 - 1) =? 0)) with false.
    exists (2 ^ 52)%positive, (E + 1). split; [reflexivity|]. split; [|lia].
    replace (E + 1 + scale) with (Z.succ (E + scale)) by lia.
    rewrite Z.pow_succ_r by (unfold scale; lia).
    change (Zpos (2 ^ 52)) with (2 ^ 52). change (2 ^ 53) with (2 ^ 52 * 2).
    lia.
  - assert (Hle : Z.max (Z.log2 (Zpos N') + 1 + E - 53) (-1074) - E <= 0) by lia.
    exists N', E. split; [|split; [reflexivity | lia]].
    unfold shr.
    destruct (Z.max (Z.log2 (Zpos N') + 1 + E - 53) (-1074) - E);
      [reflexivity | lia | reflexivity].
Qed.

(** The value of a rounded product. *)
Lemma round_aux_value (M : positive) (e : Z) :
  - scale <= e ->
  match binary_round_aux prec emax false (Zpos M) e loc_Exact with
  | S754_zero s => s = false /\ rounded (Zpos M * 2 ^ (e + scale)) = 0
  | S754_finite s m' e' =>
      s = false
      /\ Zpos m' * 2 ^ (e' + scale) = rounded (Zpos M * 2 ^ (e + scale))
      /\ - scale <= e'
  | S754_infinity _ => 2 ^ scale < rounded (Zpos M * 2 ^ (e + scale))
  | S754_nan => False
  end.
Proof.
  intros He. unfold rounded. rewrite (ulp_of_scaled M e He).
  unfold binary_round_aux, shr_fexp at 1.
  cbn [Zdigits2 shr_record_of_loc].
  set (E := fexp prec emax (Zpos (digits2_pos M) + e)).
  assert (HE : -1074 <= E) by (unfold E; rewrite fexp_eq; lia).
  assert (HEd : Zpos (digits2_pos M) + e - 53 <= E)
    by (unfold E; rewrite fexp_eq; lia).
  assert (HT : 0 < 2 ^ (e + scale)) by (apply pow2_pos; lia).
  destruct (Z_le_gt_dec (E - e) 0) as [Hn|Hn].
  - (* no shift: the product is a binary64 number *)
    assert (Hshr : shr (Build_shr_record (Zpos M) false false) e (E - e)
                   = (Build_shr_record (Zpos M) false false, e)).
    { unfold shr. destruct (E - e); [reflexivity | lia | reflexivity]. }
    rewrite Hshr. cbn [shr_m loc_of_shr_record round_nearest_even].
    unfold shr_fexp. cbn [Zdigits2 shr_record_of_loc]. fold E.
    rewrite Hshr. cbn [shr_m].
    assert (Hval : 2 ^ (E + scale)
                   * rne (Zpos M * 2 ^ (e + scale)) (2 ^ (E + scale))
                   = Zpos M * 2 ^ (e + scale)).
    { replace (e + scale) with ((e - E) + (E + scale)) by lia.
      rewrite (Z.pow_add_r 2 (e - E) (E + scale)) by (unfold scale in *; lia).
      assert (HU : 0 < 2 ^ (E + scale)) by (apply pow2_pos; unfold scale; lia).
      unfold rne. rewrite Z.mul_assoc, Z.div_mul, Z.mod_mul by lia.
      replace (2 ^ (E + scale) <? 2 * 0) with false
        by (symmetry; apply Z.ltb_ge; lia).
      replace (2 * 0 =? 2 ^ (E + scale)) with false
        by (symmetry; apply Z.eqb_neq; lia).
      cbn [orb andb]. lia. }
    rewrite Hval.
    destruct (e <=? emax - prec) eqn:Hov.
    + repeat split. lia.
    + apply Z.leb_gt in Hov. change (emax - prec) with 971 in Hov.
      assert (2 ^ scale < 2 ^ (e + scale))
        by (apply Z.pow_lt_mono_r; unfold scale; lia).
      nia.
  - (* a shift by [E - e] bits, then rounding *)
    destruct (E - e) as [|p|p] eqn:Hp; try lia.
    rewrite (shr_pos (Zpos M) e p) by lia.
    cbn [shr_m]. rewrite (round_shifted (Zpos M) (Zpos p)) by lia.
    replace (e + Zpos p) with E by lia.
    assert (Hrne : rne (Zpos M * 2 ^ (e + scale)) (2 ^ (E + scale))
                   = rne (Zpos M) (2 ^ Zpos p)).
    { replace (E + scale) with (Zpos p + (e + scale)) by lia.
      rewrite (Z.pow_add_r 2 (Zpos p) (e + scale)) by lia.
      apply rne_scaled; [apply pow2_pos|]; lia. }
    rewrite Hrne. set (N := rne (Zpos M) (2 ^ Zpos p)).
    assert (HP : 0 < 2 ^ Zpos p) by (apply pow2_pos; lia).
    pose proof (rne_bounds (Zpos M) (2 ^ Zpos p) HP ltac:(lia)) as HbN.
    fold N in HbN.
    assert (Hq0 : 0 <= Zpos M / 2 ^ Zpos p) by (apply Z.div_pos; lia).
    assert (Hq : Zpos M / 2 ^ Zpos p < 2 ^ 53).
    { apply Z.div_lt_upper_bound; [lia|].
      rewrite <- Z.pow_add_r by lia.
      pose proof (Z.log2_spec (Zpos M) ltac:(lia)) as [_ Hu].
      eapply Z.lt_le_trans; [exact Hu|].
      apply Z.pow_le_mono_r; [lia|].
      rewrite digits2_log2 in HEd. lia. }
    destruct (Z.eq_dec N 0) as [HN0|HN0].
    + rewrite HN0. unfold shr_fexp. cbn [Zdigits2 shr_record_of_loc].
      assert (Hshr : shr (Build_shr_record 0 false false) E
                       (fexp prec emax (0 + E) - E)
                     = (Build_shr_record 0 false false, E)).
      { unfold shr. rewrite fexp_eq.
        destruct (Z.max (0 + E - 53) (-1074) - E) eqn:Hs;
          [reflexivity | lia | reflexivity]. }
      rewrite Hshr. cbn [shr_m]. split; [reflexivity | lia].
    + destruct (renormalize N E ltac:(lia) HE) as (m' & e' & Hs & Hv & He').
      rewrite Hs. cbn [shr_m].
      destruct (e' <=? emax - prec) eqn:Hov.
      * repeat split; [rewrite Hv; lia | unfold scale; lia].
      * apply Z.leb_gt in Hov. change (emax - prec) with 971 in Hov.
        assert (2 ^ scale < 2 ^ (e' + scale))
          by (apply Z.pow_lt_mono_r; unfold scale; lia).
        rewrite Z.mul_comm, <- Hv. nia.
Qed.

(** ** Values of binary64 numbers between 0 and 1 *)

Lemma unit_nonneg (f : spec_float) : unit_sf f -> nonneg_sf f.
Proof. destruct f as [s|s| |[|] m e]; simpl; tauto. Qed.

Lemma canonical_bounds (m : positive) (e : Z) :
  canonical_mantissa prec emax m e = true ->
  -1074 <= e
  /\ Zpos m < 2 ^ 53
  /\ (-1074 < e -> 2 ^ 52 <= Zpos m).
Proof.
  unfold canonical_mantissa. rewrite fexp_eq, digits2_log2.
  intros Hc. apply Z.eqb_eq in Hc.
  pose proof (Z.log2_spec (Zpos m) ltac:(lia)) as [Hl Hu].
  pose proof (Z.log2_nonneg (Zpos m)) as Hn.
  split; [lia|]. split.
  - eapply Z.lt_le_trans; [exact Hu|]. apply Z.pow_le_mono_r; lia.
  - intros He. replace 52 with (Z.log2 (Zpos m)) by lia. exact Hl.
Qed.

Lemma valid_canonical (s : bool) (m : positive) (e : Z) :
  valid_binary (S754_finite s m e) = true ->
  canonical_mantissa prec emax m e = true.
Proof.
  cbn [SpecFloat.valid_binary]. unfold bounded.
  intros Hv. apply andb_prop in Hv. tauto.
Qed.

Lemma value_lt_exponent (m1 m2 : positive) (e1 e2 : Z) :
  canonical_mantissa prec emax m1 e1 = true ->
  canonical_mantissa prec emax m2 e2 = true ->
  e1 < e2 ->
  Zpos m1 * 2 ^ (e1 + scale) < Zpos m2 * 2 ^ (e2 + scale).
Proof.
  intros H1 H2 He.
  destruct (canonical_bounds m1 e1 H1) as (He1 & Hm1 & _).
  destruct (canonical_bounds m2 e2 H2) as (He2 & _ & Hm2).
  specialize (Hm2 ltac:(lia)).
  assert (Hp1 : 0 < 2 ^ (e1 + scale)) by (apply pow2_pos; unfold scale; lia).
  assert (Hp2 : 2 ^ (e1 + scale) * 2 <= 2 ^ (e2 + scale)).
  { replace (2 ^ (e1 + scale) * 2) with (2 ^ Z.succ (e1 + scale))
      by (rewrite Z.pow_succ_r by (unfold scale; lia); lia).
    apply Z.pow_le_mono_r; lia. }
  change (2 ^ 53) with (2 ^ 52 * 2) in Hm1. nia.
Qed.

(** On canonical positive numbers [SFcompare] compares the values. *)
Lemma compare_value (m1 m2 : positive) (e1 e2 : Z) :
  canonical_mantissa prec emax m1 e1 = true ->
  canonical_mantissa prec emax m2 e2 = true ->
  SFcompare (S754_finite false m1 e1) (S754_finite false m2 e2)
  = Some (sf_value (S754_finite false m1 e1) ?= sf_value (S754_finite false m2 e2)).
Proof.
  intros H1 H2. cbn [SFcompare sf_value]. f_equal.
  destruct (Z.compare_spec e1 e2) as [Heq|Hlt|Hgt].
  - subst e2. destruct (canonical_bounds m1 e1 H1) as (He1 & _).
    assert (HT : 2 ^ (e1 + scale) > 0)
      by (apply Z.lt_gt, pow2_pos; unfold scale; lia).
    rewrite <- (Zmult_compare_compat_r _ _ _ HT). reflexivity.
  - symmetry. apply Z.compare_lt_iff. now apply value_lt_exponent.
  - symmetry. apply Z.compare_gt_iff. now apply value_lt_exponent.
Qed.

Lemma value_nonneg (f : spec_float) : 0 <= sf_value f.
Proof.
  destruct f as [s|s| |[|] m e]; cbn [sf_value]; lia.
Qed.

Lemma value_positive (m : positive) (e : Z) :
  canonical_mantissa prec emax m e = true ->
  0 < sf_value (S754_finite false m e).
Proof.
  intros Hc. destruct (canonical_bounds m e Hc) as (He & _).
  cbn [sf_value]. assert (0 < 2 ^ (e + scale)) by (apply pow2_pos; unfold scale; lia).
  lia.
Qed.

(** [<] on valid numbers that are not negative is [<] on their values. *)
Lemma SFltb_value (x y : spec_float) :
  valid_binary x = true -> valid_binary y = true ->
  nonneg_sf x -> nonneg_sf y ->
  SFltb x y = (sf_value x <? sf_value y).
Proof.
  intros Hvx Hvy Hx Hy. unfold SFltb.
  destruct x as [sx|sx| |sx mx ex], y as [sy|sy| |sy my ey];
    try contradiction; try destruct sx; try destruct sy; try contradiction.
  all: try reflexivity.
  - pose proof (value_positive my ey (valid_canonical _ _ _ Hvy)) as Hp.
    cbn [SFcompare]. symmetry. apply Z.ltb_lt. exact Hp.
  - pose proof (value_positive my ey (valid_canonical _ _ _ Hvy)) as Hp.
    cbn [SFcompare]. symmetry. apply Z.ltb_lt. exact Hp.
  - pose proof (value_positive mx ex (valid_canonical _ _ _ Hvx)) as Hp.
    cbn [SFcompare]. symmetry. apply Z.ltb_ge. cbn [sf_value] in *. lia.
  - pose proof (value_positive mx ex (valid_canonical _ _ _ Hvx)) as Hp.
    cbn [SFcompare]. symmetry. apply Z.ltb_ge. cbn [sf_value] in *. lia.
  - rewrite (compare_value mx my ex ey (valid_canonical _ _ _ Hvx)
               (valid_canonical _ _ _ Hvy)).
    unfold Z.ltb. destruct (_ ?= _); reflexivity.
Qed.

Lemma rounded_one : rounded (2 ^ scale) = 2 ^ scale.
Proof. vm_compute. reflexivity. Qed.

(** The product of two numbers between 0 and 1 is such a number, and its
    value is the rounded product of the values. *)
Lemma SFmul_value (x y : spec_float) :
  valid_binary x = true -> valid_binary y = true ->
  unit_sf x -> unit_sf y ->
  unit_sf (SF64mul x y)
  /\ sf_value (SF64mul x y) = rounded (sf_value x * sf_value y / 2 ^ scale).
Proof.
  intros Hvx Hvy Hx Hy. unfold SF64mul.
  destruct x as [sx|sx| |sx mx ex], y as [sy|sy| |sy my ey];
    try contradiction; try destruct sx; try destruct sy; try contradiction.
  all: try (split; [exact I | cbn [SFmul sf_value];
                    rewrite ?Z.mul_0_l, ?Z.mul_0_r; reflexivity]).
  destruct (canonical_bounds mx ex (valid_canonical _ _ _ Hvx)) as (Hex & _).
  destruct (canonical_bounds my ey (valid_canonical _ _ _ Hvy)) as (Hey & _).
  cbn [unit_sf] in Hx, Hy. cbn [sf_value] in *.
  cbn [SFmul xorb].
  assert (HS : 0 < 2 ^ scale) by (apply pow2_pos; unfold scale; lia).
  assert (Hprod : Zpos mx * 2 ^ (ex + scale) * (Zpos my * 2 ^ (ey + scale))
                  / 2 ^ scale
                  = Zpos (mx * my) * 2 ^ (ex + ey + scale)).
  { assert (Hpow : 2 ^ (ex + scale) * 2 ^ (ey + scale)
                   = 2 ^ (ex + ey + scale) * 2 ^ scale).
    { rewrite <- !Z.pow_add_r by (unfold scale; lia). f_equal. lia. }
    replace (Zpos mx * 2 ^ (ex + scale) * (Zpos my * 2 ^ (ey + scale)))
      with (Zpos mx * Zpos my * (2 ^ (ex + scale) * 2 ^ (ey + scale)))
      by ring.
    rewrite Hpow, Pos2Z.inj_mul, Z.mul_assoc. apply Z.div_mul. lia. }
  rewrite Hprod.
  assert (HA : Zpos (mx * my) * 2 ^ (ex + ey + scale) <= 2 ^ scale).
  { rewrite <- Hprod. apply Z.div_le_upper_bound; [lia|].
    apply Z.mul_le_mono_nonneg; try lia;
      apply Z.mul_nonneg_nonneg; try lia; apply Z.pow_nonneg; lia. }
  assert (HA0 : 0 <= Zpos (mx * my) * 2 ^ (ex + ey + scale))
    by (apply Z.mul_nonneg_nonneg; [lia | apply Z.pow_nonneg; lia]).
  pose proof (rounded_mono _ _ (conj HA0 HA)) as Hr.
  rewrite rounded_one in Hr.
  pose proof (round_aux_value (mx * my) (ex + ey) ltac:(unfold scale; lia))
    as Hround.
  destruct (binary_round_aux prec emax false (Zpos (mx * my)) (ex + ey) loc_Exact)
    as [s|s| |s m' e'].
  - destruct Hround as [-> Hz]. split; [exact I | now rewrite Hz].
  - lia.
  - contradiction.
  - destruct Hround as (-> & Hv & He'). cbn [unit_sf sf_value].
    rewrite Hv. split; [exact Hr | reflexivity].
Qed.

Lemma SFleb_value (x y : spec_float) :
  valid_binary x = true -> valid_binary y = true ->
  nonneg_sf x -> nonneg_sf y ->
  SFleb x y = (sf_value x <=? sf_value y).
Proof.
  intros Hvx Hvy Hx Hy. unfold SFleb.
  destruct x as [sx|sx| |sx mx ex], y as [sy|sy| |sy my ey];
    try contradiction; try destruct sx; try destruct sy; try contradiction.
  all: try reflexivity.
  - pose proof (value_positive my ey (valid_canonical _ _ _ Hvy)) as Hp.
    cbn [SFcompare]. symmetry. apply Z.leb_le. cbn [sf_value] in *. lia.
  - pose proof (value_positive my ey (valid_canonical _ _ _ Hvy)) as Hp.
    cbn [SFcompare]. symmetry. apply Z.leb_le. cbn [sf_value] in *. lia.
  - pose proof (value_positive mx ex (valid_canonical _ _ _ Hvx)) as Hp.
    cbn [SFcompare]. symmetry. apply Z.leb_gt. exact Hp.
  - pose proof (value_positive mx ex (valid_canonical _ _ _ Hvx)) as Hp.
    cbn [SFcompare]. symmetry. apply Z.leb_gt. exact Hp.
  - rewrite (compare_value mx my ex ey (valid_canonical _ _ _ Hvx)
               (valid_canonical _ _ _ Hvy)).
    unfold Z.leb. destruct (_ ?= _); reflexivity.
Qed.

End Binary64Rounding.

(** ** Binary64 probabilities are ordered *)

Section FloatOrder.
Local Open Scope Z_scope.

Lemma is_prob_unit (x : float) :
  is_prob x = true <-> unit_sf (Prim2SF x).
Proof.
  unfold is_prob. cbn [gtb float_arith].
  rewrite !FloatAxioms.ltb_spec.
  replace (Prim2SF (lit (-1.0)%Q))
    with (S754_finite true 4503599627370496 (-52)) by (vm_compute; reflexivity).
  replace (Prim2SF (lit 0.0%Q)) with (S754_zero false)
    by (vm_compute; reflexivity).
  replace (Prim2SF (lit 1.0%Q))
    with (S754_finite false 4503599627370496 (-52)) by (vm_compute; reflexivity).
  pose proof (Prim2SF_valid x) as Hv.
  destruct (Prim2SF x) as [s|s| |s m e].
  - destruct s; vm_compute; tauto.
  - destruct s; vm_compute; intuition congruence.
  - vm_compute. intuition congruence.
  - destruct s.
    { cbn [unit_sf SFltb SFcompare andb negb].
      rewrite andb_false_r. cbn [andb]. intuition congruence. }
    replace (SFltb (S754_finite true 4503599627370496 (-52))
               (S754_finite false m e)) with true by reflexivity.
    replace (SFltb (S754_finite false m e) (S754_zero false)) with false
      by reflexivity.
    cbn [andb negb].
    rewrite (SFltb_value (S754_finite false 4503599627370496 (-52))
               (S754_finite false m e));
      try assumption; try reflexivity; try exact I.
    cbn [unit_sf].
    change (sf_value (S754_finite false 4503599627370496 (-52)))
      with (2 ^ scale).
    rewrite negb_true_iff, Z.ltb_ge. tauto.
Qed.

(** [>] on probabilities is [>] on their values. *)
Lemma gtb_value (a b : float) :
  is_prob a = true -> is_prob b = true ->
  gtb a b = (sf_value (Prim2SF b) <? sf_value (Prim2SF a)).
Proof.
  intros Ha Hb. cbn [gtb float_arith]. rewrite FloatAxioms.ltb_spec.
  apply SFltb_value; try apply Prim2SF_valid;
    now apply unit_nonneg, is_prob_unit.
Qed.

Lemma mul_value (a b : float) :
  is_prob a = true -> is_prob b = true ->
  is_prob (mul a b) = true
  /\ sf_value (Prim2SF (mul a b))
     = rounded (sf_value (Prim2SF a) * sf_value (Prim2SF b) / 2 ^ scale).
Proof.
  intros Ha Hb. cbn [mul float_arith]. rewrite FloatAxioms.mul_spec.
  destruct (SFmul_value (Prim2SF a) (Prim2SF b)
              (Prim2SF_valid a) (Prim2SF_valid b)
              (proj1 (is_prob_unit a) Ha) (proj1 (is_prob_unit b) Hb))
    as [Hu Hv].
  split; [|exact Hv].
  apply is_prob_unit. rewrite FloatAxioms.mul_spec. exact Hu.
Qed.

End FloatOrder.

#[export] Instance float_ordered : Ordered float.
Proof.
  split.
  - vm_compute. reflexivity.
  - intros a b Ha Hb. rewrite (gtb_value a b Ha Hb), (gtb_value b a Hb Ha).
    rewrite Z.ltb_lt, Z.ltb_ge. lia.
  - intros a b c Ha Hb Hc.
    rewrite (gtb_value a b Ha Hb), (gtb_value b c Hb Hc), (gtb_value a c Ha Hc).
    rewrite !Z.ltb_ge. lia.
  - intros a b Ha Hb. apply (mul_value a b Ha Hb).
  - intros a b c Ha Hb Hc.
    destruct (mul_value a c Ha Hc) as [Hac Hvac].
    destruct (mul_value b c Hb Hc) as [Hbc Hvbc].
    rewrite (gtb_value a b Ha Hb), (gtb_value _ _ Hac Hbc), Hvac, Hvbc.
    rewrite !Z.ltb_ge. intros Hle.
    pose proof (value_nonneg (Prim2SF a)).
    pose proof (value_nonneg (Prim2SF c)).
    apply rounded_mono. split.
    + apply Z.div_pos; [|apply pow2_pos; unfold scale; lia].
      now apply Z.mul_nonneg_nonneg.
    + apply Z.div_le_mono; [apply pow2_pos; unfold scale; lia|].
      now apply Z.mul_le_mono_nonneg_r.
Qed.

(** ** The decoder in an ordered arithmetic: the returned path is maximal *)

Lemma last_In {A : Type} (l : list A) (d : A) : l <> [] -> In (last l d) l.
Proof.
  induction l as [|x l IH]; [congruence|]. intros _.
  destruct l as [|y l]; [left; reflexivity|].
  right. apply IH. discriminate.
Qed.

Section OrderedDecoder.

Context {num : Type} {A : Arith num} {L : Lawful num} {O : Ordered num}.
Variable m : Model num.
Hypothesis Hdec : decodable m = true.
Hypothesis Hprob : prob_model m = true.

Let states := hmm_states m.

Lemma is_prob_not_negative (x : num) :
  is_prob x = true -> not_negative x = true.
Proof.
  unfold is_prob, not_negative. intros Hx.
  apply andb_prop in Hx. destruct Hx as [Hx _].
  apply andb_prop in Hx. tauto.
Qed.

Lemma prob_dict_nonneg (d : dict num) :
  prob_dict d = true -> nonneg_dict d = true.
Proof.
  unfold prob_dict, nonneg_dict. rewrite !forallb_forall.
  intros Hd kv Hin. apply is_prob_not_negative, Hd, Hin.
Qed.

Lemma prob_model_nonneg : nonneg_model m = true.
Proof.
  unfold prob_model in Hprob. unfold nonneg_model.
  apply andb_prop in Hprob. destruct Hprob as [Hst He].
  apply andb_prop in Hst. destruct Hst as [Hs Ht].
  rewrite (prob_dict_nonneg _ Hs). cbn [andb].
  rewrite forallb_forall in Ht, He.
  apply andb_true_intro. split; apply forallb_forall; intros kr Hin;
    apply prob_dict_nonneg; auto.
Qed.

Lemma get0_prob (d : dict num) (k : pyval) :
  prob_dict d = true -> is_prob (get0 d k) = true.
Proof.
  unfold get0, prob_dict. induction d as [|[k' v] d IH]; simpl.
  - intros _. apply prob_zero.
  - intros Hd. apply andb_prop in Hd. destruct Hd as [Hv Hd].
    destruct (pyval_eqb k k'); [exact Hv | exact (IH Hd)].
Qed.

Lemma row_of_prob (d : dict (dict num)) (k : pyval) :
  forallb (fun kr => prob_dict (snd kr)) d = true ->
  prob_dict (row_of d k) = true.
Proof.
  unfold row_of. induction d as [|[k' r] d IH]; simpl.
  - reflexivity.
  - intros Hd. apply andb_prop in Hd. destruct Hd as [Hr Hd].
    destruct (pyval_eqb k k'); [exact Hr | exact (IH Hd)].
Qed.

Lemma start_prob (s : pyval) : is_prob (start_of m s) = true.
Proof.
  unfold prob_model in Hprob. apply andb_prop in Hprob.
  destruct Hprob as [Hst _]. apply andb_prop in Hst.
  apply get0_prob. tauto.
Qed.

Lemma trans_prob (a b : pyval) : is_prob (trans_of m a b) = true.
Proof.
  unfold prob_model in Hprob. apply andb_prop in Hprob.
  destruct Hprob as [Hst _]. apply andb_prop in Hst.
  apply get0_prob, row_of_prob. tauto.
Qed.

Lemma emit_prob (s b : pyval) : is_prob (emit_of m s b) = true.
Proof.
  unfold prob_model in Hprob. apply andb_prop in Hprob.
  apply get0_prob, row_of_prob. tauto.
Qed.

Lemma gtb_irrefl (a : num) : is_prob a = true -> gtb a a = false.
Proof.
  intros Ha. destruct (gtb a a) eqn:Hg; [|reflexivity].
  pose proof (prob_gt_asym a a Ha Ha Hg). congruence.
Qed.

Lemma candidate_prob V c b p :
  (forall s, is_prob (V s) = true) ->
  is_prob (candidate m V c b p) = true.
Proof.
  intros HV. unfold candidate.
  apply prob_mul; [apply prob_mul; [apply HV | apply trans_prob]
                  | apply emit_prob].
Qed.

(** The innermost loop keeps a probability no candidate exceeds. *)
Lemma pick_above_prob V c b (l : list pyval) :
  (forall s, is_prob (V s) = true) ->
  forall best,
  is_prob (fst best) = true ->
  is_prob (fst (fold_left (pick m V c b) l best)) = true
  /\ gtb (fst best) (fst (fold_left (pick m V c b) l best)) = false
  /\ forall p, In p l ->
       gtb (candidate m V c b p) (fst (fold_left (pick m V c b) l best))
       = false.
Proof.
  intros HV. induction l as [|x l IH]; intros best Hbest; cbn [fold_left].
  - split; [exact Hbest|]. split; [now apply gtb_irrefl | intros p []].
  - pose proof (candidate_prob V c b x HV) as Hx.
    assert (Hstep : is_prob (fst (pick m V c b best x)) = true
                    /\ gtb (fst best) (fst (pick m V c b best x)) = false
                    /\ gtb (candidate m V c b x) (fst (pick m V c b best x))
                       = false).
    { unfold pick.
      destruct (gtb (candidate m V c b x) (fst best)) eqn:Hgt; cbn [fst].
      - split; [exact Hx|]. split; [|now apply gtb_irrefl].
        now apply prob_gt_asym.
      - split; [exact Hbest|]. split; [now apply gtb_irrefl | exact Hgt]. }
    destruct Hstep as (Hp & Hb & Hc).
    destruct (IH (pick m V c b best x) Hp) as (Hr & Hle & Hall).
    split; [exact Hr|]. split.
    + exact (prob_le_trans _ _ _ Hbest Hp Hr Hb Hle).
    + intros p [<-|Hin]; [|exact (Hall p Hin)].
      exact (prob_le_trans _ _ _ Hx Hp Hr Hc Hle).
Qed.

Lemma next_row_prob V b c :
  (forall s, is_prob (V s) = true) -> is_prob (next_row m V b c) = true.
Proof.
  intros HV. unfold next_row, best_of.
  apply (pick_above_prob V c b (hmm_states m) HV (lit 0.0, PNone)).
  apply prob_zero.
Qed.

Lemma candidate_below_prob V c b p :
  (forall s, is_prob (V s) = true) ->
  In p states ->
  gtb (candidate m V c b p) (next_row m V b c) = false.
Proof.
  intros HV Hp. unfold next_row, best_of.
  apply (pick_above_prob V c b (hmm_states m) HV (lit 0.0, PNone));
    [apply prob_zero | exact Hp].
Qed.

Lemma first_row_prob (b s : pyval) : is_prob (first_row m b s) = true.
Proof.
  unfold first_row. apply prob_mul; [apply start_prob | apply emit_prob].
Qed.

Lemma last_row_prob (bs : list pyval) :
  forall V,
  (forall s, is_prob (V s) = true) ->
  forall s, is_prob (last (rows_from m V bs) V s) = true.
Proof.
  induction bs as [|b bs IH]; intros V HV s; [apply HV|].
  cbn [rows_from]. rewrite last_cons_default.
  apply IH. intros s'. now apply next_row_prob.
Qed.

Lemma joint_from_prob (path bases : list pyval) :
  forall acc prev,
  is_prob acc = true -> is_prob (joint_from m acc prev path bases) = true.
Proof.
  revert bases. induction path as [|p path IH]; intros bases acc prev Ha;
    cbn [joint_from]; [exact Ha|].
  destruct bases as [|b bases]; [exact Ha|].
  apply IH. apply prob_mul; [apply prob_mul; [exact Ha | apply trans_prob]
                            | apply emit_prob].
Qed.

(** No path into a state has a larger product than the state's entry in
    the row of the path's last position. *)
Lemma rows_dominate_prob (bs : list pyval) :
  forall V path acc c,
  (forall s, is_prob (V s) = true) ->
  In c states -> Forall (fun s => In s states) path ->
  List.length path = List.length bs ->
  is_prob acc = true -> gtb acc (V c) = false ->
  gtb (joint_from m acc c path bs)
      (last (rows_from m V bs) V (last path c)) = false.
Proof.
  induction bs as [|b bs IH]; intros V path acc c HV Hc Hpath Hlen Ha Hle.
  - destruct path; [exact Hle | discriminate].
  - destruct path as [|p path]; [discriminate|].
    inversion Hpath as [|? ? Hp Hpath']; subst.
    cbn [rows_from joint_from]. rewrite !last_cons_default.
    pose proof (trans_prob c p) as Ht. pose proof (emit_prob p b) as He.
    pose proof (prob_mul _ _ Ha Ht) as Hat.
    pose proof (prob_mul _ _ (HV c) Ht) as Hvt.
    apply IH; try assumption.
    + intros s. now apply next_row_prob.
    + simpl in Hlen. lia.
    + now apply prob_mul.
    + apply (prob_le_trans _ (candidate m V p b c) _).
      * now apply prob_mul.
      * now apply candidate_prob.
      * now apply next_row_prob.
      * unfold candidate. apply prob_mul_le; try assumption.
        apply prob_mul_le; try assumption. apply HV.
      * now apply candidate_below_prob.
Qed.

(** [max] returns a state of maximal value. *)
Lemma max_key_above_prob (V : pyval -> num) :
  (forall s, is_prob (V s) = true) ->
  states <> [] ->
  exists final,
    max_key (as_dict m V) = Ok final
    /\ forall c, In c states -> gtb (V c) (V final) = false.
Proof.
  intros HV. unfold as_dict, max_key. fold states.
  destruct states as [|s0 l]; [congruence|]. intros _. cbn [map].
  eexists. split; [reflexivity|].
  assert (Hfold : forall l' best,
            snd best = V (fst best) ->
            let r := fold_left
                       (fun (best : pyval * num) (kv : pyval * num) =>
                          if gtb (snd kv) (snd best) then kv else best)
                       (map (fun s => (s, V s)) l') best in
            snd r = V (fst r) /\ gtb (snd best) (snd r) = false
            /\ forall c, In c l' -> gtb (V c) (snd r) = false).
  { induction l' as [|x l' IH]; intros best Hbest; cbn [map fold_left snd].
    - split; [exact Hbest|]. split; [|intros c []].
      rewrite Hbest. apply gtb_irrefl, HV.
    - assert (Hb : is_prob (snd best) = true) by (rewrite Hbest; apply HV).
      destruct (gtb (V x) (snd best)) eqn:Hgt.
      + destruct (IH (x, V x) eq_refl) as (Hr & Hle & Hall).
        cbn [snd fst] in Hle.
        assert (Hrp : is_prob (snd (fold_left
                         (fun (best : pyval * num) (kv : pyval * num) =>
                            if gtb (snd kv) (snd best) then kv else best)
                         (map (fun s => (s, V s)) l') (x, V x))) = true)
          by (rewrite Hr; apply HV).
        split; [exact Hr|]. split.
        * apply (prob_le_trans _ (V x) _ Hb (HV x) Hrp); [|exact Hle].
          apply prob_gt_asym; auto.
        * intros c [<-|Hc]; [exact Hle | exact (Hall c Hc)].
      + destruct (IH best Hbest) as (Hr & Hle & Hall).
        assert (Hrp : is_prob (snd (fold_left
                         (fun (best : pyval * num) (kv : pyval * num) =>
                            if gtb (snd kv) (snd best) then kv else best)
                         (map (fun s => (s, V s)) l') best)) = true)
          by (rewrite Hr; apply HV).
        split; [exact Hr|]. split; [exact Hle|].
        intros c [<-|Hc]; [|exact (Hall c Hc)].
        exact (prob_le_trans _ _ _ (HV x) Hb Hrp Hgt Hle). }
  destruct (Hfold l (s0, V s0) eq_refl) as (Hr & Hle & Hall).
  cbn [snd fst] in Hle. rewrite <- Hr.
  intros c [<-|Hc]; [exact Hle | exact (Hall c Hc)].
Qed.

Hypothesis Hstr : states_are_strings m = true.

(** A returned path of states has a product no path of states exceeds. *)
Lemma find_best_path_maximal (b0 : pyval) (bs best path : list pyval) :
  forallb (emits m) (b0 :: bs) = true ->
  find_best_path m (b0 :: bs) = Ok best ->
  Forall (fun s => In s states) best ->
  Forall (fun s => In s states) path ->
  List.length path = S (List.length bs) ->
  is_prob (joint m path (b0 :: bs)) = true
  /\ is_prob (joint m best (b0 :: bs)) = true
  /\ gtb (joint m path (b0 :: bs)) (joint m best (b0 :: bs)) = false.
Proof.
  intros He Hfind Hbest Hpath Hlen.
  set (V0 := first_row m b0).
  set (Vl := last (rows_from m V0 bs) V0).
  assert (HV0 : forall s, is_prob (V0 s) = true)
    by (intros s; apply first_row_prob).
  assert (HVl : forall s, is_prob (Vl s) = true)
    by (intros s; now apply last_row_prob).
  assert (Hdom : forall path',
            Forall (fun s => In s states) path' ->
            List.length path' = S (List.length bs) ->
            is_prob (joint m path' (b0 :: bs)) = true
            /\ gtb (joint m path' (b0 :: bs)) (Vl (last path' (PStr "Start")))
               = false).
  { intros [|p path'] Hp' Hl'; [discriminate|].
    inversion Hp' as [|? ? Hp Hrest]; subst.
    rewrite last_cons_default. cbn [joint]. split.
    - apply joint_from_prob, HV0.
    - apply rows_dominate_prob; try assumption.
      + simpl in Hl'. lia.
      + apply HV0.
      + apply gtb_irrefl, HV0. }
  assert (Hne : states <> []).
  { destruct path as [|p path]; [discriminate|].
    inversion Hpath as [|? ? Hp _]; subst. intros Hnil.
    rewrite Hnil in Hp. exact Hp. }
  destruct (max_key_above_prob Vl HVl Hne) as (final & Hmax & Hall).
  assert (Hjoint : joint m best (b0 :: bs) = Vl final).
  { destruct (is_positive (Vl final)) eqn:Hpos.
    - destruct (find_best_path_positive m Hdec prob_model_nonneg b0 bs final
                  He Hmax Hpos) as (best' & Hfind' & _ & _ & _ & Hj & _).
      rewrite Hfind in Hfind'. injection Hfind' as <-. exact Hj.
    - destruct (find_best_path_not_positive m Hdec Hstr b0 bs final best
                  He Hmax Hpos Hfind) as [[-> ->]|(b1 & -> & ->)].
      + reflexivity.
      + exfalso. inversion Hbest as [|? ? Hnone _]; subst.
        exact (None_not_state m Hstr Hnone). }
  destruct (Hdom path Hpath Hlen) as [Hpp Hpl].
  rewrite Hjoint. split; [exact Hpp|]. split; [apply HVl|].
  apply (prob_le_trans _ _ _ Hpp (HVl _) (HVl _) Hpl).
  apply Hall. rewrite Forall_forall in Hpath. apply Hpath.
  apply last_In. intros ->. discriminate.
Qed.

End OrderedDecoder.

(** [<=] on probabilities, from [>]. *)
Lemma leb_of_gtb (a b : float) :
  is_prob a = true -> is_prob b = true ->
  gtb a b = false -> PrimFloat.leb a b = true.
Proof.
  intros Ha Hb. rewrite (gtb_value a b Ha Hb), FloatAxioms.leb_spec.
  rewrite (SFleb_value (Prim2SF a) (Prim2SF b));
    try apply Prim2SF_valid; try (now apply unit_nonneg, is_prob_unit).
  rewrite Z.ltb_ge, Z.leb_le. tauto.
Qed.

(** Rounding decides between close paths: on 489 "C" and 9 "A" the
    decoder returns 498 "E", although in exact arithmetic the path with
    the splice site on the first "A" has the larger product. *)
Example rounding_changes_the_decoded_path :
  find_best_path notebook64 (repeat (PStr "C") 489 ++ repeat (PStr "A") 9)
  = Ok (repeat (PStr "E") 498)
  /\ joint notebookQ (repeat (PStr "E") 498)
       (repeat (PStr "C") 489 ++ repeat (PStr "A") 9)
     < joint notebookQ (repeat (PStr "E") 489 ++ PStr "5" :: repeat (PStr "I") 8)
         (repeat (PStr "C") 489 ++ repeat (PStr "A") 9).
Proof. split; vm_compute; reflexivity. Qed.

(** C1.  On binary64, for complete tables whose entries are probabilities
    (numbers from 0 to 1), states that are strings and a sequence whose
    symbols every state emits: when the decoder returns a path of states,
    no path of states of the same length has a larger product of start,
    emission and transition probabilities, the product being multiplied in
    binary64 from left to right along the path, as the decoder does.  The
    score of [calc_path_probability] is not that product: it adds the
    logarithm of the transition to "End" after a final "I". *)
Theorem decode_maximises_product (m : Model float)
    (dna_seq best path : list pyval) :
  decodable m = true -> prob_model m = true ->
  states_are_strings m = true ->
  forallb (emits m) dna_seq = true ->
  find_best_path m dna_seq = Ok best ->
  Forall (fun s => In s (hmm_states m)) best ->
  Forall (fun s => In s (hmm_states m)) path ->
  List.length path = List.length dna_seq ->
  PrimFloat.leb (joint m path dna_seq) (joint m best dna_seq) = true.
Proof.
  intros Hdec Hprob Hstr He Hfind Hbest Hpath Hlen.
  destruct dna_seq as [|b0 bs].
  - exfalso. revert Hfind. unfold find_best_path, init_tables. simpl.
    destruct (hmm_states m) as [|s states]; simpl; [discriminate|].
    destruct (dict_get (start_probs m) s); simpl; [|discriminate].
    destruct (dict_get (emit_probs m) s); simpl; discriminate.
  - destruct (find_best_path_maximal m Hdec Hprob Hstr b0 bs best path
                He Hfind Hbest Hpath Hlen) as (Hp & Hb & Hle).
    now apply leb_of_gtb.
Qed.

Lemma decode_maximises_product_witness :
  PrimFloat.leb (joint notebook64 primer_path sample)
    (joint notebook64 (repeat (PStr "E") 26) sample) = true.
Proof.
  apply (decode_maximises_product notebook64 sample (repeat (PStr "E") 26)
           primer_path); try (vm_compute; reflexivity).
  - apply all_in_Forall. vm_compute. reflexivity.
  - apply all_in_Forall. vm_compute. reflexivity.
Defined.
